(** * The [jsondata] documentation builder

    A shallow embedding of [python/docs/src/_extension/json_builder.py]:
    the two node visitors ([APIDataVisitor], [CodeBlockVisitor]), the
    per-document collection step ([JSONDataBuilder.write_doc]) and the
    linking and emission step ([JSONDataBuilder.finish]), followed by the
    properties established about them.

    Python [str] values are sequences of Unicode code points; they are
    modelled as lists of code points.  Python lists are lists, insertion
    ordered dictionaries are association lists updated in place, and the
    dictionaries that are shared between [data], [current_class] and
    [class_map] are modelled by their position in the list that owns them. *)

From Stdlib Require Import String Ascii.
From stdpp Require Import base decidable option list numbers gmap.

Set Warnings "-register-all,-clear-no-such-hyp".
Set Default Proof Using "Type*".

(** ** Text *)

Definition char := N.
Definition text := list char.

(** An ASCII literal of the source, as code points. *)
Definition lit (s : string) : text := N_of_ascii <$> list_ascii_of_string s.

Definition chr_dot : char := 46%N.        (* "."  *)
Definition chr_newline : char := 10%N.    (* "\n" *)
Definition chr_space : char := 32%N.      (* " "  *)
Definition chr_underscore : char := 95%N. (* "_"  *)
Definition chr_en_dash : char := 8211%N.  (* U+2013, the dash of [visit_field] *)
Definition chr_pilcrow : char := 182%N.   (* U+00B6, the permalink marker *)

Definition in_range (lo hi c : char) : bool := ((lo <=? c) && (c <=? hi))%N.

(** [str.isspace] for one code point (also the class [\s] of [re] on
    [str] patterns): the white space of the Unicode character database. *)
Definition is_space (c : char) : bool :=
  in_range 9%N 13%N c || in_range 28%N 32%N c
  || bool_decide (c ∈ [133; 160; 5760; 8232; 8233; 8239; 8287; 12288]%N)
  || in_range 8192%N 8202%N c.

Definition is_ascii_alnum (c : char) : bool :=
  in_range 48%N 57%N c || in_range 65%N 90%N c || in_range 97%N 122%N c.

(** [s.startswith(p)], and [sub in s] for strings. *)
Fixpoint is_prefix (p s : text) : bool :=
  match p, s with
  | [], _ => true
  | a :: p', b :: s' => bool_decide (a = b) && is_prefix p' s'
  | _ :: _, [] => false
  end.

Fixpoint str_contains (sub s : text) : bool :=
  is_prefix sub s ||
  match s with
  | [] => false
  | _ :: s' => str_contains sub s'
  end.

(** [s.find(sub)]: the lowest index where [sub] starts, or [-1]. *)
Fixpoint str_find_from (sub s : text) (i : Z) : Z :=
  if is_prefix sub s then i
  else match s with
       | [] => (-1)%Z
       | _ :: s' => str_find_from sub s' (i + 1)%Z
       end.

Definition str_find (sub s : text) : Z := str_find_from sub s 0%Z.

(** [s[i:]] for an index [i >= 0]. *)
Definition slice_from (i : Z) (s : text) : text := drop (Z.to_nat i) s.

(** [s.split(sep)] for a one-character separator: the list is never
    empty, and its last element is what follows the last separator. *)
Fixpoint str_split (sep : char) (s : text) : list text :=
  match s with
  | [] => [[]]
  | c :: s' =>
      if bool_decide (c = sep) then [] :: str_split sep s'
      else match str_split sep s' with
           | [] => [[c]]
           | seg :: segs => (c :: seg) :: segs
           end
  end.

(** [s.strip()] *)
Fixpoint lstrip (s : text) : text :=
  match s with
  | c :: s' => if is_space c then lstrip s' else s
  | [] => []
  end.

Definition rstrip (s : text) : text := reverse (lstrip (reverse s)).
Definition str_strip (s : text) : text := rstrip (lstrip s).

(** [re.sub(r"\s+", " ", s)]: every maximal run of white space becomes
    one space.  [in_run] tells that the previous character was white
    space, so that the run has been replaced already. *)
Fixpoint collapse_spaces_from (in_run : bool) (s : text) : text :=
  match s with
  | [] => []
  | c :: s' =>
      if is_space c
      then (if in_run then [] else [chr_space]) ++ collapse_spaces_from true s'
      else c :: collapse_spaces_from false s'
  end.

Definition collapse_spaces (s : text) : text := collapse_spaces_from false s.

(** [s.replace(old, "")] for a non-empty [old]: occurrences are removed
    from left to right, without overlap.  [skip] counts the characters of
    the occurrence being removed that are still to be passed. *)
Fixpoint str_remove_from (old : text) (skip : nat) (s : text) : text :=
  match s with
  | [] => []
  | c :: s' =>
      match skip with
      | S k => str_remove_from old k s'
      | O =>
          if is_prefix old s
          then str_remove_from old (length old - 1) s'
          else c :: str_remove_from old 0 s'
      end
  end.

Definition str_remove (old s : text) : text := str_remove_from old 0 s.

(** ** Outcomes

    A call either returns or raises.  [re_error] is the exception of
    Python's [re] for a pattern that does not compile.  [beyond_model] is
    not a behaviour of the program: it marks a pattern that uses regular
    expression syntax this development does not describe, and nothing is
    claimed about such a run. *)

Inductive failure := re_error | beyond_model.

Inductive outcome (A : Type) :=
  | Done (a : A)
  | Raise (e : failure).
Arguments Done {A} a.
Arguments Raise {A} e.

#[global] Instance outcome_ret : MRet outcome := fun _ a => Done a.
#[global] Instance outcome_bind : MBind outcome := fun _ _ f m =>
  match m with
  | Done a => f a
  | Raise e => Raise e
  end.

(** [for x in l: s = body x s], stopping at the first exception. *)
Fixpoint for_each {A S : Type} (body : A → S → outcome S) (l : list A) (s : S)
  : outcome S :=
  match l with
  | [] => Done s
  | x :: l' => s' ← body x s; for_each body l' s'
  end.

(** ** Records of the output *)

Record ParameterRecord := {
  param_name : text;
  param_type : text;
  param_description : text
}.

Record APIRecord := {
  class_name : text;
  signature : text;
  description : text;
  parameters : list ParameterRecord;
  examples : list text
}.

Definition with_examples (info : APIRecord) (ex : list text) : APIRecord :=
  {| class_name := class_name info; signature := signature info;
     description := description info; parameters := parameters info;
     examples := ex |}.

Definition with_parameters (info : APIRecord) (ps : list ParameterRecord)
  : APIRecord :=
  {| class_name := class_name info; signature := signature info;
     description := description info; parameters := ps;
     examples := examples info |}.

(** The value handed to [json.dump]. *)
Inductive json :=
  | JString (s : text)
  | JArray (items : list json)
  | JObject (members : list (text * json)).

Definition json_of_parameter (p : ParameterRecord) : json :=
  JObject [ (lit "name", JString (param_name p));
            (lit "type", JString (param_type p));
            (lit "description", JString (param_description p)) ].

Definition json_of_record (info : APIRecord) : json :=
  JObject [ (lit "class_name", JString (class_name info));
            (lit "signature", JString (signature info));
            (lit "description", JString (description info));
            (lit "parameters", JArray (json_of_parameter <$> parameters info));
            (lit "examples", JArray (JString <$> examples info)) ].

(** ** Insertion-ordered dictionaries *)

(** [d[k] = v]: a present key keeps its place and takes the new value, a
    new key goes to the end. *)
Fixpoint dict_set {V : Type} (k : text) (v : V) (d : list (text * V))
  : list (text * V) :=
  match d with
  | [] => [(k, v)]
  | (k', v') :: d' =>
      if bool_decide (k' = k) then (k, v) :: d' else (k', v') :: dict_set k v d'
  end.

Fixpoint dict_get {V : Type} (k : text) (d : list (text * V)) : option V :=
  match d with
  | [] => None
  | (k', v') :: d' => if bool_decide (k' = k) then Some v' else dict_get k d'
  end.

(** ** The word-boundary pattern of the linker *)

Inductive atom :=
  | ALiteral (c : char)   (* an ordinary character *)
  | AAny                  (* [.] *)
  | ABoundary.            (* [\b] *)

Inductive quantifier := QOne | QOptional | QStar | QPlus.

Definition item : Type := atom * quantifier.
Definition branch : Type := list item.

Definition chr_backslash : char := 92%N.
Definition chr_b : char := 98%N.
Definition chr_bar : char := 124%N.
Definition chr_rparen : char := 41%N.
Definition chr_star : char := 42%N.
Definition chr_plus : char := 43%N.
Definition chr_question : char := 63%N.

(** [SPECIAL_CHARS] of the pattern parser: [. \ [ { ( ) * + ? ^ $ |]. *)
Definition special_chars : list char :=
  [46; 92; 91; 123; 40; 41; 42; 43; 63; 94; 36; 124]%N.

Definition is_special (c : char) : bool := bool_decide (c ∈ special_chars).

Definition quantifier_of (c : char) : option quantifier :=
  if bool_decide (c = chr_question) then Some QOptional
  else if bool_decide (c = chr_star) then Some QStar
  else if bool_decide (c = chr_plus) then Some QPlus
  else None.

(** The last item of the branch being read, and the branch without it. *)
Definition split_last (b : branch) : option (branch * item) :=
  match reverse b with
  | [] => None
  | it :: rb => Some (reverse rb, it)
  end.

(** The pattern parser of [re], left to right, on the part of the syntax
    described here: ordinary characters, [.], [\b], alternation with [|]
    and the repetitions [?], [*] and [+] (greedy or lazy, which match the
    same strings) of a single character.
    - a repetition with nothing before it, or after [\b], is the error
      "nothing to repeat"; a repetition of a repetition is "multiple
      repeat"; a closing parenthesis that closes nothing is "unbalanced
      parenthesis";
    - groups, sets, counted repetitions, the anchors, the other escapes
      and possessive repetitions are [beyond_model].
    [cur] is the branch being read, [done] the branches before it. *)
Fixpoint parse_pattern (pat : text) (cur : branch) (done : list branch)
  : outcome (list branch) :=
  match pat with
  | [] => Done (done ++ [cur])
  | c :: rest =>
      if bool_decide (c = chr_bar) then parse_pattern rest [] (done ++ [cur])
      else if bool_decide (c = chr_rparen) then Raise re_error
      else if bool_decide (c = chr_backslash) then
        match rest with
        | c' :: rest' =>
            if bool_decide (c' = chr_b)
            then parse_pattern rest' (cur ++ [(ABoundary, QOne)]) done
            else Raise beyond_model
        | [] => Raise re_error
        end
      else match quantifier_of c with
      | Some q =>
          match split_last cur with
          | None => Raise re_error
          | Some (_, (ABoundary, _)) => Raise re_error
          | Some (front, (a, QOne)) =>
              match rest with
              | c' :: rest' =>
                  if bool_decide (c' = chr_question)
                  then parse_pattern rest' (front ++ [(a, q)]) done
                  else if bool_decide (c' = chr_plus) then Raise beyond_model
                  else parse_pattern rest (front ++ [(a, q)]) done
              | [] => parse_pattern rest (front ++ [(a, q)]) done
              end
          | Some (_, (_, _)) => Raise re_error
          end
      | None =>
          if bool_decide (c = chr_dot) then parse_pattern rest (cur ++ [(AAny, QOne)]) done
          else if is_special c then Raise beyond_model
          else parse_pattern rest (cur ++ [(ALiteral c, QOne)]) done
      end
  end.

Definition re_compile (pattern : text) : outcome (list branch) :=
  parse_pattern pattern [] [].


(** ** Document trees

    The node classes the visitors look for.  None of them derives from
    another one. *)
Inductive known_class :=
  | k_desc | k_desc_signature | k_desc_content
  | k_field | k_list_item | k_paragraph
  | k_strong | k_emphasis | k_literal_block.

#[global] Instance known_class_eq_dec : EqDecision known_class.
Proof. solve_decision. Defined.

(** The class of an element: one of the classes above, or any other
    class.  Of another class only the class above it derives from, if
    any, matters: [literal_strong] derives from [strong],
    [literal_emphasis] from [emphasis], [compact_paragraph] from
    [paragraph], and no class derives from two of them. *)
Inductive node_class :=
  | exactly (k : known_class)
  | other (base : option known_class).

#[global] Instance node_class_eq_dec : EqDecision node_class.
Proof. solve_decision. Defined.

(** [isinstance(node, k)] for the class [c] of [node] *)
Definition class_isinstance (c : node_class) (k : known_class) : bool :=
  match c with
  | exactly k' => bool_decide (k' = k)
  | other base => bool_decide (base = Some k)
  end.

(** The attributes of an element that the visitors read, and what its
    class says about [astext]: the text of an element is the texts of its
    children joined by [child_text_separator], which some classes wrap
    (a parameter list in parentheses, for one). *)
Record attributes := {
  objtype : option text;
  ids : list text;
  child_text_separator : text;
  text_opening : text;
  text_closing : text
}.

(** A text node, with the text [astext] gives for it, or an element. *)
Inductive node :=
  | Text (s : text)
  | Element (cls : node_class) (attrs : attributes) (children : list node).

(** A node is known by its place in the tree as it was parsed: the
    indices of the children to follow from the root. *)
Definition path := list nat.

(** The tree changes in one way only: [parent.remove(child)].  The
    nodes taken out of their parent so far are the store of the tree; a
    node taken out keeps its own children. *)
Definition removed := gset path.

(** [sep.join(texts)] *)
Fixpoint str_join (sep : text) (texts : list text) : text :=
  match texts with
  | [] => []
  | [t] => t
  | t :: ts => t ++ sep ++ str_join sep ts
  end.

(** [node.children], each child with its place *)
Fixpoint children_from (D : removed) (p : path) (i : nat) (cs : list node)
  : list (path * node) :=
  match cs with
  | [] => []
  | c :: cs' =>
      (if bool_decide (p ++ [i] ∈ D) then [] else [(p ++ [i], c)])
      ++ children_from D p (S i) cs'
  end.

Definition node_children (D : removed) (p : path) (n : node)
  : list (path * node) :=
  match n with
  | Text _ => []
  | Element _ _ cs => children_from D p 0 cs
  end.

(** [node.astext()] *)
Fixpoint astext (D : removed) (p : path) (n : node) : text :=
  match n with
  | Text s => s
  | Element _ a cs =>
      let fix texts (i : nat) (cs : list node) : list text :=
        match cs with
        | [] => []
        | c :: cs' =>
            (if bool_decide (p ++ [i] ∈ D) then []
             else [astext D (p ++ [i]) c])
            ++ texts (S i) cs'
        end in
      text_opening a ++ str_join (child_text_separator a) (texts 0 cs)
      ++ text_closing a
  end.

(** [node.traverse()]: the node itself, then its descendants, in
    document order. *)
Fixpoint traverse (D : removed) (p : path) (n : node) : list (path * node) :=
  (p, n) ::
  match n with
  | Text _ => []
  | Element _ _ cs =>
      (fix below (i : nat) (cs : list node) : list (path * node) :=
         match cs with
         | [] => []
         | c :: cs' =>
             (if bool_decide (p ++ [i] ∈ D) then []
              else traverse D (p ++ [i]) c)
             ++ below (S i) cs'
         end) 0 cs
  end.

Definition isinstance (n : node) (k : known_class) : bool :=
  match n with
  | Text _ => false
  | Element c _ _ => class_isinstance c k
  end.

(** [node.traverse(k)] *)
Definition traverse_class (k : known_class) (D : removed) (p : path) (n : node)
  : list (path * node) :=
  filter (λ pn, isinstance pn.2 k = true) (traverse D p n).

(** [next(iter(node.traverse(k)), None)] *)
Definition first_instance (k : known_class) (D : removed) (p : path) (n : node)
  : option (path * node) :=
  head (traverse_class k D p n).

Definition node_attributes (n : node) : attributes :=
  match n with
  | Text _ =>
      {| objtype := None; ids := []; child_text_separator := [];
         text_opening := []; text_closing := [] |}
  | Element _ a _ => a
  end.

(** ** Visitors and [walkabout] *)

(** A [NodeVisitor]: what it does when a node is entered and left.  A
    visit may take nodes out of the tree. *)
Class NodeVisitor (V : Type) := {
  dispatch_visit : removed → path → node → V → V * removed;
  dispatch_departure : removed → path → node → V → V * removed
}.

(** [node.walkabout(visitor)]: visit the node, walk the children it has
    once visited, leave the node. *)
Fixpoint walkabout {V : Type} `{NodeVisitor V} (p : path) (n : node)
    (s : V * removed) : V * removed :=
  let s1 := dispatch_visit s.2 p n s.1 in
  let s2 :=
    match n with
    | Text _ => s1
    | Element _ _ cs =>
        (fix walk_children (i : nat) (cs : list node) (s : V * removed)
           : V * removed :=
           match cs with
           | [] => s
           | c :: cs' =>
               walk_children (S i) cs'
                 (if bool_decide (p ++ [i] ∈ s1.2) then s
                  else walkabout (p ++ [i]) c s)
           end) 0 cs s1
    end in
  dispatch_departure s2.2 p n s2.1.

(** ** [APIDataVisitor] *)

(** [self.data] and [self.current_class].  The current class is the
    record appended last to [data], the same object: it is given by its
    position in [data]. *)
Record APIDataVisitor := {
  data : list APIRecord;
  current_class : option nat
}.

(** [APIDataVisitor.__init__] *)
Definition new_api_visitor : APIDataVisitor :=
  {| data := []; current_class := None |}.

Definition is_class_desc (n : node) : bool :=
  bool_decide (objtype (node_attributes n) = Some (lit "class")).

(** [APIDataVisitor.visit_desc] *)
Definition visit_desc (D : removed) (p : path) (node : node)
    (self : APIDataVisitor) : APIDataVisitor :=
  if is_class_desc node then
    match first_instance k_desc_signature D p node with
    | Some (sp, sig_node) =>
        let class_name :=
          match ids (node_attributes sig_node) with
          | id0 :: _ => id0
          | [] => lit "UnknownClass"
          end in
        let signature :=
          str_strip (str_remove (chr_pilcrow :: lit "[source]")
                       (collapse_spaces (astext D sp sig_node))) in
        let description :=
          match first_instance k_desc_content D p node with
          | Some (cp, content_node) =>
              match first_instance k_paragraph D cp content_node with
              | Some (pp, para_node) => astext D pp para_node
              | None => []
              end
          | None => []
          end in
        {| data := data self ++
                   [ {| class_name := class_name; signature := signature;
                        description := description; parameters := [];
                        examples := [] |} ];
           current_class := Some (length (data self)) |}
    | None => self
    end
  else self.

(** [APIDataVisitor.depart_desc] *)
Definition depart_desc (node : node) (self : APIDataVisitor) : APIDataVisitor :=
  if is_class_desc node
  then {| data := data self; current_class := None |}
  else self.

(** [self.current_class["parameters"].append(p)] *)
Definition append_parameter (cur : nat) (p : ParameterRecord)
    (self : APIDataVisitor) : APIDataVisitor :=
  {| data := alter (λ info, with_parameters info (parameters info ++ [p]))
                   cur (data self);
     current_class := current_class self |}.

(** The body of the loop of [visit_field], for one list item. *)
Definition visit_list_item (cur : nat) (s : APIDataVisitor * removed)
    (list_item : path * node) : APIDataVisitor * removed :=
  match first_instance k_paragraph s.2 list_item.1 list_item.2 with
  | None => s
  | Some (pp, para) =>
      let strong_tag := first_instance k_strong s.2 pp para in
      let emphasis_tag := first_instance k_emphasis s.2 pp para in
      let name :=
        match strong_tag with
        | Some (sp, strong_node) => astext s.2 sp strong_node
        | None => []
        end in
      let type_str :=
        match emphasis_tag with
        | Some (ep, emphasis_node) => astext s.2 ep emphasis_node
        | None => lit "Any"
        end in
      let D1 :=
        match strong_tag with
        | Some (sp, _) => s.2 ∪ {[ sp ]}
        | None => s.2
        end in
      let D2 :=
        match emphasis_tag with
        | Some (ep, _) => D1 ∪ {[ ep ]}
        | None => D1
        end in
      let full_text := astext D2 pp para in
      let desc_start_index := str_find [chr_en_dash] full_text in
      let desc :=
        if bool_decide (desc_start_index ≠ (-1)%Z)
        then str_strip (slice_from (desc_start_index + 1) full_text)
        else [] in
      match name with
      | [] => (s.1, D2)
      | _ :: _ =>
          (append_parameter cur
             {| param_name := name; param_type := type_str;
                param_description := desc |} s.1, D2)
      end
  end.

(** [APIDataVisitor.visit_field] *)
Definition visit_field (D : removed) (p : path) (node : node)
    (self : APIDataVisitor) : APIDataVisitor * removed :=
  match current_class self with
  | None => (self, D)
  | Some cur =>
      match node_children D p node with
      | [field_name_node; field_body_node] =>
          if str_contains (lit "Parameters")
               (astext D field_name_node.1 field_name_node.2)
          then foldl (visit_list_item cur) (self, D)
                 (traverse_class k_list_item D
                    field_body_node.1 field_body_node.2)
          else (self, D)
      | _ => (self, D)
      end
  end.

(** Dispatch is on the name of the class of the node; every class the
    visitor has no method for goes to [unknown_visit] and
    [unknown_departure], which do nothing. *)
#[global] Instance api_data_visitor : NodeVisitor APIDataVisitor := {
  dispatch_visit D p n self :=
    match n with
    | Element (exactly k_desc) _ _ => (visit_desc D p n self, D)
    | Element (exactly k_field) _ _ => visit_field D p n self
    | _ => (self, D)
    end;
  dispatch_departure D p n self :=
    match n with
    | Element (exactly k_desc) _ _ => (depart_desc n self, D)
    | _ => (self, D)
    end
}.

(** ** [CodeBlockVisitor] *)

Record CodeBlockVisitor := { code_blocks : list text }.

Definition new_code_visitor : CodeBlockVisitor := {| code_blocks := [] |}.

(** [CodeBlockVisitor.visit_literal_block] *)
Definition visit_literal_block (D : removed) (p : path) (node : node)
    (self : CodeBlockVisitor) : CodeBlockVisitor :=
  {| code_blocks := code_blocks self ++ [astext D p node] |}.

#[global] Instance code_block_visitor : NodeVisitor CodeBlockVisitor := {
  dispatch_visit D p n self :=
    match n with
    | Element (exactly k_literal_block) _ _ => (visit_literal_block D p n self, D)
    | _ => (self, D)
    end;
  dispatch_departure D p n self := (self, D)
}.

(** ** Paths of source files *)

(** [s.rfind(c)] *)
Fixpoint str_rfind_from (c : char) (s : text) (i best : Z) : Z :=
  match s with
  | [] => best
  | d :: s' => str_rfind_from c s' (i + 1)%Z (if bool_decide (d = c) then i else best)
  end.

Definition str_rfind (c : char) (s : text) : Z := str_rfind_from c s 0%Z (-1)%Z.

Definition chr_slash : char := 47%N.

(** [Path(p).name]: the last component of the path, empty components
    and [.] left out. *)
Definition path_name (p : text) : text :=
  default []
    (last (filter (λ part, part ≠ [] ∧ part ≠ [chr_dot]) (str_split chr_slash p))).

(** [Path(p).suffix]: from the last dot of the name on, when that dot is
    neither the first nor the last character of the name. *)
Definition path_suffix (p : text) : text :=
  let name := path_name p in
  let i := str_rfind chr_dot name in
  if bool_decide (0 < i < Z.of_nat (length name) - 1)%Z
  then slice_from i name
  else [].
Section Builder.

(** [str.isalnum] on the code points above ASCII, that is the Unicode
    character database, which the word boundary [\b] consults. *)
Variable unicode_isalnum : char → bool.

(** [env.doc2path(docname, base=True)]: the source file of a document, as
    the host framework knows it. *)
Variable doc2path : text → text.

(** Proofs about definitions that use neither variable start by dropping
    them, so that no automation picks them up. *)
Ltac tidy := try clear doc2path; try clear unicode_isalnum.

(** The class [\w] of [re] on [str] patterns. *)
Definition is_word (c : char) : bool :=
  bool_decide (c = chr_underscore)
  || (if (c <? 128)%N then is_ascii_alnum c else unicode_isalnum c).

Definition is_word_opt (c : option char) : bool :=
  match c with
  | Some c => is_word c
  | None => false
  end.

(** [\b] between the character [prev] just read and the rest of the
    subject: exactly one side is a word character (the ends of the
    subject count as no character). *)
Definition at_boundary (prev : option char) (rest : text) : bool :=
  xorb (is_word_opt prev) (is_word_opt (head rest)).

Definition atom_accepts (a : atom) (c : char) : bool :=
  match a with
  | ALiteral c' => bool_decide (c' = c)
  | AAny => negb (bool_decide (c = chr_newline))
  | ABoundary => false
  end.

(** Whether the items match at the current position of the subject,
    trying every way a repetition can be spent. *)
Fixpoint match_here (items : branch) (prev : option char) (rest : text) : bool :=
  match items with
  | [] => true
  | (ABoundary, _) :: items' => at_boundary prev rest && match_here items' prev rest
  | (a, q) :: items' =>
      let fix star (prev : option char) (rest : text) : bool :=
        match_here items' prev rest ||
        match rest with
        | c :: rest' => atom_accepts a c && star (Some c) rest'
        | [] => false
        end in
      match q with
      | QOne =>
          match rest with
          | c :: rest' => atom_accepts a c && match_here items' (Some c) rest'
          | [] => false
          end
      | QOptional =>
          match_here items' prev rest ||
          match rest with
          | c :: rest' => atom_accepts a c && match_here items' (Some c) rest'
          | [] => false
          end
      | QStar => star prev rest
      | QPlus =>
          match rest with
          | c :: rest' => atom_accepts a c && star (Some c) rest'
          | [] => false
          end
      end
  end.

(** The scan of [search]: every position of the subject, from the left. *)
Fixpoint search_from (branches : list branch) (prev : option char) (rest : text)
  : bool :=
  existsb (λ b, match_here b prev rest) branches ||
  match rest with
  | c :: rest' => search_from branches (Some c) rest'
  | [] => false
  end.

(** [bool(re.search(pattern, string))] *)
Definition re_search (pattern subject : text) : outcome bool :=
  branches ← re_compile pattern;
  mret (search_from branches None subject).

(** [rf"\b{short_name}\b"] *)
Definition word_pattern (short_name : text) : text :=
  [chr_backslash; chr_b] ++ short_name ++ [chr_backslash; chr_b].

(** ** The builder: linking and emission *)

(** [self.all_api_classes] and [self.all_code_blocks] (document name to
    the code blocks of that document, in insertion order). *)
Record JSONDataBuilder := {
  all_api_classes : list APIRecord;
  all_code_blocks : list (text * list text)
}.

(** [JSONDataBuilder.init] *)
Definition init : JSONDataBuilder :=
  {| all_api_classes := []; all_code_blocks := [] |}.

(** [info["class_name"].split(".")[-1]] *)
Definition short_name_of (info : APIRecord) : text :=
  default [] (last (str_split chr_dot (class_name info))).

(** [{info["class_name"].split(".")[-1]: info for info in all_api_classes}].
    The value kept for a key is the record itself, not a copy: it is
    given here by the position of the record in [all_api_classes].
    [class_map_from i infos d] goes on with the comprehension, [d] being
    the dictionary so far and [i] the position of the next record. *)
Fixpoint class_map_from (i : nat) (infos : list APIRecord)
    (d : list (text * nat)) : list (text * nat) :=
  match infos with
  | [] => d
  | info :: infos' =>
      class_map_from (S i) infos' (dict_set (short_name_of info) i d)
  end.

Definition class_map (all_api_classes : list APIRecord) : list (text * nat) :=
  class_map_from 0 all_api_classes [].

(** [if code not in class_info["examples"]: class_info["examples"].append(code)] *)
Definition append_example (code : text) (class_info : APIRecord) : APIRecord :=
  if bool_decide (code ∈ examples class_info) then class_info
  else with_examples class_info (examples class_info ++ [code]).

(** The body of the innermost loop of [finish], for one code block and one
    entry [(short_name, class_info)] of [class_map]. *)
Definition link_entry (code : text) (entry : text * nat)
    (classes : list APIRecord) : outcome (list APIRecord) :=
  found ← re_search (word_pattern entry.1) code;
  mret (if found : bool then alter (append_example code) entry.2 classes
        else classes).

Definition link_code (cmap : list (text * nat)) (code : text)
    (classes : list APIRecord) : outcome (list APIRecord) :=
  for_each (link_entry code) cmap classes.

Definition link_document (cmap : list (text * nat)) (doc : text * list text)
    (classes : list APIRecord) : outcome (list APIRecord) :=
  for_each (link_code cmap) doc.2 classes.

(** The linking phase of [finish]: the three nested loops. *)
Definition link (b : JSONDataBuilder) : outcome (list APIRecord) :=
  for_each (link_document (class_map (all_api_classes b)))
           (all_code_blocks b) (all_api_classes b).

(** [json.dump(self.all_api_classes, f, indent=2)]: the value written. *)
Definition json_dump (classes : list APIRecord) : json :=
  JArray (json_of_record <$> classes).

(** [JSONDataBuilder.finish]: the builder after linking and the JSON value
    written to [api_data.json]. *)
Definition finish (b : JSONDataBuilder) : outcome (JSONDataBuilder * json) :=
  linked ← link b;
  mret ({| all_api_classes := linked; all_code_blocks := all_code_blocks b |},
        json_dump linked).

(** ** The builder: collection *)

Definition is_reference_document (docname : text) : bool :=
  str_contains (lit "reference/python") docname.

Definition is_example_document (docname : text) : bool :=
  bool_decide (path_suffix (doc2path docname) ∈ [lit ".ipynb"; lit ".md"]).

(** [JSONDataBuilder.write_doc].  Two tests one after the other: the API
    visitor walks the tree of a reference document; the code visitor then
    walks the tree of an example document, as the API visitor left it. *)
Definition write_doc (docname : text) (doctree : node) (self : JSONDataBuilder)
  : JSONDataBuilder :=
  let s1 : JSONDataBuilder * removed :=
    if is_reference_document docname then
      let api_visitor := walkabout [] doctree (new_api_visitor, ∅) in
      (match data api_visitor.1 with
       | [] => self
       | _ :: _ =>
           {| all_api_classes := all_api_classes self ++ data api_visitor.1;
              all_code_blocks := all_code_blocks self |}
       end, api_visitor.2)
    else (self, ∅) in
  if is_example_document docname then
    let code_visitor := walkabout [] doctree (new_code_visitor, s1.2) in
    match code_blocks code_visitor.1 with
    | [] => s1.1
    | _ :: _ =>
        {| all_api_classes := all_api_classes s1.1;
           all_code_blocks :=
             dict_set docname (code_blocks code_visitor.1)
                      (all_code_blocks s1.1) |}
    end
  else s1.1.

(** The host framework calls [init], then [write_doc] for each document
    of the build, one after the other, then [finish]. *)
Definition collect (docs : list (text * node)) : JSONDataBuilder :=
  foldl (λ self doc, write_doc doc.1 doc.2 self) init docs.

Definition build (docs : list (text * node)) : outcome (JSONDataBuilder * json) :=
  finish (collect docs).

(** * Properties *)

(** ** Strings *)

Lemma is_prefix_spec (p s : text) :
  is_prefix p s = true ↔ ∃ post, s = p ++ post.
Proof.
  revert s. induction p as [|a p IH]; intros s; simpl.
  - split; [intros _; by exists s | done].
  - destruct s as [|b s].
    + split; [done | intros [post ?]; done].
    + rewrite andb_true_iff, bool_decide_eq_true, IH. split.
      * intros [-> [post ->]]. by exists post.
      * intros [post [= -> ->]]. split; [done | by exists post].
Qed.

Lemma is_prefix_app (p post : text) : is_prefix p (p ++ post) = true.
Proof. apply is_prefix_spec. by exists post. Qed.

(** ** The word-boundary pattern on names without special characters *)

(** A name is plain when none of its characters is special in a regular
    expression; the names of Python classes are. *)
Definition plain_name (short_name : text) : bool :=
  forallb (λ c, negb (is_special c)) short_name.

Definition literals (s : text) : branch := (λ c, (ALiteral c, QOne)) <$> s.

(** The character before the position reached after reading [read],
    coming from a position whose previous character is [prev]. *)
Definition last_read (prev : option char) (read : text) : option char :=
  match last read with
  | Some c => Some c
  | None => prev
  end.

Lemma last_read_cons prev c read :
  last_read prev (c :: read) = last_read (Some c) read.
Proof.
  unfold last_read. destruct read as [|d read]; [done|].
  rewrite last_cons_cons.
  destruct (last (d :: read)) eqn:E; [done | by apply last_None in E].
Qed.

Lemma last_read_app prev l1 l2 :
  last_read prev (l1 ++ l2) = last_read (last_read prev l1) l2.
Proof.
  revert prev. induction l1 as [|c l1 IH]; intros prev; [done|].
  simpl. by rewrite !last_read_cons, IH.
Qed.

Lemma not_special_inv c :
  is_special c = false →
  c ≠ chr_bar ∧ c ≠ chr_rparen ∧ c ≠ chr_backslash ∧ c ≠ chr_dot
  ∧ quantifier_of c = None.
Proof.
  tidy.
  unfold is_special. rewrite bool_decide_eq_false. intros Hc.
  assert (∀ d, d ∈ special_chars → c ≠ d) as Hne by (intros d Hd ->; done).
  assert (c ≠ chr_question) by (apply Hne; unfold special_chars; set_solver).
  assert (c ≠ chr_star) by (apply Hne; unfold special_chars; set_solver).
  assert (c ≠ chr_plus) by (apply Hne; unfold special_chars; set_solver).
  repeat split; try (apply Hne; unfold special_chars; set_solver).
  unfold quantifier_of. by rewrite !bool_decide_eq_false_2.
Qed.

Lemma parse_pattern_literals s tail cur done :
  plain_name s = true →
  parse_pattern (s ++ tail) cur done
  = parse_pattern tail (cur ++ literals s) done.
Proof.
  revert cur. induction s as [|c s IH]; intros cur Hs; simpl.
  - by rewrite app_nil_r.
  - simpl in Hs. apply andb_true_iff in Hs as [Hc Hs].
    apply negb_true_iff in Hc.
    destruct (not_special_inv _ Hc) as (?&?&?&?&Hq).
    rewrite !bool_decide_eq_false_2 by done. rewrite Hq, Hc.
    rewrite IH by done. by rewrite <- app_assoc.
Qed.

Lemma re_compile_word_pattern s :
  plain_name s = true →
  re_compile (word_pattern s)
  = Done [ [(ABoundary, QOne)] ++ literals s ++ [(ABoundary, QOne)] ].
Proof.
  intros Hs. unfold re_compile, word_pattern. simpl.
  by rewrite parse_pattern_literals by done.
Qed.

Lemma match_here_literals s items prev rest :
  match_here (literals s ++ items) prev rest = true
  ↔ ∃ post, rest = s ++ post ∧ match_here items (last_read prev s) post = true.
Proof.
  revert prev rest. induction s as [|c s IH]; intros prev rest.
  - simpl. split; [intros H; by exists rest | by intros [post [-> H]]].
  - change (literals (c :: s) ++ items)
      with ((ALiteral c, QOne) :: (literals s ++ items)).
    destruct rest as [|d rest]; simpl.
    + split; [done | intros [post [? _]]; done].
    + rewrite andb_true_iff, bool_decide_eq_true, IH. split.
      * intros [-> [post [-> H]]]. exists post. by rewrite last_read_cons.
      * intros [post [[= -> ->] H]]. split; [done|].
        exists post. by rewrite last_read_cons in H.
Qed.

Lemma search_from_spec b prev rest :
  search_from [b] prev rest = true
  ↔ ∃ pre post, rest = pre ++ post
      ∧ match_here b (last_read prev pre) post = true.
Proof.
  revert prev. induction rest as [|c rest IH]; intros prev; simpl.
  - rewrite !orb_false_r. split.
    + intros H. by exists [], [].
    + intros (pre & post & Heq & H). symmetry in Heq.
      apply app_eq_nil in Heq as [-> ->]. done.
  - rewrite orb_false_r, orb_true_iff, IH. split.
    + intros [H | (pre & post & -> & H)].
      * by exists [], (c :: rest).
      * exists (c :: pre), post. by rewrite last_read_cons.
    + intros (pre & post & Heq & H). destruct pre as [|d pre].
      * left. simpl in Heq. by subst post.
      * right. injection Heq as -> ->. exists pre, post.
        by rewrite last_read_cons in H.
Qed.

(** The claim's words: the name occurs in the block, with a word boundary
    on each side of the occurrence.  There is a word boundary between two
    adjacent positions when exactly one of them holds a word character. *)
Definition word_boundary (before after : text) : Prop :=
  is_word_opt (last before) ≠ is_word_opt (head after).

Definition occurs_as_word (short_name code : text) : Prop :=
  ∃ pre post, code = pre ++ short_name ++ post
    ∧ word_boundary pre (short_name ++ post)
    ∧ word_boundary (pre ++ short_name) post.

Lemma at_boundary_spec before after :
  at_boundary (last before) after = true ↔ word_boundary before after.
Proof.
  tidy.
  unfold at_boundary, word_boundary.
  destruct (is_word_opt (last before)), (is_word_opt (head after)); naive_solver.
Qed.

Lemma last_read_None l : last_read None l = last l.
Proof. unfold last_read. by destruct (last l). Qed.

Lemma re_search_word_pattern short_name code :
  plain_name short_name = true →
  ∃ found, re_search (word_pattern short_name) code = Done found
    ∧ (found = true ↔ occurs_as_word short_name code).
Proof.
  intros Hs. unfold re_search. rewrite re_compile_word_pattern by done.
  eexists. split; [reflexivity|].
  rewrite search_from_spec. unfold occurs_as_word.
  split.
  - intros (pre & rest & -> & H). simpl in H.
    apply andb_true_iff in H as [Hb1 H].
    apply match_here_literals in H as (post & -> & H).
    simpl in H. rewrite andb_true_r in H.
    exists pre, post. split; [done|]. rewrite last_read_None in *.
    split; [by apply at_boundary_spec|].
    apply at_boundary_spec.
    by rewrite <- last_read_None, last_read_app, last_read_None.
  - intros (pre & post & -> & Hb1 & Hb2).
    exists pre, (short_name ++ post). split; [done|]. simpl.
    rewrite last_read_None. apply andb_true_iff. split.
    + by apply at_boundary_spec.
    + apply match_here_literals. exists post. split; [done|]. simpl.
      rewrite andb_true_r.
      apply at_boundary_spec in Hb2.
      by rewrite <- last_read_None, last_read_app, last_read_None in Hb2.
Qed.

(** ** Loops with exceptions *)

Lemma for_each_app {A S : Type} (body : A → S → outcome S) l1 l2 s :
  for_each body (l1 ++ l2) s = (s' ← for_each body l1 s; for_each body l2 s').
Proof.
  revert s. induction l1 as [|x l1 IH]; intros s; simpl; [done|].
  destruct (body x s) as [s'|e]; simpl; [apply IH | done].
Qed.

Lemma for_each_fmap {A B S : Type} (f : A → B) (body : B → S → outcome S) l s :
  for_each body (f <$> l) s = for_each (λ x, body (f x)) l s.
Proof.
  revert s. induction l as [|x l IH]; intros s; simpl; [done|].
  destruct (body (f x) s); simpl; [apply IH | done].
Qed.

(** ** The linking loop as a list of steps *)

(** One step of the innermost loop: a code block and an entry of
    [class_map]. *)
Definition step : Type := text * (text * nat).

Definition steps (cmap : list (text * nat)) (blocks : list (text * list text))
  : list step :=
  doc ← blocks; code ← doc.2; pair code <$> cmap.

Definition verdict (a : step) : outcome bool :=
  re_search (word_pattern a.2.1) a.1.

Definition apply_step (classes : list APIRecord) (a : step) : list APIRecord :=
  match verdict a with
  | Done true => alter (append_example a.1) a.2.2 classes
  | _ => classes
  end.

Lemma link_code_steps cmap codes classes :
  for_each (link_code cmap) codes classes
  = for_each (λ a : step, link_entry a.1 a.2)
      (code ← codes; pair code <$> cmap) classes.
Proof.
  revert classes. induction codes as [|code codes IH]; intros s; [done|].
  csimpl. rewrite for_each_app, for_each_fmap.
  change (link_code cmap code s) with (for_each (link_entry code) cmap s).
  simpl.
  destruct (for_each (link_entry code) cmap s); simpl; [apply IH | done].
Qed.

Lemma link_document_steps cmap blocks classes :
  for_each (link_document cmap) blocks classes
  = for_each (λ a : step, link_entry a.1 a.2) (steps cmap blocks) classes.
Proof.
  unfold steps. revert classes.
  induction blocks as [|doc blocks IH]; intros classes; [done|].
  csimpl. rewrite for_each_app, <- link_code_steps.
  change (link_document cmap doc classes)
    with (for_each (link_code cmap) doc.2 classes).
  destruct (for_each (link_code cmap) doc.2 classes); simpl; [apply IH | done].
Qed.

Lemma link_entry_apply (a : step) classes :
  link_entry a.1 a.2 classes
  = match verdict a with
    | Done _ => Done (apply_step classes a)
    | Raise e => Raise e
    end.
Proof.
  unfold link_entry, apply_step, verdict.
  by destruct (re_search (word_pattern a.2.1) a.1) as [[]|].
Qed.

Lemma for_each_steps_Done l classes classes' :
  for_each (λ a : step, link_entry a.1 a.2) l classes = Done classes' →
  classes' = foldl apply_step classes l
  ∧ Forall (λ a, ∃ found, verdict a = Done found) l.
Proof.
  revert classes. induction l as [|a l IH]; intros classes; simpl.
  - intros [= <-]. by split.
  - rewrite link_entry_apply.
    destruct (verdict a) as [found|e] eqn:Hv; simpl; [|done].
    intros H. apply IH in H as [-> Hl]. split; [done|].
    constructor; [by exists found | done].
Qed.

Lemma for_each_steps_total l classes :
  Forall (λ a, ∃ found, verdict a = Done found) l →
  for_each (λ a : step, link_entry a.1 a.2) l classes
  = Done (foldl apply_step classes l).
Proof.
  intros Hl. revert classes.
  induction Hl as [|a l [found Hv] _ IH]; intros classes; simpl; [done|].
  rewrite link_entry_apply, Hv. simpl. apply IH.
Qed.

(** ** One step, and a run of steps *)

Definition examples_at (classes : list APIRecord) (k : nat) : list text :=
  match classes !! k with
  | Some info => examples info
  | None => []
  end.

(** What linking must leave alone. *)
Definition frame (info : APIRecord)
  : text * text * text * list ParameterRecord :=
  (class_name info, signature info, description info, parameters info).

Lemma append_example_frame code info :
  frame (append_example code info) = frame info.
Proof. unfold append_example. by case_bool_decide. Qed.

Lemma append_example_elem code info b :
  b ∈ examples (append_example code info) ↔ b ∈ examples info ∨ b = code.
Proof.
  tidy.
  unfold append_example. case_bool_decide; simpl.
  - naive_solver.
  - rewrite elem_of_app, list_elem_of_singleton. naive_solver.
Qed.

Lemma append_example_NoDup code info :
  NoDup (examples info) → NoDup (examples (append_example code info)).
Proof.
  intros Hnd. unfold append_example. case_bool_decide; simpl; [done|].
  apply NoDup_app. split_and!; [done | | apply NoDup_singleton].
  intros x Hx ->%list_elem_of_singleton. done.
Qed.

Lemma append_example_settled code info :
  code ∈ examples info → append_example code info = info.
Proof. intros H. unfold append_example. by rewrite bool_decide_eq_true_2. Qed.

Lemma apply_step_length classes a :
  length (apply_step classes a) = length classes.
Proof.
  unfold apply_step. destruct (verdict a) as [[]|]; try done.
  apply length_alter.
Qed.

Lemma apply_step_frame classes a :
  frame <$> apply_step classes a = frame <$> classes.
Proof.
  unfold apply_step. destruct (verdict a) as [[]|]; try done.
  apply list_eq. intros i. rewrite !list_lookup_fmap.
  destruct (decide (i = a.2.2)) as [->|Hne].
  - rewrite list_lookup_alter_eq. destruct (classes !! a.2.2); simpl; [|done].
    by rewrite append_example_frame.
  - by rewrite list_lookup_alter_ne.
Qed.

Lemma apply_step_examples classes a k b :
  b ∈ examples_at (apply_step classes a) k
  ↔ b ∈ examples_at classes k
    ∨ (verdict a = Done true ∧ a.2.2 = k ∧ a.1 = b ∧ k < length classes).
Proof.
  tidy.
  unfold apply_step, examples_at.
  destruct (verdict a) as [[]|]; try naive_solver.
  destruct (decide (k = a.2.2)) as [->|Hne].
  - rewrite list_lookup_alter_eq.
    destruct (classes !! a.2.2) as [info|] eqn:Hk; simpl.
    + apply lookup_lt_Some in Hk as Hlt.
      rewrite append_example_elem. naive_solver.
    + apply lookup_ge_None in Hk. split; [by left|]. intros [?|(?&?&?&?)]; [done|lia].
  - rewrite list_lookup_alter_ne by done. naive_solver.
Qed.

Lemma run_length l classes :
  length (foldl apply_step classes l) = length classes.
Proof.
  revert classes. induction l as [|a l IH]; intros classes; simpl; [done|].
  by rewrite IH, apply_step_length.
Qed.

Lemma run_frame l classes :
  frame <$> foldl apply_step classes l = frame <$> classes.
Proof.
  revert classes. induction l as [|a l IH]; intros classes; simpl; [done|].
  by rewrite IH, apply_step_frame.
Qed.

Lemma run_examples l classes k b :
  b ∈ examples_at (foldl apply_step classes l) k
  ↔ b ∈ examples_at classes k
    ∨ ∃ a, a ∈ l ∧ verdict a = Done true ∧ a.2.2 = k ∧ a.1 = b
           ∧ k < length classes.
Proof.
  revert classes. induction l as [|a l IH]; intros classes; simpl.
  - split; [by left|]. intros [?|(a & Ha & _)]; [done|]. by apply elem_of_nil in Ha.
  - rewrite IH, apply_step_examples, apply_step_length. split.
    + intros [[?|(?&?&?&?)]|(a' & ? & ?)].
      * by left.
      * right. exists a. split; [left|done].
      * right. exists a'. split; [by right|done].
    + intros [?|(a' & [->|Ha']%elem_of_cons & ?)].
      * by left; left.
      * by left; right.
      * right. by exists a'.
Qed.

Lemma apply_step_NoDup classes a :
  Forall (λ info, NoDup (examples info)) classes →
  Forall (λ info, NoDup (examples info)) (apply_step classes a).
Proof.
  intros Hnd. unfold apply_step. destruct (verdict a) as [[]|]; try done.
  apply Forall_lookup. intros i info.
  destruct (decide (i = a.2.2)) as [->|Hne].
  - rewrite list_lookup_alter_eq.
    destruct (classes !! a.2.2) as [info0|] eqn:Hk; simpl; [|done].
    intros [= <-]. apply append_example_NoDup.
    by eapply (Forall_lookup_1 _ _ _ _ Hnd).
  - rewrite list_lookup_alter_ne by done. intros Hi.
    by eapply (Forall_lookup_1 _ _ _ _ Hnd).
Qed.

Lemma run_NoDup l classes :
  Forall (λ info, NoDup (examples info)) classes →
  Forall (λ info, NoDup (examples info)) (foldl apply_step classes l).
Proof.
  revert classes. induction l as [|a l IH]; intros classes Hnd; simpl; [done|].
  by apply IH, apply_step_NoDup.
Qed.

(** A step is settled when running it changes nothing: its block is in
    the examples of its record already. *)
Definition settled (classes : list APIRecord) (a : step) : Prop :=
  verdict a = Done true → a.2.2 < length classes →
  a.1 ∈ examples_at classes a.2.2.

Lemma settled_apply_step classes a :
  settled classes a → apply_step classes a = classes.
Proof.
  unfold settled, apply_step, examples_at. intros Hs.
  destruct (verdict a) as [[]|]; try done.
  apply list_eq. intros i.
  destruct (decide (i = a.2.2)) as [->|Hne].
  - rewrite list_lookup_alter_eq.
    destruct (classes !! a.2.2) as [info|] eqn:Hk; simpl; [|done].
    rewrite append_example_settled; [done|].
    apply Hs; [done|]. by eapply lookup_lt_Some.
  - by rewrite list_lookup_alter_ne.
Qed.

Lemma apply_step_settles classes a : settled (apply_step classes a) a.
Proof.
  intros Hv Hlt. apply apply_step_examples. right.
  rewrite apply_step_length in Hlt. done.
Qed.

Lemma apply_step_settled_mono classes a b :
  settled classes a → settled (apply_step classes b) a.
Proof.
  intros Hs Hv Hlt. rewrite apply_step_length in Hlt.
  apply apply_step_examples. left. by apply Hs.
Qed.

Lemma run_settled_mono l classes a :
  settled classes a → settled (foldl apply_step classes l) a.
Proof.
  revert classes. induction l as [|b l IH]; intros classes Hs; simpl; [done|].
  by apply IH, apply_step_settled_mono.
Qed.

Lemma run_settles l classes a :
  a ∈ l → settled (foldl apply_step classes l) a.
Proof.
  revert classes. induction l as [|b l IH]; intros classes Ha; simpl.
  - by apply elem_of_nil in Ha.
  - apply elem_of_cons in Ha as [->|Ha].
    + apply run_settled_mono, apply_step_settles.
    + by apply IH.
Qed.

Lemma run_settled_id l classes :
  Forall (settled classes) l → foldl apply_step classes l = classes.
Proof.
  induction 1 as [|a l Ha _ IH]; simpl; [done|].
  by rewrite settled_apply_step.
Qed.

Lemma run_idempotent l classes :
  foldl apply_step (foldl apply_step classes l) l = foldl apply_step classes l.
Proof. apply run_settled_id, Forall_forall. intros a Ha. by apply run_settles. Qed.

(** ** The short-name lookup *)

Lemma dict_get_set_eq {V} k (v : V) d : dict_get k (dict_set k v d) = Some v.
Proof.
  induction d as [|[k' v'] d IH]; simpl.
  - by rewrite bool_decide_eq_true_2.
  - case_bool_decide as Hk; simpl.
    + by rewrite bool_decide_eq_true_2.
    + by rewrite bool_decide_eq_false_2.
Qed.

Lemma dict_get_set_ne {V} k k' (v : V) d :
  k ≠ k' → dict_get k' (dict_set k v d) = dict_get k' d.
Proof.
  intros Hne. induction d as [|[k0 v0] d IH]; simpl.
  - by rewrite bool_decide_eq_false_2.
  - case_bool_decide as Hk; simpl.
    + subst k0. by rewrite !bool_decide_eq_false_2.
    + by rewrite IH.
Qed.

Lemma dict_set_keys {V} k (v : V) d :
  (dict_set k v d).*1 = if bool_decide (k ∈ d.*1) then d.*1 else d.*1 ++ [k].
Proof.
  induction d as [|[k0 v0] d IH]; [done|].
  cbn [dict_set]. destruct (decide (k0 = k)) as [->|Hk].
  - rewrite bool_decide_eq_true_2 by done. cbn.
    rewrite bool_decide_eq_true_2; [done | by left].
  - rewrite bool_decide_eq_false_2 by done. cbn. rewrite IH.
    destruct (decide (k ∈ d.*1)) as [Hin|Hin].
    + rewrite !bool_decide_eq_true_2; [done | by right | done].
    + rewrite !bool_decide_eq_false_2; [done | | done].
      intros [?|?]%elem_of_cons; by simplify_eq.
Qed.

Lemma dict_set_keys_NoDup {V} k (v : V) d :
  NoDup d.*1 → NoDup (dict_set k v d).*1.
Proof.
  intros Hnd. rewrite dict_set_keys. case_bool_decide as Hin; [done|].
  apply NoDup_app. split_and!; [done | | apply NoDup_singleton].
  intros x Hx ->%list_elem_of_singleton. done.
Qed.

Lemma dict_elem_get {V} k (v : V) d :
  NoDup d.*1 → (k, v) ∈ d ↔ dict_get k d = Some v.
Proof.
  induction d as [|[k0 v0] d IH]; simpl; intros Hnd.
  - split; [by intros ?%elem_of_nil | done].
  - apply NoDup_cons in Hnd as [Hk0 Hnd]. rewrite elem_of_cons.
    case_bool_decide as Hk.
    + subst k0. split.
      * intros [[= ->]|Hin]; [done|]. destruct Hk0.
        apply list_elem_of_fmap. by exists (k, v).
      * intros [= ->]. by left.
    + rewrite <- IH by done. split; [|by right].
      intros [[= -> ->]|?]; done.
Qed.

Lemma class_map_from_snoc i infos info d :
  class_map_from i (infos ++ [info]) d
  = dict_set (short_name_of info) (i + length infos) (class_map_from i infos d).
Proof.
  revert i d. induction infos as [|x infos IH]; intros i d; simpl.
  - by rewrite Nat.add_0_r.
  - rewrite IH. by rewrite Nat.add_succ_r.
Qed.

Lemma class_map_snoc infos info :
  class_map (infos ++ [info])
  = dict_set (short_name_of info) (length infos) (class_map infos).
Proof. unfold class_map. by rewrite class_map_from_snoc. Qed.

Lemma class_map_from_short_names i infos infos' d :
  short_name_of <$> infos = short_name_of <$> infos' →
  class_map_from i infos d = class_map_from i infos' d.
Proof.
  revert i infos' d. induction infos as [|x infos IH]; intros i [|y infos'] d;
    simpl; try done.
  intros [= Hxy Hrest]. rewrite Hxy. by apply IH.
Qed.

(** [i] is the position of the last record whose short name is [s]. *)
Definition last_with_short_name (infos : list APIRecord) (s : text) (i : nat)
  : Prop :=
  (∃ info, infos !! i = Some info ∧ short_name_of info = s)
  ∧ ∀ j info', infos !! j = Some info' → short_name_of info' = s → j ≤ i.

Lemma class_map_keys_NoDup infos : NoDup (class_map infos).*1.
Proof.
  induction infos as [|info infos IH] using rev_ind.
  - apply NoDup_nil_2.
  - rewrite class_map_snoc. by apply dict_set_keys_NoDup.
Qed.

Lemma class_map_get infos s i :
  dict_get s (class_map infos) = Some i ↔ last_with_short_name infos s i.
Proof.
  revert i. induction infos as [|info infos IH] using rev_ind; intros i.
  - split; [done|]. by intros [(info & ? & _) _].
  - rewrite class_map_snoc.
    destruct (decide (short_name_of info = s)) as [<-|Hne].
    + rewrite dict_get_set_eq. split.
      * intros [= <-]. split.
        -- exists info. split; [|done]. by rewrite list_lookup_middle.
        -- intros j info' Hj _. apply lookup_lt_Some in Hj.
           rewrite length_app in Hj. simpl in Hj. lia.
      * intros [(info0 & Hi & _) Hlast]. f_equal.
        apply lookup_lt_Some in Hi. rewrite length_app in Hi. simpl in Hi.
        specialize (Hlast (length infos) info).
        rewrite list_lookup_middle in Hlast by done.
        specialize (Hlast eq_refl eq_refl). lia.
    + rewrite dict_get_set_ne by done. rewrite IH. split.
      * intros [(info0 & Hi & Hs) Hlast]. split.
        -- exists info0. split; [|done]. by apply lookup_app_l_Some.
        -- intros j info' Hj Hs'.
           apply lookup_app_Some in Hj as [Hj|[_ Hj]]; [by eapply Hlast|].
           apply list_lookup_singleton_Some in Hj as [_ <-]. done.
      * intros [(info0 & Hi & Hs) Hlast].
        apply lookup_app_Some in Hi as [Hi|[_ Hi]].
        -- split; [by exists info0|]. intros j info' Hj Hs'.
           eapply Hlast; [|done]. by apply lookup_app_l_Some.
        -- apply list_lookup_singleton_Some in Hi as [_ <-]. done.
Qed.

Lemma class_map_elem infos s i :
  (s, i) ∈ class_map infos ↔ last_with_short_name infos s i.
Proof.
  rewrite <- class_map_get. apply dict_elem_get, class_map_keys_NoDup.
Qed.

Lemma class_map_values_inj infos s s' i :
  (s, i) ∈ class_map infos → (s', i) ∈ class_map infos → s = s'.
Proof.
  rewrite !class_map_elem.
  intros [(info & Hi & <-) _] [(info' & Hi' & <-) _]. congruence.
Qed.

Lemma class_map_frame infos infos' :
  frame <$> infos = frame <$> infos' → class_map infos = class_map infos'.
Proof.
  intros Hf. apply class_map_from_short_names.
  assert (∀ l, short_name_of <$> l
               = (λ f, default [] (last (str_split chr_dot f.1.1.1))) <$> (frame <$> l))
    as Hs by (intros l; by rewrite <- list_fmap_compose).
  by rewrite !Hs, Hf.
Qed.

(** ** The linking phase as one run *)

(** Every code block collected, over all documents. *)
Definition collected_code (b : JSONDataBuilder) : list text :=
  doc ← all_code_blocks b; doc.2.

Definition steps_of (b : JSONDataBuilder) : list step :=
  steps (class_map (all_api_classes b)) (all_code_blocks b).

Lemma elem_of_steps_of b (a : step) :
  a ∈ steps_of b
  ↔ a.1 ∈ collected_code b ∧ a.2 ∈ class_map (all_api_classes b).
Proof.
  unfold steps_of, steps, collected_code. destruct a as [code entry]. simpl.
  rewrite !list_elem_of_bind. split.
  - intros (doc & Hin & Hdoc). apply list_elem_of_bind in Hin as (c & Hin & Hc).
    apply list_elem_of_fmap in Hin as (e & [= -> ->] & He).
    split; [by exists doc | done].
  - intros [(doc & Hc & Hdoc) He]. exists doc. split; [|done].
    apply list_elem_of_bind. exists code. split; [|done].
    apply list_elem_of_fmap. by exists entry.
Qed.

Lemma link_Done b linked :
  link b = Done linked
  ↔ linked = foldl apply_step (all_api_classes b) (steps_of b)
    ∧ Forall (λ a, ∃ found, verdict a = Done found) (steps_of b).
Proof.
  unfold link. rewrite link_document_steps. split.
  - apply for_each_steps_Done.
  - intros [-> Hok]. by apply for_each_steps_total.
Qed.

Lemma finish_Done b b' out :
  finish b = Done (b', out)
  ↔ link b = Done (all_api_classes b')
    ∧ all_code_blocks b' = all_code_blocks b
    ∧ out = json_dump (all_api_classes b').
Proof.
  unfold finish. destruct (link b) as [linked|e]; simpl.
  - split.
    + intros [= <- <-]. done.
    + intros ([= ->] & Hb & ->). destruct b'. simpl in *. by subst.
  - split; [done | by intros [? _]].
Qed.

Lemma class_map_short_name b s k :
  (s, k) ∈ class_map (all_api_classes b) →
  ∃ info, all_api_classes b !! k = Some info ∧ short_name_of info = s.
Proof. intros [Hk _]%class_map_elem. done. Qed.

(** The names of the lookup are plain when the short names of the
    records are. *)
Definition plain_names (b : JSONDataBuilder) : Prop :=
  Forall (λ info, plain_name (short_name_of info) = true) (all_api_classes b).

Lemma plain_names_verdicts b :
  plain_names b → Forall (λ a, ∃ found, verdict a = Done found) (steps_of b).
Proof.
  intros Hp. apply Forall_forall. intros [code [s k]] [_ Hin]%elem_of_steps_of.
  simpl in Hin. apply class_map_short_name in Hin as (info & Hk & <-).
  unfold verdict. simpl.
  destruct (re_search_word_pattern (short_name_of info) code) as (found & -> & _).
  - eapply (Forall_lookup_1 _ _ _ _ Hp); done.
  - by exists found.
Qed.

Lemma link_total b :
  plain_names b →
  link b = Done (foldl apply_step (all_api_classes b) (steps_of b)).
Proof. intros Hp. apply link_Done. split; [done | by apply plain_names_verdicts]. Qed.

Lemma finish_total b :
  plain_names b →
  ∃ b' out, finish b = Done (b', out).
Proof.
  intros Hp. unfold finish. rewrite link_total by done. simpl. by eexists _, _.
Qed.

Lemma run_untouched l classes k :
  (∀ a, a ∈ l → a.2.2 = k → verdict a ≠ Done true) →
  foldl apply_step classes l !! k = classes !! k.
Proof.
  revert classes. induction l as [|a l IH]; intros classes Hl; simpl; [done|].
  rewrite IH by (intros a' Ha'; apply Hl; by right).
  unfold apply_step. destruct (verdict a) as [[]|] eqn:Hv; try done.
  apply list_lookup_alter_ne. intros Hk. by apply (Hl a); [left|..].
Qed.

(** ** Trees and walks *)

Lemma node_Forall_ind (P : node → Prop) :
  (∀ s, P (Text s)) →
  (∀ c a cs, Forall P cs → P (Element c a cs)) →
  ∀ n, P n.
Proof.
  intros HText HElement.
  fix IH 1. intros [s | c a cs]; [apply HText|].
  apply HElement. induction cs as [|x cs IHcs]; constructor; [apply IH | apply IHcs].
Qed.

(** The walk of the children of a node at [p], from child [i] on; [D1] is
    the store when the list of children was copied. *)
Fixpoint walk_children {V : Type} `{NodeVisitor V} (D1 : removed) (p : path)
    (i : nat) (cs : list node) (s : V * removed) : V * removed :=
  match cs with
  | [] => s
  | c :: cs' =>
      walk_children D1 p (S i) cs'
        (if bool_decide (p ++ [i] ∈ D1) then s else walkabout (p ++ [i]) c s)
  end.

Lemma walkabout_Text {V : Type} `{NodeVisitor V} p t (s : V * removed) :
  walkabout p (Text t) s
  = (let s1 := dispatch_visit s.2 p (Text t) s.1 in
     dispatch_departure s1.2 p (Text t) s1.1).
Proof. done. Qed.

Lemma walkabout_Element {V : Type} `{NodeVisitor V} p c a cs (s : V * removed) :
  walkabout p (Element c a cs) s
  = (let s1 := dispatch_visit s.2 p (Element c a cs) s.1 in
     let s2 := walk_children s1.2 p 0 cs s1 in
     dispatch_departure s2.2 p (Element c a cs) s2.1).
Proof.
  cbn [walkabout]. cbv zeta.
  set (s1 := dispatch_visit s.2 p (Element c a cs) s.1). clearbody s1.
  match goal with
  | |- context [?f 0 cs s1] =>
      assert (∀ i s0, f i cs s0 = walk_children s1.2 p i cs s0) as ->; [|done]
  end.
  induction cs as [|x cs IH]; intros i s0; [done|]. simpl. apply IH.
Qed.

(** What [traverse] lists below a node at [p], from child [i] on. *)
Fixpoint traverse_below (D : removed) (p : path) (i : nat) (cs : list node)
  : list (path * node) :=
  match cs with
  | [] => []
  | c :: cs' =>
      (if bool_decide (p ++ [i] ∈ D) then [] else traverse D (p ++ [i]) c)
      ++ traverse_below D p (S i) cs'
  end.

Lemma traverse_Element D p c a cs :
  traverse D p (Element c a cs)
  = (p, Element c a cs) :: traverse_below D p 0 cs.
Proof.
  cbn [traverse]. f_equal.
  match goal with
  | |- ?f 0 cs = _ =>
      assert (∀ i, f i cs = traverse_below D p i cs) as ->; [|done]
  end.
  induction cs as [|x cs IH]; intros i; [done|]. simpl. by rewrite IH.
Qed.

(** A property of the visitor and the store that every visit and every
    departure keeps is kept by a walk. *)
Lemma walkabout_invariant {V : Type} `{NodeVisitor V} (P : V * removed → Prop) :
  (∀ D p n v, P (v, D) → P (dispatch_visit D p n v)) →
  (∀ D p n v, P (v, D) → P (dispatch_departure D p n v)) →
  ∀ n p s, P s → P (walkabout p n s).
Proof.
  intros Hvisit Hdepart.
  induction n as [t | c a cs IH] using node_Forall_ind; intros p [v D] Hs.
  - rewrite walkabout_Text. simpl.
    destruct (dispatch_visit D p (Text t) v) as [v1 D1] eqn:H1. simpl.
    apply Hdepart. rewrite <- H1. by apply Hvisit.
  - rewrite walkabout_Element. simpl.
    destruct (dispatch_visit D p (Element c a cs) v) as [v1 D1] eqn:H1.
    assert (P (v1, D1)) as Hs1 by (rewrite <- H1; by apply Hvisit).
    simpl.
    assert (∀ i s0, P s0 → P (walk_children D1 p i cs s0)) as Hchildren.
    { clear -IH. induction IH as [|x cs Hx _ IHcs]; intros i s0 Hs0; [done|].
      simpl. apply IHcs. case_bool_decide; [done | by apply Hx]. }
    specialize (Hchildren 0 _ Hs1).
    destruct (walk_children D1 p 0 cs (v1, D1)) as [v2 D2]. simpl.
    by apply Hdepart.
Qed.

(** ** The API visitor: what a walk does to [data] *)

(** A record but for its parameters. *)
Definition outline (info : APIRecord) : text * text * text * list text :=
  (class_name info, signature info, description info, examples info).

(** The records a visitor appends on entering a node: one for a class
    description that has a signature, none otherwise. *)
Definition record_at (D : removed) (p : path) (n : node) : list APIRecord :=
  data (dispatch_visit D p n new_api_visitor).1.

Lemma outline_alter_parameters (f : list ParameterRecord → list ParameterRecord)
    cur (l : list APIRecord) :
  outline <$> alter (λ info, with_parameters info (f (parameters info))) cur l
  = outline <$> l.
Proof.
  apply list_eq. intros i. rewrite !list_lookup_fmap.
  destruct (decide (i = cur)) as [->|Hne].
  - rewrite list_lookup_alter_eq. by destruct (l !! cur).
  - by rewrite list_lookup_alter_ne.
Qed.

Lemma visit_list_item_outline cur s item :
  outline <$> data (visit_list_item cur s item).1 = outline <$> data s.1
  ∧ current_class (visit_list_item cur s item).1 = current_class s.1.
Proof.
  unfold visit_list_item.
  destruct (first_instance k_paragraph s.2 item.1 item.2) as [[pp para]|];
    [|done].
  destruct (first_instance k_strong s.2 pp para) as [[sp sn]|]; simpl.
  - destruct (astext s.2 sp sn); simpl; [done|].
    split; [|done].
    apply (outline_alter_parameters (λ ps, ps ++ [_])).
  - done.
Qed.

Lemma visit_field_outline D p n self :
  outline <$> data (visit_field D p n self).1 = outline <$> data self
  ∧ current_class (visit_field D p n self).1 = current_class self.
Proof.
  unfold visit_field. destruct (current_class self) as [cur|] eqn:Hcur; [|done].
  destruct (node_children D p n) as [|label [|body [|??]]]; try done.
  destruct (str_contains _ _); [|done].
  generalize (traverse_class k_list_item D body.1 body.2). intros items.
  assert (∀ s, outline <$> data (foldl (visit_list_item cur) s items).1
               = outline <$> data s.1
             ∧ current_class (foldl (visit_list_item cur) s items).1
               = current_class s.1) as Hloop.
  { induction items as [|item items IH]; intros s; simpl; [done|].
    destruct (IH (visit_list_item cur s item)) as [-> ->].
    apply visit_list_item_outline. }
  destruct (Hloop (self, D)) as [-> ->]. done.
Qed.

Lemma visit_desc_data D p n self :
  data (visit_desc D p n self)
  = data self ++ data (visit_desc D p n new_api_visitor).
Proof.
  unfold visit_desc. destruct (is_class_desc n); [|by rewrite app_nil_r].
  destruct (first_instance k_desc_signature D p n) as [[sp sig_node]|]; simpl;
    [done | by rewrite app_nil_r].
Qed.

Lemma dispatch_visit_outline D p n (self : APIDataVisitor) :
  outline <$> data (dispatch_visit D p n self).1
  = outline <$> (data self ++ record_at D p n).
Proof.
  unfold record_at.
  destruct n as [t | [[]|base] a cs]; simpl; try by rewrite app_nil_r.
  - by rewrite visit_desc_data.
  - destruct (visit_field_outline D p (Element (exactly k_field) a cs) self)
      as [-> _].
    by rewrite app_nil_r.
Qed.

Lemma dispatch_departure_data D p n (self : APIDataVisitor) :
  data (dispatch_departure D p n self).1 = data self.
Proof.
  destruct n as [t | [[]|base] a cs]; simpl; try done.
  unfold depart_desc. by destruct (is_class_desc _).
Qed.

Lemma record_at_fresh D p n info :
  info ∈ record_at D p n → parameters info = [] ∧ examples info = [].
Proof.
  unfold record_at.
  destruct n as [t | [[]|base] a cs]; simpl; try by intros ?%elem_of_nil.
  unfold visit_desc. destruct (is_class_desc _); [|by intros ?%elem_of_nil].
  destruct (first_instance k_desc_signature _ _ _) as [[sp sig_node]|]; simpl;
    [|by intros ?%elem_of_nil].
  by intros ->%list_elem_of_singleton.
Qed.

(** The nodes a walk enters, each with the store at that time, come in
    document order, and [data] grows by the records of these nodes, in
    that order. *)
Definition records_of (visits : list (removed * (path * node)))
  : list APIRecord :=
  v ← visits; record_at v.1 v.2.1 v.2.2.

Lemma records_of_cons v visits :
  records_of (v :: visits) = record_at v.1 v.2.1 v.2.2 ++ records_of visits.
Proof. done. Qed.

Lemma records_of_singleton v : records_of [v] = record_at v.1 v.2.1 v.2.2.
Proof. unfold records_of. by rewrite bind_singleton. Qed.

Lemma records_of_app visits1 visits2 :
  records_of (visits1 ++ visits2) = records_of visits1 ++ records_of visits2.
Proof. apply bind_app. Qed.

Lemma walkabout_records n p (s : APIDataVisitor * removed) :
  ∃ visits : list (removed * (path * node)),
    visits.*2 `sublist_of` traverse ∅ p n
    ∧ outline <$> data (walkabout p n s).1
      = outline <$> (data s.1 ++ records_of visits).
Proof.
  revert p s. induction n as [t | c a cs IH] using node_Forall_ind; intros p s.
  - exists [(s.2, (p, Text t))]. split; [done|].
    rewrite walkabout_Text. cbv zeta.
    rewrite dispatch_departure_data, dispatch_visit_outline.
    by rewrite records_of_singleton.
  - rewrite walkabout_Element. cbv zeta.
    set (s1 := dispatch_visit s.2 p (Element c a cs) s.1).
    assert (∀ D1 i s0, ∃ visits : list (removed * (path * node)),
      visits.*2 `sublist_of` traverse_below ∅ p i cs
      ∧ outline <$> data (walk_children D1 p i cs s0).1
        = outline <$> (data s0.1 ++ records_of visits)) as Hchildren.
    { clear -IH. intros D1.
      induction IH as [|x cs Hx _ IHcs]; intros i s0.
      - exists []. split; [done|]. by rewrite app_nil_r.
      - cbn [walk_children traverse_below].
        rewrite (bool_decide_eq_false_2 (p ++ [i] ∈ (∅ : removed)))
          by set_solver.
        case_bool_decide.
        + destruct (IHcs (S i) s0) as (visits & Hsub & Hdata).
          exists visits. split; [by apply sublist_inserts_l | done].
        + destruct (Hx (p ++ [i]) s0) as (visits1 & Hsub1 & Hdata1).
          destruct (IHcs (S i) (walkabout (p ++ [i]) x s0))
            as (visits2 & Hsub2 & Hdata2).
          exists (visits1 ++ visits2). split.
          * rewrite fmap_app. by apply sublist_app.
          * rewrite Hdata2, records_of_app, !fmap_app, Hdata1, !fmap_app.
            by rewrite <- app_assoc. }
    destruct (Hchildren s1.2 0 s1) as (visits & Hsub & Hdata).
    exists ((s.2, (p, Element c a cs)) :: visits). split.
    + rewrite traverse_Element. csimpl. by apply sublist_skip.
    + rewrite dispatch_departure_data, Hdata. subst s1.
      rewrite records_of_cons, !fmap_app, dispatch_visit_outline, !fmap_app.
      by rewrite <- app_assoc.
Qed.

Lemma records_of_fresh visits info :
  info ∈ records_of visits → parameters info = [] ∧ examples info = [].
Proof.
  unfold records_of. intros (v & Hin & _)%list_elem_of_bind.
  by eapply record_at_fresh.
Qed.

(** ** Collection *)

(** The records the API visitor finds in one document. *)
Definition api_records (doctree : node) : list APIRecord :=
  data (walkabout [] doctree (new_api_visitor, ∅)).1.

Lemma api_records_examples doctree :
  Forall (λ info, examples info = []) (api_records doctree).
Proof.
  unfold api_records.
  destruct (walkabout_records doctree [] (new_api_visitor, ∅))
    as (visits & _ & Hdata).
  simpl in Hdata. apply Forall_lookup. intros i info Hi.
  assert ((outline <$> data (walkabout [] doctree (new_api_visitor, ∅)).1) !! i
          = Some (outline info)) as Ho by (by rewrite list_lookup_fmap, Hi).
  rewrite Hdata, list_lookup_fmap in Ho.
  destruct (records_of visits !! i) as [info'|] eqn:Hi'; [|done].
  simpl in Ho. injection Ho as _ _ _ Hex. rewrite <- Hex.
  eapply records_of_fresh, list_elem_of_lookup_2, Hi'.
Qed.

Lemma write_doc_api_classes docname doctree self :
  all_api_classes (write_doc docname doctree self)
  = all_api_classes self
    ++ (if is_reference_document docname then api_records doctree else []).
Proof.
  unfold write_doc, api_records.
  destruct (is_reference_document docname); simpl.
  - destruct (data (walkabout [] doctree (new_api_visitor, ∅)).1) eqn:Hd;
      simpl; rewrite ?app_nil_r;
      destruct (is_example_document docname); simpl; try done.
    all: by destruct (code_blocks _).
  - rewrite app_nil_r.
    destruct (is_example_document docname); simpl; try done.
    by destruct (code_blocks _).
Qed.

Lemma foldl_write_doc_api_classes docs self :
  all_api_classes (foldl (λ self doc, write_doc doc.1 doc.2 self) self docs)
  = all_api_classes self
    ++ (doc ← docs;
        if is_reference_document doc.1 then api_records doc.2 else []).
Proof.
  revert self. induction docs as [|doc docs IH]; intros self; csimpl.
  - by rewrite app_nil_r.
  - by rewrite IH, write_doc_api_classes, <- app_assoc.
Qed.

Lemma collect_api_classes docs :
  all_api_classes (collect docs)
  = doc ← docs; if is_reference_document doc.1 then api_records doc.2 else [].
Proof. unfold collect. by rewrite foldl_write_doc_api_classes. Qed.

Lemma collect_examples docs :
  Forall (λ info, examples info = []) (all_api_classes (collect docs)).
Proof.
  rewrite collect_api_classes. apply Forall_bind, Forall_forall.
  intros doc _. simpl. case_match; [|by constructor].
  apply api_records_examples.
Qed.

(** ** Strings, as the claims speak of them *)

(** [s] contains the token [sub]. *)
Definition has_token (sub s : text) : Prop := ∃ pre post, s = pre ++ sub ++ post.

Lemma str_contains_spec sub s : str_contains sub s = true ↔ has_token sub s.
Proof.
  unfold has_token. induction s as [|c s IH]; simpl.
  - rewrite orb_false_r, is_prefix_spec. split.
    + intros [post ->]. by exists [], post.
    + intros (pre & post & Heq). symmetry in Heq.
      apply app_eq_nil in Heq as [-> Heq]. by exists post.
  - rewrite orb_true_iff, is_prefix_spec, IH. split.
    + intros [[post ->] | (pre & post & ->)].
      * by exists [], post.
      * by exists (c :: pre), post.
    + intros ([|d pre] & post & Heq).
      * left. by exists post.
      * right. injection Heq as -> ->. by exists pre, post.
Qed.

Lemma str_find_from_absent c s i : c ∉ s → str_find_from [c] s i = (-1)%Z.
Proof.
  revert i. induction s as [|d s IH]; intros i Hc; simpl; [done|].
  apply not_elem_of_cons in Hc as [Hne Hc].
  rewrite bool_decide_eq_false_2 by done. simpl. by apply IH.
Qed.

Lemma str_find_from_first c before after i :
  c ∉ before →
  str_find_from [c] (before ++ c :: after) i = (i + Z.of_nat (length before))%Z.
Proof.
  revert i. induction before as [|d before IH]; intros i Hc; simpl.
  - rewrite bool_decide_eq_true_2 by done. simpl. lia.
  - apply not_elem_of_cons in Hc as [Hne Hc].
    rewrite bool_decide_eq_false_2 by done. simpl. rewrite IH by done. lia.
Qed.

(** [r] is [t] without the white space at its two ends. *)
Definition no_space_at_ends (r : text) : Prop :=
  (∀ c, head r = Some c → is_space c = false)
  ∧ (∀ c, last r = Some c → is_space c = false).

Definition trimmed (t r : text) : Prop :=
  ∃ l1 l2, t = l1 ++ r ++ l2
    ∧ Forall (λ c, is_space c = true) l1
    ∧ Forall (λ c, is_space c = true) l2
    ∧ no_space_at_ends r.

Lemma lstrip_spec t :
  ∃ l1, t = l1 ++ lstrip t
    ∧ Forall (λ c, is_space c = true) l1
    ∧ ∀ c, head (lstrip t) = Some c → is_space c = false.
Proof.
  induction t as [|c t (l1 & Heq & Hl1 & Hhead)]; simpl.
  - by exists [].
  - destruct (is_space c) eqn:Hc.
    + exists (c :: l1). split_and!; [by rewrite Heq at 1 | by constructor | done].
    + exists []. split_and!; [done | done |]. simpl. by intros ? [= <-].
Qed.

Lemma rstrip_spec t :
  ∃ l2, t = rstrip t ++ l2
    ∧ Forall (λ c, is_space c = true) l2
    ∧ ∀ c, last (rstrip t) = Some c → is_space c = false.
Proof.
  unfold rstrip. destruct (lstrip_spec (reverse t)) as (l1 & Heq & Hl1 & Hhead).
  exists (reverse l1). split_and!.
  - rewrite <- reverse_app, <- Heq. by rewrite reverse_involutive.
  - by apply Forall_reverse.
  - intros c. rewrite last_reverse. apply Hhead.
Qed.

Lemma str_strip_spec t : trimmed t (str_strip t).
Proof.
  unfold str_strip.
  destruct (lstrip_spec t) as (l1 & Heq1 & Hl1 & Hhead).
  destruct (rstrip_spec (lstrip t)) as (l2 & Heq2 & Hl2 & Hlast).
  exists l1, l2. split_and!; [by rewrite <- Heq2 | done | done |].
  split; [|done]. intros c Hc. apply Hhead.
  rewrite Heq2. destruct (rstrip (lstrip t)); [done|]. done.
Qed.

(** The description of a parameter: what follows the first dash of the
    text, trimmed; nothing when the text holds no dash. *)
Definition description_of (full_text desc : text) : Prop :=
  ((chr_en_dash ∉ full_text) ∧ desc = [])
  ∨ (∃ before after, full_text = before ++ chr_en_dash :: after
       ∧ (chr_en_dash ∉ before) ∧ trimmed after desc).

Lemma split_at_first (c : char) (t : text) :
  c ∈ t → ∃ before after, t = before ++ c :: after ∧ c ∉ before.
Proof.
  induction t as [|d t IH]; [by intros ?%elem_of_nil|].
  destruct (decide (c = d)) as [->|Hne].
  - intros _. exists [], t. split; [done | by apply not_elem_of_nil].
  - intros [?|Hin]%elem_of_cons; [done|].
    destruct (IH Hin) as (before & after & -> & Hb).
    exists (d :: before), after. split; [done|].
    by apply not_elem_of_cons.
Qed.

Lemma description_spec full_text :
  description_of full_text
    (if bool_decide (str_find [chr_en_dash] full_text ≠ (-1)%Z)
     then str_strip (slice_from (str_find [chr_en_dash] full_text + 1) full_text)
     else []).
Proof.
  unfold str_find.
  destruct (decide (chr_en_dash ∈ full_text)) as [Hin|Hnot].
  - apply split_at_first in Hin as (before & after & -> & Hb).
    rewrite str_find_from_first by done.
    rewrite bool_decide_eq_true_2 by lia.
    right. exists before, after. split_and!; [done | done |].
    unfold slice_from.
    replace (Z.to_nat (0 + Z.of_nat (length before) + 1)) with (S (length before))
      by lia.
    rewrite (cons_middle chr_en_dash before after), app_assoc.
    rewrite drop_app_length' by (rewrite length_app; simpl; lia).
    apply str_strip_spec.
  - rewrite str_find_from_absent by done.
    rewrite bool_decide_eq_false_2 by (intros H; by apply H).
    by left.
Qed.

(** ** Splitting at a separator, and the suffix of a path *)

Lemma str_split_cons_inv (sep : char) (s : text) :
  ∃ seg segs, str_split sep s = seg :: segs.
Proof.
  tidy. destruct s as [|c s]; simpl; [by eexists _, _|].
  case_bool_decide; [by eexists _, _|].
  destruct (str_split sep s); by eexists _, _.
Qed.

(** [sep.join(s.split(sep))] is [s]. *)
Lemma str_join_split (sep : char) (s : text) :
  str_join [sep] (str_split sep s) = s.
Proof.
  tidy. induction s as [|c s IH]; [done|].
  destruct (str_split_cons_inv sep s) as (seg & segs & Hsplit).
  cbn [str_split]. rewrite Hsplit in *. case_bool_decide as Hc.
  - subst c.
    change (str_join [sep] ([] :: seg :: segs))
      with ([] ++ [sep] ++ str_join [sep] (seg :: segs)).
    by rewrite IH.
  - destruct segs as [|seg' segs]; simpl in *; by rewrite <- IH.
Qed.

(** What follows the last separator is the last piece. *)
Lemma str_split_snoc (sep : char) (dir name : text) :
  sep ∉ name →
  str_split sep name = [name]
  ∧ str_split sep (dir ++ sep :: name) = str_split sep dir ++ [name].
Proof.
  tidy. intros Hname.
  assert (str_split sep name = [name]) as Hlast.
  { induction name as [|c name IH]; [done|].
    apply not_elem_of_cons in Hname as [Hc Hname]. simpl.
    rewrite bool_decide_eq_false_2 by done. by rewrite IH. }
  split; [done|].
  induction dir as [|c dir IH]; simpl.
  - rewrite bool_decide_eq_true_2 by done. by rewrite Hlast.
  - rewrite IH. case_bool_decide; [done|].
    by destruct (str_split_cons_inv sep dir) as (seg & segs & ->).
Qed.

Lemma str_join_head (sep : text) (t : text) (ts : list text) :
  ∃ rest, str_join sep (t :: ts) = t ++ rest.
Proof.
  tidy. destruct ts as [|t' ts]; simpl; [exists []; by rewrite app_nil_r|].
  by eexists.
Qed.

(** Two pieces that follow each other are joined by the separator in
    the text. *)
Lemma str_join_neighbours (sep : char) (before : list text) (a b : text)
    (after : list text) :
  has_token (a ++ sep :: b) (str_join [sep] (before ++ a :: b :: after)).
Proof.
  tidy. induction before as [|x before (pre & post & IH)].
  - destruct (str_join_head [sep] b after) as [rest Hrest].
    exists [], rest.
    change (str_join [sep] ([] ++ a :: b :: after))
      with (a ++ [sep] ++ str_join [sep] (b :: after)).
    rewrite Hrest. simpl. by rewrite <- !app_assoc.
  - exists (x ++ sep :: pre), post.
    change ((x :: before) ++ a :: b :: after)
      with (x :: (before ++ a :: b :: after)).
    destruct (before ++ a :: b :: after) as [|y ys] eqn:Hrest;
      [by destruct before|].
    change (str_join [sep] (x :: y :: ys))
      with (x ++ [sep] ++ str_join [sep] (y :: ys)).
    rewrite IH. simpl. by rewrite <- !app_assoc.
Qed.

Lemma str_rfind_from_absent (c : char) (s : text) (i best : Z) :
  c ∉ s → str_rfind_from c s i best = best.
Proof.
  tidy. revert i. induction s as [|d s IH]; intros i Hc; [done|].
  apply not_elem_of_cons in Hc as [Hd Hc]. simpl.
  rewrite bool_decide_eq_false_2 by done. by apply IH.
Qed.

(** [s.rfind(c)] is the place of the last [c]. *)
Lemma str_rfind_from_last (c : char) (s1 s2 : text) (i best : Z) :
  c ∉ s2 →
  str_rfind_from c (s1 ++ c :: s2) i best = (i + Z.of_nat (length s1))%Z.
Proof.
  tidy. intros Hc. revert i best.
  induction s1 as [|d s1 IH]; intros i best; simpl.
  - rewrite bool_decide_eq_true_2 by done.
    rewrite str_rfind_from_absent by done. lia.
  - rewrite IH. lia.
Qed.

(** The suffix of a path is [.ext] exactly when the name of the path is
    a stem that is not empty followed by [.ext]. *)
Lemma path_suffix_spec (p ext : text) :
  chr_dot ∉ ext → ext ≠ [] →
  path_suffix p = chr_dot :: ext
  ↔ ∃ stem, stem ≠ [] ∧ path_name p = stem ++ chr_dot :: ext.
Proof.
  tidy. intros Hdot Hext. unfold path_suffix.
  generalize (path_name p). intros name. split.
  - case_bool_decide as Hi; [|done]. unfold slice_from. intros Hdrop.
    exists (take (Z.to_nat (str_rfind chr_dot name)) name). split.
    + intros Htake. apply (f_equal length) in Htake.
      apply (f_equal length) in Hdrop.
      rewrite length_take in Htake. rewrite length_drop in Hdrop.
      simpl in *. lia.
    + by rewrite <- Hdrop, take_drop.
  - intros (stem & Hstem & ->). unfold str_rfind.
    rewrite str_rfind_from_last by done.
    rewrite bool_decide_eq_true_2.
    + unfold slice_from. rewrite Z.add_0_l, Nat2Z.id.
      by rewrite drop_app_length.
    + rewrite length_app. simpl.
      destruct stem; [done|]. destruct ext; [done|]. simpl. lia.
Qed.

(** The name of a path is what follows its last slash. *)
Lemma path_name_spec (dir name : text) :
  chr_slash ∉ name → name ≠ [] → name ≠ [chr_dot] →
  path_name name = name ∧ path_name (dir ++ chr_slash :: name) = name.
Proof.
  tidy. intros Hslash Hne Hdot. unfold path_name.
  destruct (str_split_snoc chr_slash dir name Hslash) as [-> ->].
  rewrite filter_app. cbn [filter list_filter].
  destruct (decide _) as [_ | Hno]; [|by destruct Hno].
  split; [reflexivity | by rewrite last_snoc].
Qed.

(** ** Names that are words

    The classes of the documentation are known by dotted Python names, so
    that a short name is a run of word characters (letters, digits and
    the underscore) that is not empty. *)

Lemma is_word_not_special (c : char) : is_word c = true → is_special c = false.
Proof.
  intros Hword. unfold is_special. apply bool_decide_eq_false_2. intros Hc.
  unfold special_chars in Hc.
  repeat (apply elem_of_cons in Hc as [-> | Hc]; [by vm_compute in Hword|]).
  by apply elem_of_nil in Hc.
Qed.

Lemma word_name_plain (s : text) : forallb is_word s = true → plain_name s = true.
Proof.
  unfold plain_name. induction s as [|c s IH]; simpl; [done|].
  intros [Hc Hs]%andb_prop. by rewrite (is_word_not_special c Hc), IH.
Qed.

Definition word_name (s : text) : Prop :=
  s ≠ [] ∧ forallb is_word s = true.

Definition word_names (b : JSONDataBuilder) : Prop :=
  Forall (λ info, word_name (short_name_of info)) (all_api_classes b).

Lemma word_names_plain (b : JSONDataBuilder) : word_names b → plain_names b.
Proof.
  intros Hb. eapply Forall_impl; [exact Hb|].
  intros info [_ Hword]. by apply word_name_plain.
Qed.

(** The name occurs in the text with no word character right before it
    and none right after it. *)
Definition occurs_as_whole_word (short_name code : text) : Prop :=
  ∃ pre post, code = pre ++ short_name ++ post
    ∧ is_word_opt (last pre) = false
    ∧ is_word_opt (head post) = false.

(** For a name made of word characters, a word boundary on each side is
    an end of the text or a character that is no word character. *)
Lemma word_name_occurs (s code : text) :
  word_name s → occurs_as_word s code ↔ occurs_as_whole_word s code.
Proof.
  intros [Hne Hword].
  assert (is_word_opt (head s) = true) as Hhead.
  { destruct s as [|c s]; [done|]. simpl in *.
    by apply andb_prop in Hword as [-> _]. }
  assert (is_word_opt (last s) = true) as Hlast.
  { destruct (last s) as [c|] eqn:Hc; [|by apply last_None in Hc].
    apply last_Some_elem_of in Hc. simpl.
    apply Is_true_true, forallb_True in Hword.
    rewrite Forall_forall in Hword. by apply Is_true_true, Hword. }
  assert (∀ pre post,
            (word_boundary pre (s ++ post) ∧ word_boundary (pre ++ s) post)
            ↔ (is_word_opt (last pre) = false
               ∧ is_word_opt (head post) = false)) as Hsides.
  { intros pre post. unfold word_boundary.
    assert (head (s ++ post) = head s) as -> by (by destruct s).
    assert (last (pre ++ s) = last s) as ->.
    { rewrite last_app. destruct (last s) eqn:Hc; [done|].
      by apply last_None in Hc. }
    rewrite Hhead, Hlast.
    destruct (is_word_opt (last pre)), (is_word_opt (head post));
      split; intros [? ?]; done. }
  unfold occurs_as_word, occurs_as_whole_word.
  split; intros (pre & post & -> & Hpost); exists pre, post;
    (split; [done | by apply Hsides]).
Qed.

(** The occurrences of a name in a text are found at the places of the
    text where the name starts. *)
Lemma occurrences_at (s code : text) (P : text → text → Prop) :
  (∀ i, i ≤ length code → is_prefix s (drop i code) = true →
        P (take i code) (drop (i + length s) code)) →
  ∀ pre post, code = pre ++ s ++ post → P pre post.
Proof.
  tidy. intros Hat pre post ->. specialize (Hat (length pre)).
  rewrite take_app_length, drop_app_length, is_prefix_app in Hat.
  rewrite (app_assoc pre s post), <- length_app, drop_app_length in Hat.
  apply Hat; [|done]. rewrite !length_app. lia.
Qed.

(** ** The linker *)

(** For short names that hold no character special in a regular
    expression, the linking phase returns, and for every entry (short
    name, record) of the lookup and every text: the text is among the
    examples of the record after linking exactly when it was there before
    or it is a collected code block in which the short name occurs with a
    word boundary on each side. *)
Lemma link_plain_names (b : JSONDataBuilder) :
  plain_names b →
  ∃ linked, link b = Done linked ∧
    ∀ short_name k code,
      (short_name, k) ∈ class_map (all_api_classes b) →
      (code ∈ examples_at linked k
       ↔ code ∈ examples_at (all_api_classes b) k
         ∨ (code ∈ collected_code b ∧ occurs_as_word short_name code)).
Proof.
  intros Hp. eexists. split; [by apply link_total|].
  intros s k code Hin. rewrite run_examples.
  apply class_map_short_name in Hin as Hk. destruct Hk as (info & Hk & Hs).
  assert (plain_name s = true) as Hplain.
  { subst s. by eapply (Forall_lookup_1 _ _ _ _ Hp). }
  destruct (re_search_word_pattern s code Hplain) as (found & Hv & Hfound).
  split; (intros [?|H]; [by left|right]).
  - destruct H as ([code' [s' k']] & [Hc He]%elem_of_steps_of & Hva & ? & ? & _).
    simpl in *. subst k' code'.
    assert (s' = s) as -> by (by eapply class_map_values_inj).
    split; [done|]. apply Hfound. unfold verdict in Hva. simpl in Hva. congruence.
  - destruct H as [Hc Hocc]. exists (code, (s, k)). split_and!; try done.
    + by apply elem_of_steps_of.
    + unfold verdict. simpl. rewrite Hv. f_equal. by apply Hfound.
    + by eapply lookup_lt_Some.
Qed.

(** C1.  The classes being known by Python names, their short names are
    runs of word characters.  The linking phase then returns, and for
    every entry (short name, record) of the lookup and every text: the
    text is among the examples of the record after linking exactly when
    it was there before or it is a collected code block in which the short
    name occurs with a word boundary on each side; the name occurs so
    exactly when it stands in the block, letter for letter, with no word
    character right before it and none right after it.  A block in which
    the name occurs only inside longer identifiers, each occurrence having
    a word character right before or right after it, is not linked to the
    record. *)
Theorem link_whole_word_occurrences (b : JSONDataBuilder) :
  word_names b →
  ∃ linked, link b = Done linked ∧
    ∀ short_name k code,
      (short_name, k) ∈ class_map (all_api_classes b) →
      (code ∈ examples_at linked k
       ↔ code ∈ examples_at (all_api_classes b) k
         ∨ (code ∈ collected_code b ∧ occurs_as_word short_name code))
      ∧ (occurs_as_word short_name code
         ↔ occurs_as_whole_word short_name code)
      ∧ ((∀ pre post,
            code = pre ++ short_name ++ post →
            is_word_opt (last pre) = true ∨ is_word_opt (head post) = true) →
         code ∉ examples_at (all_api_classes b) k →
         code ∉ examples_at linked k).
Proof.
  intros Hwords.
  destruct (link_plain_names b (word_names_plain b Hwords))
    as (linked & Hlink & Hlinked).
  exists linked. split; [done|]. intros short_name k code Hentry.
  assert (word_name short_name) as Hname.
  { apply class_map_short_name in Hentry as (info & Hk & <-).
    by eapply (Forall_lookup_1 _ _ _ _ Hwords). }
  pose proof (word_name_occurs short_name code Hname) as Hwhole.
  split_and!; [by apply Hlinked | done |].
  intros Hinside Hbefore Hafter.
  apply (Hlinked short_name k code Hentry) in Hafter as [Hin | [_ Hocc]];
    [done|].
  apply Hwhole in Hocc as (pre & post & Hcode & Hpre & Hpost).
  destruct (Hinside pre post Hcode); congruence.
Qed.

Lemma finish_keeps_NoDup (b b' : JSONDataBuilder) (out : json) :
  Forall (λ info, NoDup (examples info)) (all_api_classes b) →
  finish b = Done (b', out) →
  Forall (λ info, NoDup (examples info)) (all_api_classes b').
Proof.
  intros Hnd (Hl & _)%finish_Done. apply link_Done in Hl as [-> _].
  by apply run_NoDup.
Qed.

(** C2.  After the linking phase of a build, no record holds the same
    example twice: the examples of every record are pairwise distinct
    texts, however often its short name occurs in a block and however
    often the same text was collected. *)
Theorem build_examples_NoDup (docs : list (text * node))
    (b' : JSONDataBuilder) (out : json) :
  build docs = Done (b', out) →
  Forall (λ info, NoDup (examples info)) (all_api_classes b').
Proof.
  apply finish_keeps_NoDup.
  eapply Forall_impl; [apply collect_examples|].
  intros info ->. apply NoDup_nil_2.
Qed.

(** C3.  Linking is idempotent: run again on the builder it has left,
    [finish] returns that same builder and writes the same value. *)
Theorem finish_idempotent (b b' : JSONDataBuilder) (out : json) :
  finish b = Done (b', out) → finish b' = Done (b', out).
Proof.
  intros (Hl & Hblocks & ->)%finish_Done. apply finish_Done.
  split_and!; try done.
  apply link_Done in Hl as [Hlinked Hok].
  assert (steps_of b' = steps_of b) as Hsteps.
  { unfold steps_of. rewrite Hblocks. f_equal.
    apply class_map_frame. rewrite Hlinked. apply run_frame. }
  apply link_Done. rewrite Hsteps. split; [|done].
  rewrite Hlinked at 2. by rewrite run_idempotent.
Qed.

(** C4.  When two records share a short name, the lookup keeps for that
    name the last record that bears it, which comes after the earlier
    one; the earlier record is no value of the lookup, and linking leaves
    it as it was, so it gains no example.  The collision is no error:
    with plain short names [finish] returns, collision or not. *)
Theorem class_map_collision (b : JSONDataBuilder) (i j : nat)
    (earlier later : APIRecord) :
  i < j →
  all_api_classes b !! i = Some earlier →
  all_api_classes b !! j = Some later →
  short_name_of earlier = short_name_of later →
  (∃ k, dict_get (short_name_of later) (class_map (all_api_classes b)) = Some k
        ∧ last_with_short_name (all_api_classes b) (short_name_of later) k
        ∧ i < k)
  ∧ (∀ short_name, (short_name, i) ∉ class_map (all_api_classes b))
  ∧ (∀ b' out, finish b = Done (b', out) →
       all_api_classes b' !! i = Some earlier)
  ∧ (plain_names b → ∃ b' out, finish b = Done (b', out)).
Proof.
  intros Hij Hi Hj Hshort.
  assert (∀ s, (s, i) ∉ class_map (all_api_classes b)) as Hnot.
  { intros s [(info & Hi' & Hs) Hlast]%class_map_elem.
    assert (info = earlier) as -> by congruence.
    specialize (Hlast j later Hj). rewrite <- Hs, Hshort in Hlast.
    specialize (Hlast eq_refl). lia. }
  split_and!; [|done|..].
  - assert (short_name_of later ∈ (class_map (all_api_classes b)).*1) as Hkey.
    { clear -Hj. revert j Hj.
      induction (all_api_classes b) as [|info infos IH] using rev_ind;
        intros j Hj; [done|].
      rewrite class_map_snoc, dict_set_keys.
      apply lookup_app_Some in Hj as [Hj|[_ Hj]].
      - specialize (IH _ Hj). case_bool_decide; [done|].
        apply elem_of_app. by left.
      - apply list_lookup_singleton_Some in Hj as [_ ->].
        case_bool_decide; [done|]. apply elem_of_app. right. by left. }
    apply list_elem_of_fmap in Hkey as ([s k] & Hs & Hin). simpl in Hs. subst s.
    exists k. apply class_map_elem in Hin as Hlast.
    split_and!; [by apply class_map_get | done |].
    destruct Hlast as [_ Hlast]. specialize (Hlast j later Hj eq_refl). lia.
  - intros b' out (Hl & _)%finish_Done. apply link_Done in Hl as [-> _].
    rewrite run_untouched; [done|].
    intros [code [s k]] [_ Hin]%elem_of_steps_of Hk. simpl in *. subst k.
    by destruct (Hnot s).
  - apply finish_total.
Qed.



Lemma finish_keeps_frame (b b' : JSONDataBuilder) (out : json) :
  finish b = Done (b', out) →
  frame <$> all_api_classes b' = frame <$> all_api_classes b.
Proof.
  intros (Hl & _)%finish_Done. apply link_Done in Hl as [-> _].
  apply run_frame.
Qed.

(** C8.  Linking changes nothing but examples: after [finish], the
    records are as many as before, in the same order, each with the class
    name, signature, description and parameters it had; the code blocks
    collected are untouched as well. *)
Theorem finish_frame (b b' : JSONDataBuilder) (out : json) :
  finish b = Done (b', out) →
  frame <$> all_api_classes b' = frame <$> all_api_classes b
  ∧ length (all_api_classes b') = length (all_api_classes b)
  ∧ all_code_blocks b' = all_code_blocks b.
Proof.
  intros Hfin. split_and!.
  - by eapply finish_keeps_frame.
  - apply finish_keeps_frame in Hfin.
    by rewrite <- (length_fmap frame), Hfin, length_fmap.
  - by apply finish_Done in Hfin as (_ & ? & _).
Qed.

(** ** The API visitor *)

Lemma first_instance_None k D p n :
  first_instance k D p n = None
  ↔ ∀ pn, pn ∈ traverse D p n → isinstance pn.2 k = false.
Proof.
  unfold first_instance, traverse_class.
  induction (traverse D p n) as [|x l IH].
  - split; [by intros _ ? ?%elem_of_nil | done].
  - rewrite filter_cons. destruct (decide (isinstance x.2 k = true)) as [Hx|Hx].
    + split; [done|]. intros Hall.
      rewrite (Hall x) in Hx by (by left). done.
    + rewrite IH. apply not_true_is_false in Hx. split.
      * intros Hall pn [->|Hin]%elem_of_cons; [done | by apply Hall].
      * intros Hall pn Hin. apply Hall. by right.
Qed.

(** [first_instance] gives the first node, in document order, that is an
    instance of the class. *)
Lemma first_instance_Some k D p n pn :
  first_instance k D p n = Some pn
  ↔ ∃ before after, traverse D p n = before ++ pn :: after
      ∧ isinstance pn.2 k = true
      ∧ Forall (λ x, isinstance x.2 k = false) before.
Proof.
  unfold first_instance, traverse_class.
  induction (traverse D p n) as [|x l IH].
  - split; [done|]. intros (before & after & Heq & _).
    by destruct before.
  - rewrite filter_cons. destruct (decide (isinstance x.2 k = true)) as [Hx|Hx].
    + simpl. split.
      * intros [= ->]. exists [], l. split_and!; [done | done | constructor].
      * intros ([|y before] & after & Heq & Hpn & Hbefore).
        -- by injection Heq as ->.
        -- injection Heq as -> _. apply Forall_cons in Hbefore as [Hy _].
           congruence.
    + rewrite IH. apply not_true_is_false in Hx. split.
      * intros (before & after & -> & Hpn & Hbefore).
        exists (x :: before), after. split_and!; [done | done | by constructor].
      * intros ([|y before] & after & Heq & Hpn & Hbefore).
        -- injection Heq as -> _. congruence.
        -- injection Heq as -> ->. apply Forall_cons in Hbefore as [_ Hbefore].
           by exists before, after.
Qed.

(** The field is one the visitor accepts: it has two children, a label
    whose text contains the token "Parameters" and a body. *)
Definition accepted_field (D : removed) (p : path) (n : node)
    (body : path * node) : Prop :=
  ∃ label, node_children D p n = [label; body]
    ∧ has_token (lit "Parameters") (astext D label.1 label.2).

(** The places of the first strong node and of the first emphasis node
    of a paragraph: the two nodes [visit_field] takes out of it. *)
Definition name_and_type_tags (D : removed) (pp : path) (para : node)
  : list path :=
  (fst <$> option_list (first_instance k_strong D pp para))
  ++ (fst <$> option_list (first_instance k_emphasis D pp para)).

(** The record at [cur] has gained the parameter [q], at the end of
    its parameters: nothing else of it has changed, no other record has
    changed, and the records are as many as before. *)
Definition gains_parameter (cur : nat) (q : ParameterRecord)
    (before after : list APIRecord) : Prop :=
  length after = length before
  ∧ ∀ k info,
      before !! k = Some info →
      ∃ info',
        after !! k = Some info'
        ∧ class_name info' = class_name info
        ∧ signature info' = signature info
        ∧ description info' = description info
        ∧ examples info' = examples info
        ∧ parameters info'
          = if bool_decide (k = cur) then parameters info ++ [q]
            else parameters info.

Lemma append_parameter_gains (cur : nat) (q : ParameterRecord)
    (self : APIDataVisitor) :
  gains_parameter cur q (data self) (data (append_parameter cur q self)).
Proof.
  tidy. unfold append_parameter. simpl. split; [by rewrite length_alter|].
  intros k info Hk. case_bool_decide as Hcur.
  - subst k. rewrite list_lookup_alter_eq, Hk. simpl. by eexists.
  - rewrite list_lookup_alter_ne, Hk by done. by eexists.
Qed.

(** C5.  While a class record is open: a field that has not exactly two
    children, or whose label does not contain the token "Parameters",
    changes nothing; an accepted field goes through the list items of its
    body in order.  A list item without a paragraph changes nothing.  For
    a list item with a paragraph, the name is the text of the first strong
    node of the paragraph (empty when there is none), the type is the text
    of the first emphasis node, or "Any" when there is none, the
    description is what follows the first dash (U+2013) in the text of the
    paragraph without these two nodes, trimmed, and is empty when that
    text has no dash.  When the name is empty nothing is recorded: the
    records stay as they are.  Otherwise the parameter made of the three
    is recorded: the open class has it as the last of its parameters,
    after those it had, and nothing else changes in the records. *)
Theorem visit_field_parameters (D : removed) (p : path) (node : node)
    (self : APIDataVisitor) (cur : nat) :
  current_class self = Some cur →
  ((¬ ∃ body, accepted_field D p node body) →
     visit_field D p node self = (self, D))
  ∧ (∀ body, accepted_field D p node body →
       visit_field D p node self
       = foldl (visit_list_item cur) (self, D)
           (traverse_class k_list_item D body.1 body.2))
  ∧ (∀ s list_item,
       first_instance k_paragraph s.2 list_item.1 list_item.2 = None →
       visit_list_item cur s list_item = s)
  ∧ (∀ s list_item pp para,
       first_instance k_paragraph s.2 list_item.1 list_item.2 = Some (pp, para) →
       ∃ name type_str desc,
         name = match first_instance k_strong s.2 pp para with
                | Some tag => astext s.2 tag.1 tag.2
                | None => []
                end
         ∧ type_str = match first_instance k_emphasis s.2 pp para with
                      | Some tag => astext s.2 tag.1 tag.2
                      | None => lit "Any"
                      end
         ∧ description_of
             (astext (s.2 ∪ list_to_set (name_and_type_tags s.2 pp para)) pp para)
             desc
         ∧ visit_list_item cur s list_item
           = (if bool_decide (name = []) then s.1
              else append_parameter cur
                     {| param_name := name; param_type := type_str;
                        param_description := desc |} s.1,
              s.2 ∪ list_to_set (name_and_type_tags s.2 pp para))
         ∧ current_class (visit_list_item cur s list_item).1
           = current_class s.1
         ∧ (name = [] → data (visit_list_item cur s list_item).1 = data s.1)
         ∧ (name ≠ [] →
            gains_parameter cur
              {| param_name := name; param_type := type_str;
                 param_description := desc |}
              (data s.1) (data (visit_list_item cur s list_item).1))).
Proof.
  intros Hcur. split_and!.
  - intros Hno. unfold visit_field. rewrite Hcur.
    destruct (node_children D p node) as [|label [|body [|??]]] eqn:Hc; try done.
    destruct (str_contains _ _) eqn:Hlabel; [|done].
    destruct Hno. exists body, label. split; [done|].
    by apply str_contains_spec.
  - intros body (label & Hc & Hlabel). unfold visit_field.
    rewrite Hcur, Hc. apply str_contains_spec in Hlabel. by rewrite Hlabel.
  - intros s list_item Hpara. unfold visit_list_item. by rewrite Hpara.
  - intros s list_item pp para Hpara.
    assert (∃ name type_str desc,
              name = match first_instance k_strong s.2 pp para with
                     | Some tag => astext s.2 tag.1 tag.2
                     | None => []
                     end
              ∧ type_str = match first_instance k_emphasis s.2 pp para with
                           | Some tag => astext s.2 tag.1 tag.2
                           | None => lit "Any"
                           end
              ∧ description_of
                  (astext (s.2 ∪ list_to_set (name_and_type_tags s.2 pp para))
                     pp para)
                  desc
              ∧ visit_list_item cur s list_item
                = (if bool_decide (name = []) then s.1
                   else append_parameter cur
                          {| param_name := name; param_type := type_str;
                             param_description := desc |} s.1,
                   s.2 ∪ list_to_set (name_and_type_tags s.2 pp para)))
      as (name & type_str & desc & Hname & Htype & Hdesc & Hvisit).
    { unfold visit_list_item, name_and_type_tags. rewrite Hpara.
      destruct (first_instance k_strong s.2 pp para) as [[sp sn]|],
               (first_instance k_emphasis s.2 pp para) as [[ep en]|]; simpl.
      + replace (s.2 ∪ ({[sp]} ∪ ({[ep]} ∪ ∅))) with (s.2 ∪ {[sp]} ∪ {[ep]})
          by set_solver.
        eexists _, _, _. split_and!; [done | done | apply description_spec |].
        by destruct (astext s.2 sp sn).
      + replace (s.2 ∪ ({[sp]} ∪ ∅)) with (s.2 ∪ {[sp]}) by set_solver.
        eexists _, _, _. split_and!; [done | done | apply description_spec |].
        by destruct (astext s.2 sp sn).
      + replace (s.2 ∪ ({[ep]} ∪ ∅)) with (s.2 ∪ {[ep]}) by set_solver.
        eexists _, _, _. split_and!; [done | done | apply description_spec |].
        done.
      + replace (s.2 ∪ ∅) with s.2 by set_solver.
        eexists _, _, _. split_and!; [done | done | apply description_spec |].
        done. }
    exists name, type_str, desc. split_and!; [done.. | | |].
    + rewrite Hvisit. by case_bool_decide.
    + intros Hempty. rewrite Hvisit.
      by rewrite (bool_decide_eq_true_2 _ Hempty).
    + intros Hnamed. rewrite Hvisit.
      rewrite (bool_decide_eq_false_2 _ Hnamed). apply append_parameter_gains.
Qed.

(** C10.  On a class description: when no node below it is a signature,
    [visit_desc] changes nothing, so that no record is appended, with the
    name "UnknownClass" or any other; when there is a signature, one record
    is appended and becomes the open class, its name being the first
    identifier of the signature, and "UnknownClass" when the signature has
    no identifier. *)
Theorem visit_desc_signature (D : removed) (p : path) (node : node)
    (self : APIDataVisitor) :
  is_class_desc node = true →
  ((∀ pn, pn ∈ traverse D p node → isinstance pn.2 k_desc_signature = false) →
     visit_desc D p node self = self)
  ∧ (∀ sp sig_node,
       first_instance k_desc_signature D p node = Some (sp, sig_node) →
       ∃ info,
         visit_desc D p node self
         = {| data := data self ++ [info];
              current_class := Some (length (data self)) |}
         ∧ parameters info = [] ∧ examples info = []
         ∧ (ids (node_attributes sig_node) = [] →
              class_name info = lit "UnknownClass")
         ∧ (∀ id0 rest, ids (node_attributes sig_node) = id0 :: rest →
              class_name info = id0)).
Proof.
  intros Hclass. unfold visit_desc. rewrite Hclass. split.
  - intros Hnone. apply first_instance_None in Hnone. by rewrite Hnone.
  - intros sp sig_node ->. eexists. split; [reflexivity|]. simpl.
    split_and!; try done.
    + by intros ->.
    + by intros id0 rest ->.
Qed.

(** ** Records in document order

    In a document where no class description lies below a field, the
    nodes that [visit_field] takes out never hide a class description nor
    change what [visit_desc] reads, and the records of a walk are those of
    the class descriptions of the document as parsed, in document order. *)

(** The texts of the children of a node at [p], from child [i] on. *)
Fixpoint child_texts (D : removed) (p : path) (i : nat) (cs : list node)
  : list text :=
  match cs with
  | [] => []
  | c :: cs' =>
      (if bool_decide (p ++ [i] ∈ D) then [] else [astext D (p ++ [i]) c])
      ++ child_texts D p (S i) cs'
  end.

Lemma astext_Element D p c a cs :
  astext D p (Element c a cs)
  = text_opening a ++ str_join (child_text_separator a) (child_texts D p 0 cs)
    ++ text_closing a.
Proof.
  tidy. cbn [astext]. do 3 f_equal.
  match goal with
  | |- ?f 0 cs = _ =>
      assert (∀ i, f i cs = child_texts D p i cs) as ->; [|done]
  end.
  induction cs as [|x cs IH]; intros i; [done|]. simpl. by rewrite IH.
Qed.

(** Two stores agree below [p] when they hold the same places below [p]. *)
Definition agree_below (p : path) (D D' : removed) : Prop :=
  ∀ q, p `prefix_of` q → (q ∈ D ↔ q ∈ D').

Lemma agree_below_child p i D D' :
  agree_below p D D' → agree_below (p ++ [i]) D D'.
Proof.
  intros Hagree q Hq. apply Hagree. etrans; [|exact Hq]. by apply prefix_app_r.
Qed.

Lemma agree_below_prefix p p' D D' :
  p `prefix_of` p' → agree_below p D D' → agree_below p' D D'.
Proof. intros Hp Hagree q Hq. apply Hagree. by etrans. Qed.

Lemma agree_below_decide p i D D' :
  agree_below p D D' →
  bool_decide (p ++ [i] ∈ D) = bool_decide (p ++ [i] ∈ D').
Proof. intros Hagree. apply bool_decide_ext, Hagree. by apply prefix_app_r. Qed.

Lemma traverse_agree n p D D' :
  agree_below p D D' → traverse D p n = traverse D' p n.
Proof.
  revert p. induction n as [t | c a cs IH] using node_Forall_ind; intros p Hagree;
    [done|].
  rewrite !traverse_Element. f_equal. generalize 0 as i.
  induction IH as [|x cs Hx _ IHcs]; intros i; [done|]. simpl.
  rewrite (agree_below_decide p i D D') by done.
  rewrite IHcs. f_equal. case_bool_decide; [done|].
  by apply Hx, agree_below_child.
Qed.

Lemma astext_agree n p D D' :
  agree_below p D D' → astext D p n = astext D' p n.
Proof.
  revert p. induction n as [t | c a cs IH] using node_Forall_ind; intros p Hagree;
    [done|].
  rewrite !astext_Element. do 3 f_equal. generalize 0 as i.
  induction IH as [|x cs Hx _ IHcs]; intros i; [done|]. simpl.
  rewrite (agree_below_decide p i D D') by done.
  rewrite IHcs. f_equal. case_bool_decide; [done|].
  f_equal. by apply Hx, agree_below_child.
Qed.

Lemma traverse_paths n D (p : path) (pn : path * node) : pn ∈ traverse D p n → p `prefix_of` pn.1.
Proof.
  revert p. induction n as [t | c a cs IH] using node_Forall_ind; intros p.
  - simpl. by intros ->%list_elem_of_singleton.
  - rewrite traverse_Element. intros [->|Hin]%elem_of_cons; [done|].
    revert Hin. generalize 0 as i.
    induction IH as [|x cs Hx _ IHcs]; intros i; simpl.
    + by intros ?%elem_of_nil.
    + intros [Hin|Hin]%elem_of_app; [|by eapply IHcs].
      case_bool_decide; [by apply elem_of_nil in Hin|].
      etrans; [|by apply Hx]. by apply prefix_app_r.
Qed.

Lemma first_instance_path k D (p : path) n (pn : path * node) :
  first_instance k D p n = Some pn → p `prefix_of` pn.1.
Proof.
  intros (before & after & Heq & _)%first_instance_Some.
  apply (traverse_paths n D). rewrite Heq. apply elem_of_app. right. by left.
Qed.

Lemma first_instance_agree k n p D D' :
  agree_below p D D' → first_instance k D p n = first_instance k D' p n.
Proof.
  intros Hagree. unfold first_instance, traverse_class.
  by rewrite (traverse_agree n p D D').
Qed.

Lemma record_at_agree n p D D' :
  agree_below p D D' → record_at D p n = record_at D' p n.
Proof.
  intros Hagree. unfold record_at.
  destruct n as [t | [[]|base] a cs]; try done.
  simpl. f_equal. unfold visit_desc. destruct (is_class_desc _); [|done].
  rewrite (first_instance_agree k_desc_signature _ p D D') by done.
  destruct (first_instance k_desc_signature D' p _) as [[sp sig_node]|] eqn:Hsig;
    [|done].
  apply first_instance_path in Hsig. simpl in Hsig.
  rewrite (astext_agree sig_node sp D D') by (by eapply agree_below_prefix).
  rewrite (first_instance_agree k_desc_content _ p D D') by done.
  destruct (first_instance k_desc_content D' p _) as [[cp content_node]|]
    eqn:Hcontent; [|done].
  apply first_instance_path in Hcontent. simpl in Hcontent.
  rewrite (first_instance_agree k_paragraph content_node cp D D')
    by (by eapply agree_below_prefix).
  destruct (first_instance k_paragraph D' cp content_node) as [[pp para_node]|]
    eqn:Hpara; [|done].
  apply first_instance_path in Hpara. simpl in Hpara.
  rewrite (astext_agree para_node pp D D'); [done|].
  eapply agree_below_prefix; [|done]. by etrans.
Qed.

(** A walk takes nodes out below the node it walks only. *)
Lemma children_from_paths D (p : path) i cs (pn : path * node) :
  pn ∈ children_from D p i cs → p `prefix_of` pn.1.
Proof.
  revert i. induction cs as [|c cs IH]; intros i; simpl.
  - by intros ?%elem_of_nil.
  - intros [Hin|Hin]%elem_of_app; [|by eapply IH].
    case_bool_decide; [by apply elem_of_nil in Hin|].
    apply list_elem_of_singleton in Hin as ->. by apply prefix_app_r.
Qed.

Lemma visit_list_item_frame (p : path) cur s (item : path * node) (q : path) :
  p `prefix_of` item.1 →
  q ∈ (visit_list_item cur s item).2 → q ∈ s.2 ∨ p `prefix_of` q.
Proof.
  tidy.
  intros Hitem. unfold visit_list_item.
  destruct (first_instance k_paragraph s.2 item.1 item.2) as [[pp para]|] eqn:Hpara;
    [|by intros; left].
  apply first_instance_path in Hpara. simpl in Hpara.
  assert (p `prefix_of` pp) as Hpp by (by etrans).
  assert (∀ k tag, first_instance k s.2 pp para = Some tag → p `prefix_of` tag.1)
    as Htag.
  { intros k tag Hk%first_instance_path. by etrans. }
  destruct (first_instance k_strong s.2 pp para) as [[sp sn]|] eqn:Hs,
           (first_instance k_emphasis s.2 pp para) as [[ep en]|] eqn:He;
    simpl.
  all: try specialize (Htag _ _ Hs) as Hsp; try specialize (Htag _ _ He) as Hep;
    simpl in *.
  all: repeat case_match; simpl; set_solver.
Qed.

Lemma visit_field_frame D (p : path) n self (q : path) :
  q ∈ (visit_field D p n self).2 → q ∈ D ∨ p `prefix_of` q.
Proof.
  unfold visit_field. destruct (current_class self) as [cur|]; [|by intros; left].
  destruct (node_children D p n) as [|label [|body [|??]]] eqn:Hc; try by intros; left.
  destruct (str_contains _ _); [|by intros; left].
  assert (p `prefix_of` body.1) as Hbody.
  { destruct n as [t|c a cs]; [done|]. simpl in Hc.
    apply (children_from_paths D p 0 cs). rewrite Hc. right. by left. }
  assert (Forall (λ item, p `prefix_of` item.1)
            (traverse_class k_list_item D body.1 body.2)) as Hitems.
  { apply Forall_forall. intros item [_ Hin]%list_elem_of_filter.
    apply traverse_paths in Hin. by etrans. }
  revert Hitems. generalize (traverse_class k_list_item D body.1 body.2).
  intros items Hitems.
  assert (∀ s, q ∈ (foldl (visit_list_item cur) s items).2 →
               q ∈ s.2 ∨ p `prefix_of` q) as Hloop.
  { induction Hitems as [|item items Hitem _ IH]; intros s; simpl; [by intros; left|].
    intros [Hin|?]%IH; [|by right].
    by eapply visit_list_item_frame. }
  apply (Hloop (self, D)).
Qed.

Lemma api_dispatch_visit_frame D (p : path) n (self : APIDataVisitor) (q : path) :
  q ∈ (dispatch_visit D p n self).2 → q ∈ D ∨ p `prefix_of` q.
Proof.
  destruct n as [t | [[]|base] a cs]; simpl; try by intros; left.
  apply visit_field_frame.
Qed.

Lemma api_dispatch_departure_store D p n (self : APIDataVisitor) :
  (dispatch_departure D p n self).2 = D.
Proof. by destruct n as [t | [[]|base] a cs]. Qed.

Lemma api_walkabout_frame n (p : path) (s : APIDataVisitor * removed) (q : path) :
  q ∈ (walkabout p n s).2 → q ∈ s.2 ∨ p `prefix_of` q.
Proof.
  revert p s. induction n as [t | c a cs IH] using node_Forall_ind; intros p s.
  - rewrite walkabout_Text. cbv zeta. rewrite api_dispatch_departure_store.
    apply api_dispatch_visit_frame.
  - rewrite walkabout_Element. cbv zeta. rewrite api_dispatch_departure_store.
    set (s1 := dispatch_visit s.2 p (Element c a cs) s.1).
    assert (∀ i (s0 : APIDataVisitor * removed),
              q ∈ (walk_children s1.2 p i cs s0).2 →
              q ∈ s0.2 ∨ p `prefix_of` q) as Hchildren.
    { generalize s1.2 as D1. clear -IH. intros D1.
      induction IH as [|x cs Hx _ IHcs]; intros i s0; simpl; [by intros; left|].
      intros [Hin|?]%IHcs; [|by right].
      case_bool_decide; [by left|].
      destruct (Hx (p ++ [i]) s0 Hin) as [?|Hq]; [by left|]. right.
      etrans; [|exact Hq]. by apply prefix_app_r. }
    intros [Hin|?]%Hchildren; [|by right].
    by apply (api_dispatch_visit_frame s.2 p (Element c a cs) s.1).
Qed.

(** Whether a node is, or holds, a description ([desc]) node. *)
Definition is_desc (n : node) : bool :=
  match n with
  | Element (exactly k_desc) _ _ => true
  | _ => false
  end.

Fixpoint has_desc (n : node) : bool :=
  is_desc n ||
  match n with
  | Text _ => false
  | Element _ _ cs => existsb has_desc cs
  end.

(** No description lies below a field. *)
Fixpoint fields_hold_no_desc (n : node) : bool :=
  match n with
  | Text _ => true
  | Element c _ cs =>
      match c with
      | exactly k_field => negb (existsb has_desc cs)
      | _ => true
      end && forallb fields_hold_no_desc cs
  end.

(** The records of the class descriptions of a tree as parsed, in
    document order. *)
Definition static_records (p : path) (n : node) : list APIRecord :=
  pn ← traverse ∅ p n; record_at ∅ pn.1 pn.2.

Lemma record_at_not_desc D p n : is_desc n = false → record_at D p n = [].
Proof.
  unfold record_at. by destruct n as [t | [[]|base] a cs].
Qed.

Lemma bind_all_nil {A B : Type} (f : A → list B) (l : list A) :
  (∀ x, x ∈ l → f x = []) → l ≫= f = [].
Proof.
  induction l as [|x l IH]; intros Hl; [done|].
  rewrite bind_cons, Hl by (by left). apply IH. intros y Hy. apply Hl. by right.
Qed.

Lemma traverse_no_desc n D (p : path) (pn : path * node) :
  has_desc n = false → pn ∈ traverse D p n → is_desc pn.2 = false.
Proof.
  revert p. induction n as [t | c a cs IH] using node_Forall_ind; intros p.
  - simpl. by intros _ ->%list_elem_of_singleton.
  - rewrite traverse_Element. cbn [has_desc].
    intros [Hself Hcs]%orb_false_iff [->|Hin]%elem_of_cons; [done|].
    revert Hin. generalize 0 as i.
    induction IH as [|x cs Hx _ IHcs]; intros i; simpl.
    + by intros ?%elem_of_nil.
    + simpl in Hcs. apply orb_false_iff in Hcs as [Hx' Hcs'].
      intros [Hin|Hin]%elem_of_app; [|by eapply IHcs].
      case_bool_decide; [by apply elem_of_nil in Hin|]. by eapply Hx.
Qed.

Lemma static_records_no_desc n p : has_desc n = false → static_records p n = [].
Proof.
  intros Hn. apply bind_all_nil. intros pn Hin.
  apply record_at_not_desc. by eapply traverse_no_desc.
Qed.

Lemma walkabout_no_desc n p (s : APIDataVisitor * removed) :
  has_desc n = false →
  outline <$> data (walkabout p n s).1 = outline <$> data s.1.
Proof.
  intros Hn. destruct (walkabout_records n p s) as (visits & Hsub & ->).
  unfold records_of. rewrite bind_all_nil; [by rewrite app_nil_r|].
  intros v Hv. apply record_at_not_desc.
  apply (traverse_no_desc n ∅ p v.2 Hn).
  eapply elem_of_sublist; [|exact Hsub]. apply list_elem_of_fmap. by exists v.
Qed.

Lemma walk_children_no_desc D1 p i cs (s : APIDataVisitor * removed) :
  existsb has_desc cs = false →
  outline <$> data (walk_children D1 p i cs s).1 = outline <$> data s.1.
Proof.
  revert i s. induction cs as [|c cs IH]; intros i s; simpl; [done|].
  intros [Hc Hcs]%orb_false_iff. rewrite IH by done.
  case_bool_decide; [done|]. by apply walkabout_no_desc.
Qed.

Lemma traverse_below_no_desc p i cs :
  existsb has_desc cs = false →
  (pn ← traverse_below ∅ p i cs; record_at ∅ pn.1 pn.2) = [].
Proof.
  revert i. induction cs as [|c cs IH]; intros i; simpl; [done|].
  intros [Hc Hcs]%orb_false_iff. rewrite bind_app, IH, app_nil_r by done.
  case_bool_decide; [done|]. by apply (static_records_no_desc c).
Qed.

Lemma prefix_child_inj (p q : path) i j :
  p ++ [i] `prefix_of` q → p ++ [j] `prefix_of` q → i = j.
Proof.
  intros [k1 ->] [k2 Heq]. rewrite <- !app_assoc in Heq.
  apply app_inv_head in Heq. by injection Heq.
Qed.

(** In a document where no description lies below a field, a walk that
    starts at a node nothing was taken out of appends the records of the
    tree as parsed. *)
Lemma walkabout_static n p (s : APIDataVisitor * removed) :
  fields_hold_no_desc n = true →
  agree_below p s.2 ∅ →
  outline <$> data (walkabout p n s).1
  = outline <$> (data s.1 ++ static_records p n).
Proof.
  revert p s. induction n as [t | c a cs IH] using node_Forall_ind;
    intros p s Hn Hagree.
  - rewrite walkabout_Text. cbv zeta.
    by rewrite dispatch_departure_data, dispatch_visit_outline.
  - rewrite walkabout_Element. cbv zeta. rewrite dispatch_departure_data.
    set (s1 := dispatch_visit s.2 p (Element c a cs) s.1).
    unfold static_records. rewrite traverse_Element, bind_cons. cbn [fst snd].
    assert (outline <$> data s1.1
            = outline <$> (data s.1 ++ record_at ∅ p (Element c a cs))) as Hs1.
    { subst s1. rewrite dispatch_visit_outline.
      by rewrite (record_at_agree _ p s.2 ∅). }
    cbn [fields_hold_no_desc] in Hn. apply andb_true_iff in Hn as [Hfield Hcs].
    destruct (decide (c = exactly k_field)) as [->|Hc].
    + apply negb_true_iff in Hfield.
      rewrite walk_children_no_desc, traverse_below_no_desc by done.
      rewrite Hs1. by rewrite (app_nil_r (record_at _ _ _)).
    + assert (s1.2 = s.2) as Hstore.
      { subst s1. by destruct c as [[]|]. }
      rewrite Hstore. rewrite app_assoc, fmap_app, <- Hs1, <- fmap_app.
      assert (∀ q, q ∈ s1.2 → ∀ j, 0 ≤ j → ¬ p ++ [j] `prefix_of` q) as Hclean.
      { rewrite Hstore. intros q Hq j _ Hj.
        apply (Hagree q) in Hq; [set_solver|].
        etrans; [|exact Hj]. by apply prefix_app_r. }
      assert (∀ j, p ++ [j] ∉ s.2) as Hlive.
      { intros j Hj. apply (Hagree (p ++ [j])) in Hj; [set_solver|].
        by apply prefix_app_r. }
      clear Hs1 Hstore Hagree Hfield Hc. revert Hclean. generalize s1. clear s1.
      apply Is_true_true, forallb_True in Hcs. revert Hcs. generalize 0 as i.
      induction IH as [|x cs Hx _ IHcs]; intros i Hcs s0 Hclean.
      * simpl. by rewrite app_nil_r.
      * apply Forall_cons in Hcs as [Hx' Hcs]. cbn [walk_children traverse_below].
        rewrite (bool_decide_eq_false_2 (p ++ [i] ∈ s.2)) by apply Hlive.
        rewrite (bool_decide_eq_false_2 (p ++ [i] ∈ (∅ : removed)))
          by set_solver.
        rewrite IHcs; [| done |].
        -- rewrite fmap_app, Hx; [| by apply Is_true_true | ].
           ++ unfold static_records.
              by rewrite bind_app, !fmap_app, app_assoc.
           ++ intros q Hq. split; [|set_solver]. intros Hin.
              by destruct (Hclean q Hin i).
        -- intros q Hq j Hj Hpre.
           apply api_walkabout_frame in Hq as [Hq|Hq].
           ++ apply (Hclean q Hq j); [lia | done].
           ++ assert (i = j) by (by eapply prefix_child_inj). lia.
Qed.

(** ** Collection and emission *)

(** The segments of the name of a document, that is what lies between
    its slashes, hold the given segments one after the other: the words
    of the specification for the test on the name. *)
Definition has_segment_sequence (segments : list text) (docname : text)
  : Prop :=
  ∃ before after, str_split chr_slash docname = before ++ segments ++ after.

Lemma segment_sequence_token (a b docname : text) :
  has_segment_sequence [a; b] docname → has_token (a ++ chr_slash :: b) docname.
Proof.
  tidy. intros (before & after & Hsplit).
  rewrite <- (str_join_split chr_slash docname), Hsplit.
  apply str_join_neighbours.
Qed.

(** C6.  [write_doc] makes two tests, neither of which depends on the
    other.  The API visitor walks the tree, and its records are appended
    to the records collected, exactly when the name of the document
    contains the characters "reference/python", wherever they stand: a
    name that has the segments "reference" and "python" one after the
    other is such a name.  The code visitor walks the tree (as the API
    visitor left it, if it ran), and its blocks, if any, are stored under
    the name of the document, exactly when the suffix of the source file
    is ".ipynb" or ".md", that is when the name of the file, which is
    what follows the last slash of its path, is a stem that is not empty
    followed by one of the two. *)
Theorem write_doc_visitors (docname : text) (doctree : node)
    (self : JSONDataBuilder) :
  let api_visitor := walkabout [] doctree (new_api_visitor, ∅) in
  let left_by_api := if is_reference_document docname then api_visitor.2 else ∅ in
  let code_visitor := walkabout [] doctree (new_code_visitor, left_by_api) in
  (is_reference_document docname = true
   ↔ has_token (lit "reference/python") docname)
  ∧ (has_segment_sequence [lit "reference"; lit "python"] docname →
     is_reference_document docname = true)
  ∧ (is_example_document docname = true
     ↔ path_suffix (doc2path docname) = lit ".ipynb"
       ∨ path_suffix (doc2path docname) = lit ".md")
  ∧ (is_example_document docname = true
     ↔ ∃ stem, stem ≠ []
         ∧ (path_name (doc2path docname) = stem ++ lit ".ipynb"
            ∨ path_name (doc2path docname) = stem ++ lit ".md"))
  ∧ (∀ dir name,
       (chr_slash ∉ name) → name ≠ [] → name ≠ [chr_dot] →
       doc2path docname = dir ++ chr_slash :: name →
       path_name (doc2path docname) = name)
  ∧ all_api_classes (write_doc docname doctree self)
    = all_api_classes self
      ++ (if is_reference_document docname then data api_visitor.1 else [])
  ∧ all_code_blocks (write_doc docname doctree self)
    = (if is_example_document docname
       then match code_blocks code_visitor.1 with
            | [] => all_code_blocks self
            | _ :: _ =>
                dict_set docname (code_blocks code_visitor.1)
                         (all_code_blocks self)
            end
       else all_code_blocks self).
Proof.
  intros api_visitor left_by_api code_visitor.
  assert (is_example_document docname = true
          ↔ path_suffix (doc2path docname) = lit ".ipynb"
            ∨ path_suffix (doc2path docname) = lit ".md") as Hsuffix.
  { unfold is_example_document. rewrite bool_decide_eq_true.
    rewrite !elem_of_cons. split; [|naive_solver].
    intros [?|[?|?%elem_of_nil]]; [by left | by right | done]. }
  split_and!.
  - apply str_contains_spec.
  - intros Hsegments. apply str_contains_spec.
    by apply (segment_sequence_token (lit "reference") (lit "python")).
  - done.
  - rewrite Hsuffix.
    change (lit ".ipynb") with (chr_dot :: lit "ipynb").
    change (lit ".md") with (chr_dot :: lit "md").
    rewrite (path_suffix_spec _ (lit "ipynb")), (path_suffix_spec _ (lit "md"));
      [| apply (bool_decide_unpack _); by vm_compute | done
       | apply (bool_decide_unpack _); by vm_compute | done].
    split.
    + intros [(stem & ? & ?) | (stem & ? & ?)]; exists stem;
        (split; [done|]); [by left | by right].
    + intros (stem & ? & [? | ?]); [left | right]; by exists stem.
  - intros dir name Hslash Hne Hdot ->.
    by destruct (path_name_spec dir name Hslash Hne Hdot).
  - apply write_doc_api_classes.
  - subst api_visitor left_by_api code_visitor. unfold write_doc.
    destruct (is_reference_document docname),
      (is_example_document docname); simpl; try done.
    + destruct (data _); destruct (code_blocks _); done.
    + by destruct (data _).
    + by destruct (code_blocks _).
Qed.

Lemma record_at_cases D p n :
  record_at D p n = [] ∨ ∃ info, record_at D p n = [info].
Proof.
  unfold record_at.
  destruct n as [t | [[]|base] a cs]; simpl; try by left.
  unfold visit_desc. destruct (is_class_desc _); [|by left].
  destruct (first_instance k_desc_signature _ _ _) as [[sp sig_node]|]; simpl;
    [right; by eexists | by left].
Qed.

Lemma records_of_visits (visits : list (removed * (path * node))) :
  ∃ visits', visits' `sublist_of` visits
    ∧ Forall2 (λ info v, record_at v.1 v.2.1 v.2.2 = [info])
        (records_of visits) visits'.
Proof.
  induction visits as [|v visits (visits' & Hsub & Hall)].
  - exists []. split; [done | constructor].
  - rewrite records_of_cons.
    destruct (record_at_cases v.1 v.2.1 v.2.2) as [Hv | [info Hv]]; rewrite Hv.
    + exists visits'. split; [by apply sublist_cons | done].
    + exists (v :: visits'). split; [by apply sublist_skip|].
      by constructor.
Qed.

(** C9.  What is written is an array of one object for each record, with
    the class name, the signature, the description, the parameters (each
    with its name, type and description) and the examples of the record,
    in that order.  The records written are the records collected, in the
    order of collection: those of the reference documents, one document after the
    other in the order of the calls of [write_doc], and within a document
    in the order in which the walk entered the class descriptions, which
    is the order of the document; where no description lies below a
    field, they are the records of all the class descriptions of the
    document as parsed.  Linking and emission neither sort nor reorder. *)
Theorem build_encounter_order (docs : list (text * node))
    (b' : JSONDataBuilder) (out : json) :
  build docs = Done (b', out) →
  out
  = JArray
      ((λ info,
          JObject
            [ (lit "class_name", JString (class_name info));
              (lit "signature", JString (signature info));
              (lit "description", JString (description info));
              (lit "parameters",
               JArray
                 ((λ q,
                     JObject
                       [ (lit "name", JString (param_name q));
                         (lit "type", JString (param_type q));
                         (lit "description", JString (param_description q)) ])
                    <$> parameters info));
              (lit "examples", JArray (JString <$> examples info)) ])
         <$> all_api_classes b')
  ∧ frame <$> all_api_classes b'
    = frame <$> (doc ← docs;
                 if is_reference_document doc.1 then api_records doc.2 else [])
  ∧ (∀ doctree,
       ∃ visits : list (removed * (path * node)),
         visits.*2 `sublist_of` traverse ∅ [] doctree
         ∧ Forall2 (λ info v, ∃ entered,
                      record_at v.1 v.2.1 v.2.2 = [entered]
                      ∧ outline info = outline entered)
             (api_records doctree) visits)
  ∧ (∀ doctree,
       fields_hold_no_desc doctree = true →
       outline <$> api_records doctree
       = outline <$> static_records [] doctree).
Proof.
  unfold build. intros Hfin. split_and!; [| | |
    intros doctree Hdoc;
    apply (walkabout_static doctree [] (new_api_visitor, ∅) Hdoc); done ].
  - by apply finish_Done in Hfin as (_ & _ & ->).
  - apply finish_keeps_frame in Hfin as ->. by rewrite collect_api_classes.
  - intros doctree. unfold api_records.
    destruct (walkabout_records doctree [] (new_api_visitor, ∅))
      as (visits & Hsub & Hdata).
    destruct (records_of_visits visits) as (visits' & Hsub' & Hall).
    exists visits'. split.
    + etrans; [by apply fmap_sublist | done].
    + simpl in Hdata.
      assert (Forall2 (λ info entered, outline info = outline entered)
                (data (walkabout [] doctree (new_api_visitor, ∅)).1)
                (records_of visits)) as Hout.
      { apply Forall2_fmap. rewrite Hdata. by apply Forall_Forall2_diag, Forall_true. }
      eapply Forall2_trans; [|exact Hout|exact Hall].
      intros info entered v ? ?. by exists entered.
Qed.

(** * Further properties

    ** Short names and the lookup of [finish] *)

(** The pieces of [s.split(sep)]: the last one holds no separator and is
    what follows the last separator of [s], or [s] itself when [s] holds
    none. *)
Lemma str_split_last (sep : char) (s : text) :
  ∃ front l, str_split sep s = front ++ [l]
    ∧ (sep ∉ l)
    ∧ ((front = [] ∧ s = l) ∨ (front ≠ [] ∧ ∃ pre, s = pre ++ sep :: l)).
Proof.
  induction s as [|c s (front & l & Hsplit & Hl & Hs)]; simpl.
  - exists [], []. split_and!; [done | by intros ?%elem_of_nil | by left].
  - rewrite Hsplit. case_bool_decide as Hc.
    + subst c. exists ([] :: front), l. split_and!; [done..|].
      right. split; [done|].
      destruct Hs as [[_ ->] | (_ & pre & ->)]; [by exists [] | by exists (sep :: pre)].
    + destruct Hs as [[-> ->] | (Hfront & pre & ->)].
      * exists [], (c :: l). split_and!; [done | | by left].
        intros [?|?]%elem_of_cons; [by subst | done].
      * destruct front as [|seg front]; [done|].
        exists ((c :: seg) :: front), l. split_and!; [done..|].
        right. split; [done | by exists (c :: pre)].
Qed.

Lemma short_name_of_last (info : APIRecord) :
  ∃ front, str_split chr_dot (class_name info) = front ++ [short_name_of info]
    ∧ (chr_dot ∉ short_name_of info)
    ∧ ((front = [] ∧ class_name info = short_name_of info)
       ∨ (front ≠ []
          ∧ ∃ pre, class_name info = pre ++ chr_dot :: short_name_of info)).
Proof.
  destruct (str_split_last chr_dot (class_name info))
    as (front & l & Hsplit & Hl & Hs).
  assert (short_name_of info = l) as ->; [|by exists front].
  unfold short_name_of. by rewrite Hsplit, last_snoc.
Qed.

(** X1.  The short name of a record holds no dot, and the class name is
    either the short name alone, with no dot in it, or a qualifier, a dot
    and the short name: the short name is what follows the last dot of
    the class name. *)
Theorem short_name_follows_last_dot (info : APIRecord) :
  (chr_dot ∉ short_name_of info)
  ∧ (((chr_dot ∉ class_name info) ∧ class_name info = short_name_of info)
     ∨ ∃ qualifier,
         class_name info = qualifier ++ chr_dot :: short_name_of info).
Proof.
  destruct (short_name_of_last info) as (front & _ & Hl & Hs).
  split; [done|].
  destruct Hs as [[_ Heq] | (_ & pre & Heq)].
  - left. by rewrite Heq.
  - right. by exists pre.
Qed.

Lemma dict_set_fresh {V : Type} (k : text) (v : V) (d : list (text * V)) :
  k ∉ d.*1 → dict_set k v d = d ++ [(k, v)].
Proof.
  induction d as [|[k' v'] d IH]; simpl; [done|].
  intros Hk. apply not_elem_of_cons in Hk as [Hne Hk].
  rewrite bool_decide_eq_false_2 by done. by rewrite IH.
Qed.

Lemma dict_set_elem {V : Type} (k : text) (v : V) (d : list (text * V))
    (x : text * V) :
  x ∈ dict_set k v d → x = (k, v) ∨ x ∈ d.
Proof.
  induction d as [|[k' v'] d IH]; simpl.
  - intros ?%list_elem_of_singleton. by left.
  - case_bool_decide.
    + intros [?|?]%elem_of_cons; [by left | right; by apply elem_of_cons; right].
    + intros [?|Hx]%elem_of_cons; [right; by apply elem_of_cons; left|].
      destruct (IH Hx); [by left | right; by apply elem_of_cons; right].
Qed.

Lemma keys_imap_short_names (h : nat → nat) (infos : list APIRecord) :
  (imap (λ i info, (short_name_of info, h i)) infos).*1
  = short_name_of <$> infos.
Proof.
  revert h. induction infos as [|info infos IH]; intros h; simpl; [done|].
  f_equal. exact (IH (h ∘ S)).
Qed.

(** X2.  When the short names of the records are pairwise distinct, the
    lookup of [finish] has one entry per record, in the order of the
    records: the short name of the record, bound to that record. *)
Theorem class_map_distinct_names (infos : list APIRecord) :
  NoDup (short_name_of <$> infos) →
  class_map infos = imap (λ i info, (short_name_of info, i)) infos.
Proof.
  induction infos as [|info infos IH] using rev_ind; [done|].
  rewrite fmap_app. intros [Hnodup [Hfresh _]]%NoDup_app.
  rewrite class_map_snoc, IH by done.
  rewrite dict_set_fresh.
  - rewrite imap_app. simpl. by rewrite Nat.add_0_r.
  - rewrite (keys_imap_short_names id). intros Hin.
    apply (Hfresh _ Hin). simpl. by left.
Qed.

(** ** The empty short name *)

Lemma short_name_of_empty (info : APIRecord) :
  short_name_of info = []
  ↔ class_name info = [] ∨ last (class_name info) = Some chr_dot.
Proof.
  destruct (short_name_of_last info) as (front & _ & Hl & Hs). split.
  - intros Hempty. rewrite Hempty in Hs.
    destruct Hs as [[_ ->] | (_ & pre & ->)]; [by left|].
    right. by rewrite last_snoc.
  - intros [Hname | Hlast].
    + destruct Hs as [[_ Heq] | (_ & pre & Heq)]; [congruence|].
      rewrite Hname in Heq. by destruct pre.
    + destruct (short_name_of info) as [|c l] eqn:Hshort; [done|].
      exfalso. apply Hl.
      assert (last (class_name info) = last (c :: l)) as Heq.
      { destruct Hs as [[_ ->] | (_ & pre & ->)]; [done|].
        rewrite last_app.
        change (chr_dot :: c :: l) with ([chr_dot] ++ c :: l).
        rewrite last_app.
        destruct (last (c :: l)) eqn:Hcl; [done | by apply last_None in Hcl]. }
      rewrite Hlast in Heq. symmetry in Heq.
      by apply last_Some_elem_of in Heq.
Qed.

(** Two word boundaries with nothing between them match wherever one
    does: at some place of the subject, unless it holds no word
    character. *)
Lemma search_from_boundaries (prev : option char) (rest : text) :
  search_from [[(ABoundary, QOne); (ABoundary, QOne)]] prev rest
  = is_word_opt prev || existsb is_word rest.
Proof.
  revert prev. induction rest as [|c rest IH]; intros prev.
  - cbn. unfold at_boundary. cbn. by destruct (is_word_opt prev).
  - cbn [search_from existsb match_here]. rewrite IH.
    unfold at_boundary. cbn [head is_word_opt].
    by destruct (is_word_opt prev), (is_word c), (existsb is_word rest).
Qed.

(** X3.  A class name that is empty or ends with a dot has the empty
    short name, whose pattern is two word boundaries: it is found in
    every code block that holds a word character, and in no other. *)
Theorem empty_short_name_links_every_word (info : APIRecord) (code : text) :
  class_name info = [] ∨ last (class_name info) = Some chr_dot →
  short_name_of info = []
  ∧ re_search (word_pattern (short_name_of info)) code
    = Done (existsb is_word code).
Proof.
  intros Hname. apply short_name_of_empty in Hname.
  split; [done|]. rewrite Hname.
  unfold re_search. rewrite re_compile_word_pattern by done.
  cbn. f_equal. apply (search_from_boundaries None).
Qed.

(** ** The examples a record gains *)

(** One step of the loop leaves the examples of a record as they were,
    or appends its code block, which was not among them. *)
Lemma apply_step_examples_at (classes : list APIRecord) (a : step) (k : nat) :
  examples_at (apply_step classes a) k = examples_at classes k
  ∨ ((a.1 ∉ examples_at classes k)
     ∧ examples_at (apply_step classes a) k = examples_at classes k ++ [a.1]).
Proof.
  unfold apply_step. destruct (verdict a) as [[|]|]; [|by left..].
  unfold examples_at. destruct (decide (a.2.2 = k)) as [<-|Hne].
  - rewrite list_lookup_alter_eq.
    destruct (classes !! a.2.2) as [info|]; simpl; [|by left].
    unfold append_example. case_bool_decide; [by left | by right].
  - rewrite list_lookup_alter_ne by done. by left.
Qed.

(** The steps of one code block, over all the entries of the lookup. *)
Lemma run_code_examples_at (code : text) (cmap : list (text * nat))
    (classes : list APIRecord) (k : nat) :
  examples_at (foldl apply_step classes (pair code <$> cmap)) k
  = examples_at classes k
  ∨ examples_at (foldl apply_step classes (pair code <$> cmap)) k
    = examples_at classes k ++ [code].
Proof.
  tidy.
  assert (∀ ex classes0,
            examples_at classes0 k = ex ∨ examples_at classes0 k = ex ++ [code] →
            examples_at (foldl apply_step classes0 (pair code <$> cmap)) k = ex
            ∨ examples_at (foldl apply_step classes0 (pair code <$> cmap)) k
              = ex ++ [code]) as Hrun; [|by apply Hrun; left].
  induction cmap as [|entry cmap IH]; intros ex classes0 Hex; [done|].
  simpl. apply IH.
  destruct (apply_step_examples_at classes0 (code, entry) k)
    as [-> | [Hnew ->]]; [done|]. simpl in *.
  destruct Hex as [-> | Hex]; [by right|].
  exfalso. apply Hnew. rewrite Hex. apply elem_of_app. right. by left.
Qed.

Lemma run_codes_examples_at (cmap : list (text * nat)) (codes : list text)
    (classes : list APIRecord) (k : nat) :
  ∃ new,
    examples_at
      (foldl apply_step classes (codes ≫= λ code, pair code <$> cmap)) k
    = examples_at classes k ++ new
    ∧ new `sublist_of` codes.
Proof.
  revert classes. induction codes as [|code codes IH]; intros classes.
  - exists []. by rewrite app_nil_r.
  - rewrite bind_cons, foldl_app.
    destruct (IH (foldl apply_step classes (pair code <$> cmap)))
      as (new & -> & Hsub).
    destruct (run_code_examples_at code cmap classes k) as [-> | ->].
    + exists new. split; [done | by apply sublist_cons].
    + exists (code :: new). split; [by rewrite <- app_assoc|].
      by apply sublist_skip.
Qed.

Lemma steps_by_code (cmap : list (text * nat)) (blocks : list (text * list text)) :
  steps cmap blocks
  = (doc ← blocks; doc.2) ≫= λ code, pair code <$> cmap.
Proof.
  tidy. unfold steps. induction blocks as [|doc blocks IH]; [done|].
  by rewrite !bind_cons, bind_app, IH.
Qed.

(** X4.  Linking only appends: after [finish], the examples of every
    record are those it had, in their order, followed by code blocks
    collected, in the order of collection (the documents in the order
    their code blocks were first stored, and within a document the order
    of its blocks). *)
Theorem finish_appends_in_collection_order (b b' : JSONDataBuilder)
    (out : json) :
  finish b = Done (b', out) →
  ∀ k, ∃ new,
    examples_at (all_api_classes b') k
    = examples_at (all_api_classes b) k ++ new
    ∧ new `sublist_of` collected_code b.
Proof.
  intros [Hlink _]%finish_Done k.
  apply link_Done in Hlink as [-> _].
  unfold steps_of. rewrite steps_by_code.
  apply run_codes_examples_at.
Qed.

(** ** When [finish] returns *)

Lemma steps_of_nil (b : JSONDataBuilder) :
  collected_code b = [] ∨ all_api_classes b = [] → steps_of b = [].
Proof.
  tidy. intros Hnothing. unfold steps_of. rewrite steps_by_code.
  fold (collected_code b).
  destruct Hnothing as [-> | ->]; [done|].
  change (class_map []) with (@nil (text * nat)).
  induction (collected_code b) as [|code codes IH]; [done|].
  by rewrite bind_cons, IH.
Qed.

(** X5.  With no code block collected, or no record, [finish] has nothing
    to link: it returns, leaves the builder as it was and writes the
    records as they are, whatever their names. *)
Theorem finish_nothing_to_link (b : JSONDataBuilder) :
  collected_code b = [] ∨ all_api_classes b = [] →
  finish b = Done (b, json_dump (all_api_classes b)).
Proof.
  intros Hnothing. apply finish_Done. split_and!; [|done..].
  apply link_Done. rewrite (steps_of_nil b Hnothing). by split.
Qed.

Lemma for_each_steps_Raise (l : list step) (classes : list APIRecord)
    (e : failure) :
  for_each (λ a : step, link_entry a.1 a.2) l classes = Raise e →
  ∃ a, a ∈ l ∧ verdict a = Raise e.
Proof.
  revert classes. induction l as [|a l IH]; intros classes; [done|].
  simpl. rewrite link_entry_apply.
  destruct (verdict a) as [found|e'] eqn:Ha; simpl.
  - intros (a' & Hin & Hraise)%IH. exists a'. split; [by right | done].
  - intros [= ->]. exists a. split; [by left | done].
Qed.

Lemma verdict_compiles (a : step) :
  (∃ found, verdict a = Done found)
  ↔ ∃ branches, re_compile (word_pattern a.2.1) = Done branches.
Proof.
  unfold verdict, re_search.
  destruct (re_compile (word_pattern a.2.1)) as [branches|e]; simpl.
  - split; intros _; eauto.
  - split; intros [? [=]].
Qed.

Lemma verdict_Raise (a : step) (e : failure) :
  verdict a = Raise e ↔ re_compile (word_pattern a.2.1) = Raise e.
Proof.
  unfold verdict, re_search.
  destruct (re_compile (word_pattern a.2.1)) as [branches|e']; simpl.
  - split; intros [=].
  - split; by intros [= ->].
Qed.

(** X6.  The only way [finish] fails is a pattern that does not compile.
    When no code block was collected, or the pattern of every short name
    of the lookup compiles, [finish] returns.  When it returns although a
    code block was collected, no short name of the lookup has a pattern
    that raises the error of [re].  When it raises that error, a code
    block was collected and the error is the one of compiling the pattern
    of a short name of the lookup. *)
Theorem finish_raises_only_from_patterns (b : JSONDataBuilder) :
  ((collected_code b = []
    ∨ ∀ short_name k,
        (short_name, k) ∈ class_map (all_api_classes b) →
        ∃ branches, re_compile (word_pattern short_name) = Done branches) →
   ∃ b' out, finish b = Done (b', out))
  ∧ (∀ b' out,
       finish b = Done (b', out) →
       collected_code b = []
       ∨ ∀ short_name k,
           (short_name, k) ∈ class_map (all_api_classes b) →
           re_compile (word_pattern short_name) ≠ Raise re_error)
  ∧ (finish b = Raise re_error →
     collected_code b ≠ []
     ∧ ∃ short_name k,
         (short_name, k) ∈ class_map (all_api_classes b)
         ∧ re_compile (word_pattern short_name) = Raise re_error).
Proof.
  split_and!.
  - intros Hcompile.
    assert (Forall (λ a, ∃ found, verdict a = Done found) (steps_of b))
      as Hverdicts.
    { apply Forall_forall. intros [code [short_name k]] Hstep.
      apply elem_of_steps_of in Hstep as [Hcode Hentry]. simpl in *.
      destruct Hcompile as [Hnone | Hcompile].
      - rewrite Hnone in Hcode. by apply elem_of_nil in Hcode.
      - by apply (verdict_compiles (code, (short_name, k))), (Hcompile _ k). }
    eexists {| all_api_classes := _; all_code_blocks := all_code_blocks b |}, _.
    apply finish_Done. split_and!; [|done..]. by apply link_Done.
  - intros b' out [Hlink _]%finish_Done.
    apply link_Done in Hlink as [_ Hverdicts].
    destruct (collected_code b) as [|code codes] eqn:Hcodes; [by left|].
    right. intros short_name k Hentry Hraise.
    rewrite Forall_forall in Hverdicts.
    destruct (Hverdicts (code, (short_name, k))) as [found Hfound].
    { apply elem_of_steps_of. rewrite Hcodes. split; [by left | done]. }
    apply (verdict_Raise (code, (short_name, k))) in Hraise. congruence.
  - intros Hraise.
    assert (link b = Raise re_error) as Hlink.
    { unfold finish in Hraise.
      destruct (link b) as [linked|e]; simpl in Hraise; [done|].
      by injection Hraise as ->. }
    unfold link in Hlink. rewrite link_document_steps in Hlink.
    apply for_each_steps_Raise in Hlink as ([code [short_name k]] & Hstep & Ha).
    apply (elem_of_steps_of b) in Hstep as [Hcode Hentry]. simpl in *.
    split.
    + intros Hnone. rewrite Hnone in Hcode. by apply elem_of_nil in Hcode.
    + exists short_name, k. split; [done|].
      by apply (verdict_Raise (code, (short_name, k))).
Qed.

(** ** The examples of one record *)

(** Whether the pattern of a short name is found in a code block. *)
Definition mentions (short_name code : text) : bool :=
  match re_search (word_pattern short_name) code with
  | Done true => true
  | _ => false
  end.

(** [if code not in examples: examples.append(code)], on the examples
    alone. *)
Definition add_example (ex : list text) (code : text) : list text :=
  if bool_decide (code ∈ ex) then ex else ex ++ [code].

Lemma add_example_twice ex code :
  add_example (add_example ex code) code = add_example ex code.
Proof.
  tidy. unfold add_example. destruct (decide (code ∈ ex)) as [Hin | Hout].
  - by rewrite !(bool_decide_eq_true_2 (code ∈ ex)).
  - rewrite (bool_decide_eq_false_2 (code ∈ ex)) by done.
    rewrite bool_decide_eq_true_2; [done|]. apply elem_of_app. right. by left.
Qed.

Lemma apply_step_at (classes : list APIRecord) (a : step) (k : nat) :
  k < length classes →
  examples_at (apply_step classes a) k
  = if bool_decide (a.2.2 = k) && mentions a.2.1 a.1
    then add_example (examples_at classes k) a.1
    else examples_at classes k.
Proof.
  intros [info Hinfo]%lookup_lt_is_Some.
  unfold apply_step, mentions, verdict.
  destruct (re_search (word_pattern a.2.1) a.1) as [[|]|];
    rewrite ?andb_false_r; try done.
  rewrite andb_true_r. unfold examples_at. case_bool_decide as Hk.
  - subst k. rewrite list_lookup_alter_eq, Hinfo. simpl.
    unfold append_example, add_example. by case_bool_decide.
  - by rewrite list_lookup_alter_ne.
Qed.

(** The steps of one code block, seen from the record at [k], whose
    short name [s] is the only one bound to it. *)
Lemma run_code_at (code s : text) (k : nat) (cmap : list (text * nat))
    (classes : list APIRecord) :
  (∀ s', (s', k) ∈ cmap → s' = s) →
  k < length classes →
  examples_at (foldl apply_step classes (pair code <$> cmap)) k
  = if bool_decide ((s, k) ∈ cmap) && mentions s code
    then add_example (examples_at classes k) code
    else examples_at classes k.
Proof.
  revert classes. induction cmap as [|[s' k'] cmap IH]; intros classes Honly Hk.
  - by rewrite (bool_decide_eq_false_2 ((s, k) ∈ []))
      by (by intros ?%elem_of_nil).
  - rewrite fmap_cons. cbn [foldl]. rewrite IH.
    + rewrite apply_step_at by done. simpl.
      destruct (decide (k' = k)) as [-> | Hne].
      * assert (s' = s) as -> by (apply Honly; by left).
        rewrite (bool_decide_eq_true_2 (k = k)) by done.
        rewrite (bool_decide_eq_true_2 ((s, k) ∈ (s, k) :: cmap)) by (by left).
        simpl. destruct (mentions s code); [|by rewrite andb_false_r].
        rewrite andb_true_r. case_bool_decide; [|done].
        apply add_example_twice.
      * rewrite (bool_decide_eq_false_2 (k' = k)) by done. simpl.
        rewrite (bool_decide_ext ((s, k) ∈ (s', k') :: cmap) ((s, k) ∈ cmap));
          [done|].
        split; [|by right].
        intros [[= _ ?] | ?]%elem_of_cons; [done | done].
    + intros s0 Hs0. apply Honly. by right.
    + by rewrite apply_step_length.
Qed.

Lemma run_codes_at (codes : list text) (s : text) (k : nat)
    (cmap : list (text * nat)) (classes : list APIRecord) :
  (s, k) ∈ cmap →
  (∀ s', (s', k) ∈ cmap → s' = s) →
  k < length classes →
  examples_at
    (foldl apply_step classes (codes ≫= λ code, pair code <$> cmap)) k
  = foldl add_example (examples_at classes k)
      (filter (λ code, mentions s code = true) codes).
Proof.
  intros Hin Honly. revert classes.
  induction codes as [|code codes IH]; intros classes Hk; [done|].
  rewrite bind_cons, foldl_app, IH by (by rewrite run_length).
  rewrite (run_code_at code s) by done.
  rewrite (bool_decide_eq_true_2 _ Hin). simpl. rewrite filter_cons.
  destruct (mentions s code); by case_decide.
Qed.

(** X7.  What a record gains does not depend on the other records: after
    [finish], the examples of a record of the lookup are those it had, to
    which the collected code blocks that mention its short name were
    added one after the other, in the order of collection, each unless it
    was there already. *)
Theorem finish_links_each_record_alone (b b' : JSONDataBuilder) (out : json)
    (short_name : text) (k : nat) :
  finish b = Done (b', out) →
  (short_name, k) ∈ class_map (all_api_classes b) →
  examples_at (all_api_classes b') k
  = foldl add_example (examples_at (all_api_classes b) k)
      (filter (λ code, mentions short_name code = true) (collected_code b)).
Proof.
  intros [Hlink _]%finish_Done Hentry.
  apply link_Done in Hlink as [-> _].
  unfold steps_of. rewrite steps_by_code. fold (collected_code b).
  apply run_codes_at; [done | |].
  - intros s' Hs'. by apply (class_map_values_inj (all_api_classes b) s' short_name k).
  - apply class_map_short_name in Hentry as (info & Hinfo & _).
    by eapply lookup_lt_Some.
Qed.

(** ** The code visitor *)

(** The nodes [visit_literal_block] is called for: those whose class is
    [literal_block] itself. *)
Definition is_literal_block (n : node) : bool :=
  match n with
  | Element (exactly k_literal_block) _ _ => true
  | _ => false
  end.

Definition block_texts (D : removed) (nodes : list (path * node)) : list text :=
  (λ pn, astext D pn.1 pn.2)
    <$> filter (λ pn, is_literal_block pn.2 = true) nodes.

(** The texts of the literal blocks of a tree, in document order. *)
Definition literal_block_texts (D : removed) (p : path) (n : node) : list text :=
  block_texts D (traverse D p n).

Lemma block_texts_app D l1 l2 :
  block_texts D (l1 ++ l2) = block_texts D l1 ++ block_texts D l2.
Proof. unfold block_texts. by rewrite filter_app, fmap_app. Qed.

Lemma code_dispatch_visit D p n (v : CodeBlockVisitor) :
  dispatch_visit D p n v
  = ({| code_blocks := code_blocks v ++ block_texts D [(p, n)] |}, D).
Proof.
  destruct v as [blocks].
  destruct n as [t | [[]|base] a cs]; cbn; by rewrite ?app_nil_r.
Qed.

Lemma code_walk_children D p cs :
  Forall (λ c, ∀ q (v : CodeBlockVisitor),
            walkabout q c (v, D)
            = ({| code_blocks := code_blocks v ++ literal_block_texts D q c |}, D))
         cs →
  ∀ i (v : CodeBlockVisitor),
    walk_children D p i cs (v, D)
    = ({| code_blocks :=
            code_blocks v ++ block_texts D (traverse_below D p i cs) |}, D).
Proof.
  induction 1 as [|c cs Hc _ IH]; intros i v; simpl.
  - destruct v. by rewrite app_nil_r.
  - case_bool_decide.
    + by rewrite IH.
    + rewrite Hc, IH. simpl. by rewrite block_texts_app, app_assoc.
Qed.

Lemma code_walkabout n :
  ∀ p (v : CodeBlockVisitor) D,
    walkabout p n (v, D)
    = ({| code_blocks := code_blocks v ++ literal_block_texts D p n |}, D).
Proof.
  induction n as [t | c a cs IH] using node_Forall_ind; intros p v D.
  - rewrite walkabout_Text. cbn. destruct v. by rewrite app_nil_r.
  - rewrite walkabout_Element. cbn zeta.
    rewrite code_dispatch_visit. cbn [fst snd].
    rewrite code_walk_children.
    + cbn [dispatch_departure code_block_visitor fst snd code_blocks].
      unfold literal_block_texts. rewrite traverse_Element.
      change ((p, Element c a cs) :: traverse_below D p 0 cs)
        with ([(p, Element c a cs)] ++ traverse_below D p 0 cs).
      by rewrite block_texts_app, app_assoc.
    + eapply Forall_impl; [exact IH|]. intros child Hchild q v'. apply Hchild.
Qed.

(** X8.  The walk of the code visitor appends to its blocks the texts of
    the literal blocks of the tree, one per node whose class is
    [literal_block] itself, in document order; it takes nothing out of
    the tree. *)
Theorem code_walk_collects_literal_blocks (n : node) (p : path)
    (v : CodeBlockVisitor) (D : removed) :
  code_blocks (walkabout p n (v, D)).1
  = code_blocks v ++ literal_block_texts D p n
  ∧ (walkabout p n (v, D)).2 = D.
Proof. by rewrite code_walkabout. Qed.

(** ** The code blocks of a build *)

(** X9.  A document that is an example and no reference page: its literal
    blocks, as parsed, are stored under its name unless it has none, so
    that a look-up of the name then gives them, and nothing else of the
    builder changes. *)
Theorem write_doc_example_document (docname : text) (doctree : node)
    (self : JSONDataBuilder) :
  is_reference_document docname = false →
  is_example_document docname = true →
  write_doc docname doctree self
  = match literal_block_texts ∅ [] doctree with
    | [] => self
    | _ :: _ =>
        {| all_api_classes := all_api_classes self;
           all_code_blocks :=
             dict_set docname (literal_block_texts ∅ [] doctree)
                      (all_code_blocks self) |}
    end
  ∧ (literal_block_texts ∅ [] doctree ≠ [] →
     dict_get docname (all_code_blocks (write_doc docname doctree self))
     = Some (literal_block_texts ∅ [] doctree)).
Proof.
  intros Href Hex.
  assert (write_doc docname doctree self
          = match literal_block_texts ∅ [] doctree with
            | [] => self
            | _ :: _ =>
                {| all_api_classes := all_api_classes self;
                   all_code_blocks :=
                     dict_set docname (literal_block_texts ∅ [] doctree)
                              (all_code_blocks self) |}
            end) as Hwrite.
  { unfold write_doc. rewrite Href, Hex. cbn [fst snd].
    rewrite code_walkabout. by cbn [fst snd code_blocks new_code_visitor app]. }
  split; [done|].
  rewrite Hwrite. destruct (literal_block_texts ∅ [] doctree); [done|].
  intros _. apply dict_get_set_eq.
Qed.

(** The tree as the API visitor leaves it, which is the tree the code
    visitor walks: the nodes taken out of a reference page. *)
Definition store_after_api (docname : text) (doctree : node) : removed :=
  if is_reference_document docname
  then (walkabout [] doctree (new_api_visitor, ∅)).2
  else ∅.

(** The code blocks [write_doc] finds in a document. *)
Definition document_code_blocks (docname : text) (doctree : node) : list text :=
  literal_block_texts (store_after_api docname doctree) [] doctree.

Lemma write_doc_code_blocks (docname : text) (doctree : node)
    (self : JSONDataBuilder) :
  all_code_blocks (write_doc docname doctree self)
  = if is_example_document docname then
      match document_code_blocks docname doctree with
      | [] => all_code_blocks self
      | _ :: _ =>
          dict_set docname (document_code_blocks docname doctree)
                   (all_code_blocks self)
      end
    else all_code_blocks self.
Proof.
  unfold write_doc, document_code_blocks, store_after_api.
  set (s1 := if is_reference_document docname then _ else _).
  assert (all_code_blocks s1.1 = all_code_blocks self
          ∧ s1.2 = if is_reference_document docname
                   then (walkabout [] doctree (new_api_visitor, ∅)).2
                   else ∅) as [Hblocks ->].
  { unfold s1. destruct (is_reference_document docname); [|done].
    cbn [fst snd]. split; [|done]. by destruct (data _). }
  clearbody s1.
  destruct (is_example_document docname); [|done].
  rewrite code_walkabout. cbn [fst code_blocks new_code_visitor app].
  destruct (literal_block_texts _ _ _); simpl; by rewrite Hblocks.
Qed.

(** X10.  The last write wins: after [write_doc], a look-up of the name
    of the document gives the code blocks just found in it, when it is an
    example document and has some; otherwise what was stored under that
    name stays, and so does, in every case, what is stored under any
    other name. *)
Theorem write_doc_last_write_wins (docname : text) (doctree : node)
    (self : JSONDataBuilder) (other : text) :
  dict_get other (all_code_blocks (write_doc docname doctree self))
  = if bool_decide (other = docname) && is_example_document docname
       && bool_decide (document_code_blocks docname doctree ≠ [])
    then Some (document_code_blocks docname doctree)
    else dict_get other (all_code_blocks self).
Proof.
  rewrite write_doc_code_blocks.
  destruct (is_example_document docname);
    [|by rewrite andb_false_r].
  rewrite andb_true_r.
  destruct (document_code_blocks docname doctree) as [|code codes] eqn:Hblocks.
  - rewrite (bool_decide_eq_false_2 ([] ≠ [])) by (by intros Hne).
    by rewrite andb_false_r.
  - rewrite (bool_decide_eq_true_2 (code :: codes ≠ [])) by done.
    rewrite andb_true_r. case_bool_decide as Hother.
    + subst other. apply dict_get_set_eq.
    + apply dict_get_set_ne. congruence.
Qed.

Lemma collect_snoc (docs : list (text * node)) (doc : text * node) :
  collect (docs ++ [doc]) = write_doc doc.1 doc.2 (collect docs).
Proof. unfold collect. by rewrite foldl_app. Qed.

(** What is stored for a document name: the code blocks of a document
    of that name, which is an example document and has some. *)
Definition stored_blocks (docs : list (text * node)) (entry : text * list text)
  : Prop :=
  entry.2 ≠ []
  ∧ is_example_document entry.1 = true
  ∧ ∃ doctree, (entry.1, doctree) ∈ docs
      ∧ entry.2 = document_code_blocks entry.1 doctree.

Lemma stored_blocks_snoc docs doc entry :
  stored_blocks docs entry → stored_blocks (docs ++ [doc]) entry.
Proof.
  intros (? & ? & doctree & ? & ?). split_and!; [done..|].
  exists doctree. split; [|done]. apply elem_of_app. by left.
Qed.

Lemma collect_code_blocks_invariant (docs : list (text * node)) :
  NoDup (all_code_blocks (collect docs)).*1
  ∧ (all_code_blocks (collect docs)).*1 `sublist_of` docs.*1
  ∧ Forall (stored_blocks docs) (all_code_blocks (collect docs)).
Proof.
  induction docs as [|doc docs (Hnodup & Hsub & Hentries)] using rev_ind.
  - split_and!; [apply NoDup_nil_2 | done | done].
  - assert (Forall (stored_blocks (docs ++ [doc]))
              (all_code_blocks (collect docs))) as Hkept.
    { eapply Forall_impl; [exact Hentries|].
      intros entry. apply stored_blocks_snoc. }
    rewrite collect_snoc, fmap_app, write_doc_code_blocks.
    destruct (is_example_document doc.1) eqn:Hex;
      [|split_and!; [done | by apply sublist_inserts_r | done]].
    destruct (document_code_blocks doc.1 doc.2) as [|code codes] eqn:Hblocks;
      [split_and!; [done | by apply sublist_inserts_r | done]|].
    split_and!.
    + by apply dict_set_keys_NoDup.
    + rewrite dict_set_keys. case_bool_decide.
      * by apply sublist_inserts_r.
      * by apply sublist_app.
    + apply Forall_forall. intros entry [-> | Hentry]%dict_set_elem.
      * split_and!; [done..|]. exists doc.2. split; [|done].
        apply elem_of_app. right. destruct doc. by left.
      * rewrite Forall_forall in Hkept. by apply Hkept.
Qed.

(** X11.  The code blocks of a build are stored under pairwise distinct
    document names, which come in the order in which the documents were
    written; what is stored under a name is never empty: it is the list
    of the code blocks of a document of that name, which is an example
    document. *)
Theorem collect_code_blocks_entries (docs : list (text * node)) :
  NoDup (all_code_blocks (collect docs)).*1
  ∧ (all_code_blocks (collect docs)).*1 `sublist_of` docs.*1
  ∧ ∀ docname blocks,
      dict_get docname (all_code_blocks (collect docs)) = Some blocks →
      stored_blocks docs (docname, blocks).
Proof.
  destruct (collect_code_blocks_invariant docs) as (Hnodup & Hsub & Hentries).
  split_and!; [done..|]. intros docname blocks Hget.
  apply dict_elem_get in Hget; [|done].
  rewrite Forall_forall in Hentries. by apply Hentries.
Qed.

(** X12.  When no two documents of the build have the same name, the code
    blocks stored are, in the order of the documents, those of every
    example document that has some, each under the name of its document. *)
Theorem collect_code_blocks_distinct_names (docs : list (text * node)) :
  NoDup docs.*1 →
  all_code_blocks (collect docs)
  = omap (λ doc : text * node,
            if is_example_document doc.1 then
              match document_code_blocks doc.1 doc.2 with
              | [] => None
              | _ :: _ => Some (doc.1, document_code_blocks doc.1 doc.2)
              end
            else None) docs.
Proof.
  induction docs as [|doc docs IH] using rev_ind; [done|].
  rewrite fmap_app. intros [Hnodup [Hfresh _]]%NoDup_app.
  rewrite collect_snoc, write_doc_code_blocks, omap_app. simpl.
  rewrite <- IH by done.
  destruct (is_example_document doc.1); [|by rewrite app_nil_r].
  destruct (document_code_blocks doc.1 doc.2) as [|code codes];
    [by rewrite app_nil_r|].
  apply dict_set_fresh. intros Hkey.
  destruct (collect_code_blocks_invariant docs) as (_ & Hsub & _).
  apply (Hfresh doc.1); [|by left].
  by eapply elem_of_sublist.
Qed.

(** ** The open class of the API visitor *)

(** Whether a node is, or holds, the description of a class. *)
Fixpoint has_class_desc (n : node) : bool :=
  is_desc n && is_class_desc n ||
  match n with
  | Text _ => false
  | Element _ _ cs => existsb has_class_desc cs
  end.

Lemma dispatch_keeps_current_class D p n (self : APIDataVisitor) :
  is_desc n && is_class_desc n = false →
  current_class (dispatch_visit D p n self).1 = current_class self
  ∧ current_class (dispatch_departure D p n self).1 = current_class self.
Proof.
  tidy. intros Hn. destruct n as [t | [[]|base] a cs]; try done.
  - simpl in Hn. cbn [dispatch_visit dispatch_departure api_data_visitor fst].
    unfold visit_desc, depart_desc. by rewrite Hn.
  - split; [|done]. apply visit_field_outline.
Qed.

Lemma departure_closes_class D p n (self : APIDataVisitor) :
  is_desc n && is_class_desc n = true →
  current_class (dispatch_departure D p n self).1 = None.
Proof.
  tidy. intros Hn. destruct n as [t | [[]|base] a cs]; try done.
  simpl in Hn. cbn [dispatch_departure api_data_visitor fst].
  unfold depart_desc. by rewrite Hn.
Qed.

Lemma walk_children_current_class D1 p cs :
  Forall (λ c, ∀ q (s : APIDataVisitor * removed),
            (current_class (walkabout q c s).1 = current_class s.1
             ∨ current_class (walkabout q c s).1 = None)
            ∧ (has_class_desc c = false →
               current_class (walkabout q c s).1 = current_class s.1)) cs →
  ∀ i (s : APIDataVisitor * removed),
    (current_class (walk_children D1 p i cs s).1 = current_class s.1
     ∨ current_class (walk_children D1 p i cs s).1 = None)
    ∧ (existsb has_class_desc cs = false →
       current_class (walk_children D1 p i cs s).1 = current_class s.1).
Proof.
  tidy. induction 1 as [|c cs Hc _ IH]; intros i s; simpl; [by split; [left|]|].
  case_bool_decide.
  - destruct (IH (S i) s) as [Hany Hnone]. split; [done|].
    intros [_ Hcs]%orb_false_elim. by apply Hnone.
  - destruct (Hc (p ++ [i]) s) as [Hc_any Hc_none].
    destruct (IH (S i) (walkabout (p ++ [i]) c s)) as [Hany Hnone]. split.
    + destruct Hany as [-> | ->]; [done | by right].
    + intros [Hhere Hcs]%orb_false_elim. rewrite Hnone, Hc_none; done.
Qed.

Lemma walkabout_current_class n :
  ∀ p (s : APIDataVisitor * removed),
    (current_class (walkabout p n s).1 = current_class s.1
     ∨ current_class (walkabout p n s).1 = None)
    ∧ (is_desc n && is_class_desc n = true →
       current_class (walkabout p n s).1 = None)
    ∧ (has_class_desc n = false →
       current_class (walkabout p n s).1 = current_class s.1).
Proof.
  tidy. induction n as [t | c a cs IH] using node_Forall_ind; intros p s.
  - rewrite walkabout_Text. by split_and!; [left|..].
  - rewrite walkabout_Element. cbn zeta.
    set (s1 := dispatch_visit s.2 p (Element c a cs) s.1).
    assert (Forall (λ c, ∀ q (s : APIDataVisitor * removed),
              (current_class (walkabout q c s).1 = current_class s.1
               ∨ current_class (walkabout q c s).1 = None)
              ∧ (has_class_desc c = false →
                 current_class (walkabout q c s).1 = current_class s.1)) cs)
      as Hchildren.
    { eapply Forall_impl; [exact IH|]. intros child Hchild q s0.
      destruct (Hchild q s0) as (? & _ & ?). by split. }
    destruct (walk_children_current_class s1.2 p cs Hchildren 0 s1)
      as [Hany Hnone].
    set (s2 := walk_children s1.2 p 0 cs s1) in *. clearbody s2.
    destruct (is_desc (Element c a cs) && is_class_desc (Element c a cs))
      eqn:Hn.
    + rewrite (departure_closes_class _ _ _ _ Hn).
      split_and!; [by right | done |].
      cbn [has_class_desc]. by rewrite Hn.
    + destruct (dispatch_keeps_current_class s2.2 p _ s2.1 Hn) as [_ ->].
      destruct (dispatch_keeps_current_class s.2 p _ s.1 Hn) as [Hvisit _].
      fold s1 in Hvisit. rewrite Hvisit in Hany, Hnone.
      split_and!; [done.. |].
      cbn [has_class_desc]. rewrite Hn. apply Hnone.
Qed.

(** X13.  A walk never leaves a class open that it has entered: once the
    walk of a node is over, the open class is the one there was before,
    or none; it is none after the description of a class, and it is the
    one there was before when the node holds no description of a class.
    So a field that follows the description of a class, and is not part
    of one, records nothing. *)
Theorem walk_closes_class (n : node) (p : path)
    (s : APIDataVisitor * removed) :
  (current_class (walkabout p n s).1 = current_class s.1
   ∨ current_class (walkabout p n s).1 = None)
  ∧ (is_desc n && is_class_desc n = true →
     current_class (walkabout p n s).1 = None
     ∧ ∀ D q field,
         visit_field D q field (walkabout p n s).1 = ((walkabout p n s).1, D))
  ∧ (has_class_desc n = false →
     current_class (walkabout p n s).1 = current_class s.1).
Proof.
  destruct (walkabout_current_class n p s) as (Hany & Hclass & Hnone).
  split_and!; [done | | done].
  intros Hn. split; [by apply Hclass|].
  intros D q field. unfold visit_field. by rewrite (Hclass Hn).
Qed.

(** ** What a walk does to the records *)

(** A record is extended when nothing of it has changed but the
    parameters, which have only gained items at the end. *)
Definition extended (info info' : APIRecord) : Prop :=
  outline info' = outline info
  ∧ parameters info `prefix_of` parameters info'.

(** A list of records grows when each of its records is extended, in
    place, and records are added at the end only. *)
Definition grows (l l' : list APIRecord) : Prop :=
  ∃ kept more, l' = kept ++ more ∧ Forall2 extended l kept.

Lemma extended_refl info : extended info info.
Proof. tidy. by split. Qed.

Lemma extended_trans info1 info2 info3 :
  extended info1 info2 → extended info2 info3 → extended info1 info3.
Proof.
  tidy. intros [Ho1 Hp1] [Ho2 Hp2]. split; [congruence | by etrans].
Qed.

Lemma grows_refl l : grows l l.
Proof.
  tidy. exists l, []. split; [by rewrite app_nil_r|].
  apply Forall2_same_length_lookup. split; [done|].
  intros i x y ? ?. simplify_eq. apply extended_refl.
Qed.

Lemma grows_trans l1 l2 l3 : grows l1 l2 → grows l2 l3 → grows l1 l3.
Proof.
  tidy. intros (kept1 & more1 & -> & H1) (kept2 & more2 & -> & H2).
  apply Forall2_app_inv_l in H2 as (k2 & m2 & Hk2 & Hm2 & ->).
  exists k2, (m2 ++ more2). split; [by rewrite app_assoc|].
  eapply Forall2_trans; [|exact H1|exact Hk2].
  intros ? ? ?. apply extended_trans.
Qed.

Lemma grows_app l more : grows l (l ++ more).
Proof.
  tidy. exists l, more. split; [done|].
  destruct (grows_refl l) as (kept & more' & Heq & Hkept).
  apply Forall2_same_length_lookup. split; [done|].
  intros i x y ? ?. simplify_eq. apply extended_refl.
Qed.

Lemma grows_append_parameter cur q (self : APIDataVisitor) :
  grows (data self) (data (append_parameter cur q self)).
Proof.
  tidy. exists (data (append_parameter cur q self)), [].
  split; [by rewrite app_nil_r|]. simpl.
  apply Forall2_same_length_lookup. split; [by rewrite length_alter|].
  intros i x y Hx Hy.
  destruct (decide (cur = i)) as [->|Hne].
  - rewrite list_lookup_alter_eq, Hx in Hy. simplify_eq/=.
    split; [done | by apply prefix_app_r].
  - rewrite list_lookup_alter_ne, Hx in Hy by done. simplify_eq.
    apply extended_refl.
Qed.

Lemma grows_visit_list_item cur s item :
  grows (data s.1) (data (visit_list_item cur s item).1).
Proof.
  tidy. unfold visit_list_item.
  destruct (first_instance k_paragraph _ _ _) as [[pp para]|];
    [|apply grows_refl].
  cbn zeta. destruct (match first_instance k_strong _ _ _ with
                      | Some _ => _ | None => _ end) as [|c name];
    [apply grows_refl | apply grows_append_parameter].
Qed.

Lemma grows_visit_field D p n (self : APIDataVisitor) :
  grows (data self) (data (visit_field D p n self).1).
Proof.
  tidy. unfold visit_field.
  destruct (current_class self) as [cur|]; [|apply grows_refl].
  destruct (node_children D p n) as [|label [|body [|]]]; try apply grows_refl.
  destruct (str_contains _ _); [|apply grows_refl].
  generalize (traverse_class k_list_item D body.1 body.2).
  intros items.
  assert (∀ s0 : APIDataVisitor * removed,
            grows (data self) (data s0.1) →
            grows (data self) (data (foldl (visit_list_item cur) s0 items).1))
    as Hfold; [|apply Hfold, grows_refl].
  induction items as [|item items IH]; intros s0 Hs0; [done|].
  simpl. apply IH. eapply grows_trans; [exact Hs0|].
  apply grows_visit_list_item.
Qed.

Lemma grows_dispatch_visit D p n (self : APIDataVisitor) :
  grows (data self) (data (dispatch_visit D p n self).1).
Proof.
  tidy. destruct n as [t | [[]|base] a cs]; try apply grows_refl.
  - cbn [dispatch_visit api_data_visitor fst].
    rewrite visit_desc_data. apply grows_app.
  - apply grows_visit_field.
Qed.

(** X14.  A walk of the API visitor only adds: the records there were are
    still there, at their places, each with the class name, signature,
    description and examples it had, and with the parameters it had
    followed by the ones it has gained; new records come after them. *)
Theorem api_walk_grows (n : node) (p : path) (s : APIDataVisitor * removed) :
  grows (data s.1) (data (walkabout p n s).1).
Proof.
  apply (walkabout_invariant (λ s', grows (data s.1) (data s'.1))).
  - intros D q m v Hv. eapply grows_trans; [exact Hv|].
    apply grows_dispatch_visit.
  - intros D q m v Hv. by rewrite dispatch_departure_data.
  - apply grows_refl.
Qed.

(** ** What the records of a build hold *)

Lemma Forall_frame (Q : text * text * text * list ParameterRecord → Prop)
    (l l' : list APIRecord) :
  frame <$> l' = frame <$> l →
  Forall (λ info, Q (frame info)) l → Forall (λ info, Q (frame info)) l'.
Proof.
  tidy. intros Heq Hl.
  apply (Forall_fmap frame Q). rewrite Heq. by apply Forall_fmap.
Qed.

Lemma collect_records_Forall (Q : APIRecord → Prop) (docs : list (text * node)) :
  (∀ doctree, Forall Q (api_records doctree)) →
  Forall Q (all_api_classes (collect docs)).
Proof.
  intros Hdoc. rewrite collect_api_classes. apply Forall_bind.
  apply Forall_forall. intros doc _. simpl.
  destruct (is_reference_document doc.1); [apply Hdoc | done].
Qed.

Definition named_parameters (info : APIRecord) : Prop :=
  Forall (λ q, param_name q ≠ []) (parameters info).

Lemma named_visit_list_item cur s item :
  Forall named_parameters (data s.1) →
  Forall named_parameters (data (visit_list_item cur s item).1).
Proof.
  tidy. intros Hs. unfold visit_list_item.
  destruct (first_instance k_paragraph _ _ _) as [[pp para]|]; [|done].
  cbn zeta. destruct (match first_instance k_strong _ _ _ with
                      | Some _ => _ | None => _ end) as [|c name]; [done|].
  simpl. apply Forall_alter; [done|].
  intros info _ Hinfo. unfold named_parameters. simpl.
  apply Forall_app. split; [done|]. by repeat constructor.
Qed.

Lemma named_dispatch_visit D p n (self : APIDataVisitor) :
  Forall named_parameters (data self) →
  Forall named_parameters (data (dispatch_visit D p n self).1).
Proof.
  tidy. intros Hself. destruct n as [t | [[]|base] a cs]; try done.
  - cbn [dispatch_visit api_data_visitor fst]. rewrite visit_desc_data.
    apply Forall_app. split; [done|].
    apply Forall_forall. intros info Hinfo.
    destruct (record_at_fresh D p (Element (exactly k_desc) a cs) info Hinfo)
      as [Hparams _].
    unfold named_parameters. by rewrite Hparams.
  - cbn [dispatch_visit api_data_visitor]. unfold visit_field.
    destruct (current_class self) as [cur|]; [|done].
    destruct (node_children D p _) as [|label [|body [|]]]; try done.
    destruct (str_contains _ _); [|done].
    generalize (traverse_class k_list_item D body.1 body.2). intros items.
    assert (∀ s0 : APIDataVisitor * removed,
              Forall named_parameters (data s0.1) →
              Forall named_parameters
                (data (foldl (visit_list_item cur) s0 items).1))
      as Hfold; [|by apply Hfold].
    induction items as [|item items IH]; intros s0 Hs0; [done|].
    simpl. by apply IH, named_visit_list_item.
Qed.

Lemma api_records_named doctree :
  Forall named_parameters (api_records doctree).
Proof.
  tidy. unfold api_records.
  apply (walkabout_invariant
           (λ s' : APIDataVisitor * removed, Forall named_parameters (data s'.1))).
  - intros D q m v. apply named_dispatch_visit.
  - intros D q m v Hv. by rewrite dispatch_departure_data.
  - done.
Qed.

(** X15.  No parameter without a name is ever written: in the records of
    a build, as [finish] returns them, every parameter has a name that is
    not empty. *)
Theorem build_parameters_named (docs : list (text * node))
    (b' : JSONDataBuilder) (out : json) :
  build docs = Done (b', out) →
  ∀ info q,
    info ∈ all_api_classes b' → q ∈ parameters info → param_name q ≠ [].
Proof.
  intros Hbuild info q Hinfo Hq. unfold build in Hbuild.
  pose proof (finish_keeps_frame _ _ _ Hbuild) as Hframe.
  pose proof (collect_records_Forall named_parameters docs api_records_named)
    as Hcollected.
  apply (Forall_frame (λ f, Forall (λ q, param_name q ≠ []) f.2) _ _ Hframe)
    in Hcollected.
  rewrite Forall_forall in Hcollected. specialize (Hcollected info Hinfo).
  simpl in Hcollected. rewrite Forall_forall in Hcollected. by apply Hcollected.
Qed.

(** A text is a single line when it neither starts nor ends with white
    space and holds no white space but spaces. *)
Definition single_line (t : text) : Prop :=
  no_space_at_ends t ∧ ∀ c, c ∈ t → is_space c = true → c = chr_space.

Lemma collapse_spaces_from_space in_run s c :
  c ∈ collapse_spaces_from in_run s → is_space c = true → c = chr_space.
Proof.
  tidy. revert in_run. induction s as [|d s IH]; intros in_run; simpl.
  - by intros ?%elem_of_nil.
  - destruct (is_space d) eqn:Hd.
    + intros [Hc | Hc]%elem_of_app; [|by eapply IH].
      destruct in_run; [by apply elem_of_nil in Hc|].
      by apply list_elem_of_singleton in Hc.
    + intros [-> | Hc]%elem_of_cons; [congruence | by eapply IH].
Qed.

Lemma str_remove_from_elem old skip s c :
  c ∈ str_remove_from old skip s → c ∈ s.
Proof.
  tidy. revert skip. induction s as [|d s IH]; intros skip; simpl; [done|].
  destruct skip as [|skip].
  - destruct (is_prefix old (d :: s)).
    + intros ?%IH. by right.
    + intros [-> | ?%IH]%elem_of_cons; [by left | by right].
  - intros ?%IH. by right.
Qed.

Lemma single_line_normalised old t :
  single_line (str_strip (str_remove old (collapse_spaces t))).
Proof.
  tidy.
  destruct (str_strip_spec (str_remove old (collapse_spaces t)))
    as (l1 & l2 & Heq & _ & _ & Hends).
  split; [done|]. intros c Hc.
  apply (collapse_spaces_from_space false t).
  apply (str_remove_from_elem old 0).
  change (c ∈ str_remove old (collapse_spaces t)).
  rewrite Heq. apply elem_of_app. right. apply elem_of_app. by left.
Qed.

Lemma record_at_signature D p n info :
  info ∈ record_at D p n → single_line (signature info).
Proof.
  tidy. unfold record_at. destruct n as [t | [[]|base] a cs];
    try (by intros ?%elem_of_nil).
  cbn [dispatch_visit api_data_visitor fst]. unfold visit_desc.
  destruct (is_class_desc _); [|by intros ?%elem_of_nil].
  destruct (first_instance k_desc_signature _ _ _) as [[sp sig_node]|];
    [|by intros ?%elem_of_nil].
  simpl. intros ->%list_elem_of_singleton. apply single_line_normalised.
Qed.

Lemma api_records_signature doctree :
  Forall (λ info, single_line (signature info)) (api_records doctree).
Proof.
  tidy. unfold api_records.
  apply (walkabout_invariant
           (λ s' : APIDataVisitor * removed,
              Forall (λ info, single_line (signature info)) (data s'.1))).
  - intros D q m v Hv.
    apply (Forall_fmap outline (λ o, single_line o.1.1.2)).
    rewrite dispatch_visit_outline, fmap_app. apply Forall_app. split.
    + by apply Forall_fmap.
    + apply Forall_fmap, Forall_forall. intros info Hinfo.
      by apply (record_at_signature D q m).
  - intros D q m v Hv. by rewrite dispatch_departure_data.
  - done.
Qed.

(** X16.  Every signature written is a single line: in the records of a
    build, as [finish] returns them, the signature neither starts nor
    ends with white space, and the only white space in it is the space
    character. *)
Theorem build_signatures_single_line (docs : list (text * node))
    (b' : JSONDataBuilder) (out : json) :
  build docs = Done (b', out) →
  ∀ info, info ∈ all_api_classes b' → single_line (signature info).
Proof.
  intros Hbuild info Hinfo. unfold build in Hbuild.
  pose proof (finish_keeps_frame _ _ _ Hbuild) as Hframe.
  pose proof (collect_records_Forall _ docs api_records_signature)
    as Hcollected.
  apply (Forall_frame (λ f, single_line f.1.1.2) _ _ Hframe) in Hcollected.
  rewrite Forall_forall in Hcollected. by apply Hcollected.
Qed.

(** ** The open class is the last record *)

Definition open_class_is_last (v : APIDataVisitor) : Prop :=
  ∀ cur, current_class v = Some cur → S cur = length (data v).

Lemma open_class_dispatch_visit D p n (self : APIDataVisitor) :
  open_class_is_last self → open_class_is_last (dispatch_visit D p n self).1.
Proof.
  tidy. intros Hself. destruct n as [t | [[]|base] a cs]; try done.
  - cbn [dispatch_visit api_data_visitor fst]. unfold visit_desc.
    destruct (is_class_desc _); [|done].
    destruct (first_instance k_desc_signature _ _ _) as [[sp sig_node]|];
      [|done].
    intros cur [= <-]. simpl. rewrite length_app. simpl. lia.
  - cbn [dispatch_visit api_data_visitor].
    destruct (visit_field_outline D p (Element (exactly k_field) a cs) self)
      as [Houtline Hcurrent].
    intros cur Hcur. rewrite Hcurrent in Hcur.
    apply (f_equal length) in Houtline. rewrite !length_fmap in Houtline.
    rewrite Houtline. by apply Hself.
Qed.

Lemma open_class_dispatch_departure D p n (self : APIDataVisitor) :
  open_class_is_last self →
  open_class_is_last (dispatch_departure D p n self).1.
Proof.
  tidy. intros Hself. destruct n as [t | [[]|base] a cs]; try done.
  cbn [dispatch_departure api_data_visitor fst]. unfold depart_desc.
  by destruct (is_class_desc _).
Qed.

(** X17.  Parameters go to the record made last: all along a walk that
    starts with no open class, or with the last record open, the open
    class is the last of the records. *)
Theorem open_class_stays_last (n : node) (p : path)
    (s : APIDataVisitor * removed) :
  open_class_is_last s.1 → open_class_is_last (walkabout p n s).1.
Proof.
  apply (walkabout_invariant
           (λ s' : APIDataVisitor * removed, open_class_is_last s'.1)).
  - intros D q m v. apply open_class_dispatch_visit.
  - intros D q m v. apply open_class_dispatch_departure.
Qed.

(** ** The nodes the API visitor takes out *)

Lemma traverse_below_store D p i cs (pn : path * node) :
  Forall (λ c, ∀ q, pn ∈ traverse D q c → pn ∈ traverse ∅ q c) cs →
  pn ∈ traverse_below D p i cs → pn ∈ traverse_below ∅ p i cs.
Proof.
  tidy. intros Hcs. revert i.
  induction Hcs as [|c cs Hc _ IH]; intros i; simpl; [done|].
  rewrite (bool_decide_eq_false_2 (p ++ [i] ∈ (∅ : removed))) by set_solver.
  intros [Hin | Hin]%elem_of_app; apply elem_of_app; [left | right; by apply IH].
  case_bool_decide; [by apply elem_of_nil in Hin | by apply Hc].
Qed.

(** What is in the tree after nodes were taken out was in the tree as
    parsed. *)
Lemma traverse_store D n :
  ∀ (p : path) (pn : path * node),
    pn ∈ traverse D p n → pn ∈ traverse ∅ p n.
Proof.
  tidy. induction n as [t | c a cs IH] using node_Forall_ind; intros p pn.
  - done.
  - rewrite !traverse_Element.
    intros [-> | Hin]%elem_of_cons; [by left|]. right.
    apply (traverse_below_store D); [|done].
    eapply Forall_impl; [exact IH|]. intros child Hchild q. apply Hchild.
Qed.

Lemma traverse_below_within p i cs (pn pn' : path * node) :
  Forall (λ c, ∀ q, pn ∈ traverse ∅ q c → pn' ∈ traverse ∅ q c) cs →
  pn ∈ traverse_below ∅ p i cs → pn' ∈ traverse_below ∅ p i cs.
Proof.
  tidy. intros Hcs. revert i.
  induction Hcs as [|c cs Hc _ IH]; intros i; simpl;
    [by intros ?%elem_of_nil|].
  rewrite (bool_decide_eq_false_2 (p ++ [i] ∈ (∅ : removed))) by set_solver.
  intros [Hin | Hin]%elem_of_app; apply elem_of_app;
    [left; by apply Hc | right; by apply IH].
Qed.

(** The nodes of a subtree are nodes of the tree. *)
Lemma traverse_within n :
  ∀ (p : path) (pn pn' : path * node),
    pn ∈ traverse ∅ p n → pn' ∈ traverse ∅ pn.1 pn.2 → pn' ∈ traverse ∅ p n.
Proof.
  tidy. induction n as [t | c a cs IH] using node_Forall_ind;
    intros p pn pn'.
  - simpl. by intros ->%list_elem_of_singleton.
  - rewrite traverse_Element.
    intros [-> | Hin]%elem_of_cons Hsub; [by rewrite <- traverse_Element|].
    right. apply (traverse_below_within p 0 cs pn); [|done].
    eapply Forall_impl; [exact IH|]. intros child Hchild q Hq.
    by apply (Hchild q pn).
Qed.

Lemma children_from_below D p i cs (pn : path * node) :
  pn ∈ children_from D p i cs → pn ∈ traverse_below ∅ p i cs.
Proof.
  tidy. revert i. induction cs as [|c cs IH]; intros i; simpl;
    [by intros ?%elem_of_nil|].
  rewrite (bool_decide_eq_false_2 (p ++ [i] ∈ (∅ : removed))) by set_solver.
  intros [Hin | Hin]%elem_of_app; apply elem_of_app; [left | right; by apply IH].
  case_bool_decide; [by apply elem_of_nil in Hin|].
  apply list_elem_of_singleton in Hin as ->. destruct c; by left.
Qed.

Lemma node_children_traverse D p n (pn : path * node) :
  pn ∈ node_children D p n → pn ∈ traverse ∅ p n.
Proof.
  tidy. destruct n as [t | c a cs]; [by intros ?%elem_of_nil|].
  cbn [node_children]. intros Hin%children_from_below.
  rewrite traverse_Element. by right.
Qed.

Lemma first_instance_elem k D p n (pn : path * node) :
  first_instance k D p n = Some pn →
  pn ∈ traverse ∅ p n ∧ isinstance pn.2 k = true.
Proof.
  tidy. intros (before & after & Heq & Hk & _)%first_instance_Some.
  split; [|done]. apply (traverse_store D). rewrite Heq.
  apply elem_of_app. right. by left.
Qed.

(** A node at [q] below the node [n] at [p] that is a [strong] or an
    [emphasis] node. *)
Definition tag_below (p : path) (n : node) (q : path) : Prop :=
  ∃ m, (q, m) ∈ traverse ∅ p n
    ∧ (isinstance m k_strong = true ∨ isinstance m k_emphasis = true).

Lemma tag_below_within p n (pn : path * node) q :
  pn ∈ traverse ∅ p n → tag_below pn.1 pn.2 q → tag_below p n q.
Proof.
  tidy. intros Hpn (m & Hm & Hclass). exists m. split; [|done].
  by apply (traverse_within n p pn).
Qed.

Lemma visit_list_item_takes cur s (item : path * node) (q : path) :
  q ∈ (visit_list_item cur s item).2 → q ∈ s.2 ∨ tag_below item.1 item.2 q.
Proof.
  tidy. unfold visit_list_item.
  destruct (first_instance k_paragraph s.2 item.1 item.2) as [[pp para]|]
    eqn:Hpara; [|by intros; left].
  apply first_instance_elem in Hpara as [Hpara _].
  assert (∀ k tag, k = k_strong ∨ k = k_emphasis →
                   first_instance k s.2 pp para = Some tag →
                   tag_below item.1 item.2 tag.1) as Htag.
  { intros k [tp tn] Hk [Hin Hclass]%first_instance_elem.
    apply (tag_below_within _ _ (pp, para)); [done|].
    exists tn. split; [done|]. by destruct Hk as [-> | ->]; [left | right]. }
  destruct (first_instance k_strong s.2 pp para) as [[sp sn]|] eqn:Hs,
           (first_instance k_emphasis s.2 pp para) as [[ep en]|] eqn:He;
    simpl.
  all: try (specialize (Htag k_strong _ (or_introl eq_refl) Hs) as Hsp);
       try (specialize (Htag k_emphasis _ (or_intror eq_refl) He) as Hep);
       simpl in *.
  all: clear Htag; repeat case_match; simpl; set_solver.
Qed.

Lemma visit_field_takes D (p : path) n self (q : path) :
  q ∈ (visit_field D p n self).2 → q ∈ D ∨ tag_below p n q.
Proof.
  tidy. unfold visit_field.
  destruct (current_class self) as [cur|]; [|by intros; left].
  destruct (node_children D p n) as [|label [|body [|??]]] eqn:Hc;
    try by intros; left.
  destruct (str_contains _ _); [|by intros; left].
  assert (body ∈ traverse ∅ p n) as Hbody.
  { apply (node_children_traverse D). rewrite Hc. right. by left. }
  assert (Forall (λ item, item ∈ traverse ∅ p n)
            (traverse_class k_list_item D body.1 body.2)) as Hitems.
  { apply Forall_forall. intros item [_ Hin]%list_elem_of_filter.
    apply (traverse_within n p body); [done|]. by apply (traverse_store D). }
  revert Hitems. generalize (traverse_class k_list_item D body.1 body.2).
  intros items Hitems.
  assert (∀ s, q ∈ (foldl (visit_list_item cur) s items).2 →
               q ∈ s.2 ∨ tag_below p n q) as Hloop.
  { induction Hitems as [|item items Hitem _ IH]; intros s; simpl;
      [by intros; left|].
    intros [Hin|?]%IH; [|by right].
    apply visit_list_item_takes in Hin as [?|Htag]; [by left|].
    right. by apply (tag_below_within p n item). }
  apply (Hloop (self, D)).
Qed.

Definition is_field (n : node) : bool :=
  match n with
  | Element (exactly k_field) _ _ => true
  | _ => false
  end.

(** A [strong] or [emphasis] node at [q], below a field of the tree. *)
Definition tag_of_field (p : path) (n : node) (q : path) : Prop :=
  ∃ field : path * node,
    field ∈ traverse ∅ p n ∧ is_field field.2 = true
    ∧ tag_below field.1 field.2 q.

Lemma api_dispatch_visit_takes D (p : path) n (self : APIDataVisitor)
    (q : path) :
  q ∈ (dispatch_visit D p n self).2 → q ∈ D ∨ tag_of_field p n q.
Proof.
  tidy. destruct n as [t | [[]|base] a cs]; try by intros; left.
  cbn [dispatch_visit api_data_visitor].
  intros [?|Htag]%visit_field_takes; [by left|]. right.
  exists (p, Element (exactly k_field) a cs).
  split_and!; [rewrite traverse_Element; by left | done | done].
Qed.

Lemma api_walk_children_takes D1 p cs (q : path) :
  Forall (λ c, ∀ r (s : APIDataVisitor * removed),
            q ∈ (walkabout r c s).2 → q ∈ s.2 ∨ tag_of_field r c q) cs →
  ∀ i (s0 : APIDataVisitor * removed),
    q ∈ (walk_children D1 p i cs s0).2 →
    q ∈ s0.2
    ∨ ∃ field : path * node,
        field ∈ traverse_below ∅ p i cs ∧ is_field field.2 = true
        ∧ tag_below field.1 field.2 q.
Proof.
  tidy. induction 1 as [|c cs Hc _ IH]; intros i s0; simpl;
    [by intros; left|].
  rewrite (bool_decide_eq_false_2 (p ++ [i] ∈ (∅ : removed))) by set_solver.
  intros [Hin | (field & Hfield & Htag)]%IH.
  - case_bool_decide; [by left|].
    apply Hc in Hin as [?|(field & Hfield & Htag)]; [by left|].
    right. exists field. split; [|done]. apply elem_of_app. by left.
  - right. exists field. split; [|done]. apply elem_of_app. by right.
Qed.

(** X18.  The API visitor takes out of the tree nothing but [strong] and
    [emphasis] nodes that lie below a field: whatever has gone from the
    tree after its walk had gone before, or is such a node of the tree as
    parsed. *)
Theorem api_walk_takes_tags_of_fields (n : node) (p : path)
    (s : APIDataVisitor * removed) (q : path) :
  q ∈ (walkabout p n s).2 → q ∈ s.2 ∨ tag_of_field p n q.
Proof.
  revert p s q.
  induction n as [t | c a cs IH] using node_Forall_ind; intros p s q.
  - rewrite walkabout_Text. cbv zeta. rewrite api_dispatch_departure_store.
    apply api_dispatch_visit_takes.
  - rewrite walkabout_Element. cbv zeta. rewrite api_dispatch_departure_store.
    set (s1 := dispatch_visit s.2 p (Element c a cs) s.1).
    assert (Forall (λ c, ∀ r (s : APIDataVisitor * removed),
              q ∈ (walkabout r c s).2 → q ∈ s.2 ∨ tag_of_field r c q) cs)
      as Hchildren.
    { eapply Forall_impl; [exact IH|]. intros child Hchild r s0.
      apply Hchild. }
    intros [Hin | (field & Hfield & Htag)]%(api_walk_children_takes _ _ _ _ Hchildren).
    + by apply (api_dispatch_visit_takes s.2 p (Element c a cs) s.1).
    + right. exists field. split; [|done].
      rewrite traverse_Element. by right.
Qed.

(** ** Where the examples of a build come from *)

Lemma frame_short_name (info info' : APIRecord) :
  frame info = frame info' → short_name_of info = short_name_of info'.
Proof. tidy. unfold frame, short_name_of. by intros [= -> _ _ _]. Qed.

(** X19.  Every example written comes from the build: an example of a
    record that [finish] returns is a code block of an example document
    of the build, and one in which the pattern of the short name of the
    record is found. *)
Theorem build_examples_are_code_blocks (docs : list (text * node))
    (b' : JSONDataBuilder) (out : json) :
  build docs = Done (b', out) →
  ∀ info code,
    info ∈ all_api_classes b' → code ∈ examples info →
    (∃ docname doctree,
        (docname, doctree) ∈ docs
        ∧ is_example_document docname = true
        ∧ code ∈ document_code_blocks docname doctree)
    ∧ re_search (word_pattern (short_name_of info)) code = Done true.
Proof.
  intros Hbuild info code Hinfo Hcode. unfold build in Hbuild.
  pose proof (finish_keeps_frame _ _ _ Hbuild) as Hframe.
  apply finish_Done in Hbuild as [Hlink _].
  apply link_Done in Hlink as [Hlinked _].
  apply list_elem_of_lookup in Hinfo as [k Hk].
  assert (code ∈ examples_at (all_api_classes b') k) as Hat.
  { unfold examples_at. by rewrite Hk. }
  rewrite Hlinked in Hat.
  apply run_examples in Hat as [Hbefore | (a & Hstep & Hfound & Ha & <- & _)].
  { exfalso. unfold examples_at in Hbefore.
    destruct (all_api_classes (collect docs) !! k) as [info0|] eqn:Hk0;
      [|by apply elem_of_nil in Hbefore].
    pose proof (collect_examples docs) as Hempty.
    rewrite Forall_forall in Hempty.
    rewrite (Hempty info0) in Hbefore by (by eapply list_elem_of_lookup_2).
    by apply elem_of_nil in Hbefore. }
  apply elem_of_steps_of in Hstep as [Hcollected Hentry]. split.
  - apply list_elem_of_bind in Hcollected as (entry & Hin & Hstored).
    destruct (collect_code_blocks_invariant docs) as (_ & _ & Hentries).
    rewrite Forall_forall in Hentries.
    destruct (Hentries entry Hstored) as (_ & Hex & doctree & Hdoc & Hblocks).
    exists entry.1, doctree. split_and!; [done..|]. by rewrite <- Hblocks.
  - destruct a as [code' [short_name k']]. simpl in *. subst k'.
    apply class_map_short_name in Hentry as (info0 & Hk0 & <-).
    assert (frame info = frame info0) as Heq.
    { apply (f_equal (λ l, l !! k)) in Hframe.
      rewrite !list_lookup_fmap, Hk, Hk0 in Hframe. simpl in Hframe.
      congruence. }
    by rewrite (frame_short_name _ _ Heq).
Qed.

(** ** Names that are identifiers *)

(** X20.  A short name made of word characters (letters, digits and the
    underscore), as an identifier is: the pattern compiles, and it is
    found in a text exactly where the name occurs with no word character
    right before it and none right after it. *)
Theorem identifier_name_search (short_name code : text) :
  short_name ≠ [] →
  forallb is_word short_name = true →
  ∃ found,
    re_search (word_pattern short_name) code = Done found
    ∧ (found = true
       ↔ ∃ pre post,
           code = pre ++ short_name ++ post
           ∧ is_word_opt (last pre) = false
           ∧ is_word_opt (head post) = false).
Proof.
  tidy.
  intros Hne Hword.
  destruct (re_search_word_pattern short_name code (word_name_plain _ Hword))
    as (found & Hsearch & Hfound).
  exists found. split; [done|]. rewrite Hfound. clear Hfound Hsearch.
  assert (is_word_opt (head short_name) = true) as Hhead.
  { destruct short_name as [|c s]; [done|]. simpl in *.
    by apply andb_prop in Hword as [-> _]. }
  assert (is_word_opt (last short_name) = true) as Hlast.
  { destruct (last short_name) as [c|] eqn:Hc;
      [|by apply last_None in Hc].
    apply last_Some_elem_of in Hc. simpl.
    apply Is_true_true, forallb_True in Hword.
    rewrite Forall_forall in Hword. by apply Is_true_true, Hword. }
  assert (∀ pre post,
            (word_boundary pre (short_name ++ post)
             ∧ word_boundary (pre ++ short_name) post)
            ↔ (is_word_opt (last pre) = false
               ∧ is_word_opt (head post) = false)) as Hsides.
  { intros pre post. unfold word_boundary.
    assert (head (short_name ++ post) = head short_name) as ->.
    { by destruct short_name. }
    assert (last (pre ++ short_name) = last short_name) as ->.
    { rewrite last_app. destruct (last short_name) eqn:Hc; [done|].
      by apply last_None in Hc. }
    rewrite Hhead, Hlast.
    destruct (is_word_opt (last pre)), (is_word_opt (head post)); naive_solver. }
  unfold occurs_as_word. split.
  - intros (pre & post & -> & Hsides'). exists pre, post.
    split; [done|]. by apply Hsides.
  - intros (pre & post & -> & Hsides'). exists pre, post.
    split; [done|]. by apply Hsides.
Qed.

(** X21.  When every class name is a dotted name, made of word characters
    and dots, [finish] returns: no such name gives a pattern that does
    not compile. *)
Theorem dotted_names_finish_returns (b : JSONDataBuilder) :
  (∀ info c,
     info ∈ all_api_classes b → c ∈ class_name info →
     is_word c = true ∨ c = chr_dot) →
  ∃ b' out, finish b = Done (b', out).
Proof.
  intros Hdotted. apply finish_total. unfold plain_names.
  apply Forall_forall. intros info Hinfo. apply word_name_plain.
  apply Is_true_true, forallb_True, Forall_forall. intros c Hc.
  apply Is_true_true.
  destruct (short_name_of_last info) as (front & _ & Hdot & Hname).
  destruct (Hdotted info c Hinfo) as [Hword | ->]; [|done|done].
  destruct Hname as [[_ ->] | (_ & pre & ->)]; [done|].
  apply elem_of_app. right. by right.
Qed.

(** ** The parameters a field adds *)

Definition add_parameters (new : list ParameterRecord) (info : APIRecord)
  : APIRecord :=
  with_parameters info (parameters info ++ new).

Lemma add_parameters_nil cur (l : list APIRecord) :
  alter (add_parameters []) cur l = l.
Proof.
  tidy. apply list_alter_id. intros [].
  unfold add_parameters, with_parameters. simpl. by rewrite app_nil_r.
Qed.

Lemma add_parameters_cons q new cur (l : list APIRecord) :
  alter (add_parameters new) cur (alter (add_parameters [q]) cur l)
  = alter (add_parameters (q :: new)) cur l.
Proof.
  tidy. rewrite list_alter_alter_eq. apply list_alter_ext; [|done].
  intros info _. unfold add_parameters, with_parameters. simpl.
  by rewrite <- app_assoc.
Qed.

Lemma visit_list_item_adds cur s item :
  ∃ new,
    data (visit_list_item cur s item).1 = alter (add_parameters new) cur (data s.1)
    ∧ length new ≤ 1
    ∧ Forall (λ q, param_name q ≠ []) new.
Proof.
  tidy. unfold visit_list_item.
  destruct (first_instance k_paragraph _ _ _) as [[pp para]|];
    [|exists []; rewrite add_parameters_nil; split_and!; [done | simpl; lia | done]].
  cbn zeta. destruct (match first_instance k_strong _ _ _ with
                      | Some _ => _ | None => _ end) as [|c name];
    [exists []; rewrite add_parameters_nil; split_and!; [done | simpl; lia | done]|].
  eexists [_]. split_and!; [done | simpl; lia |]. by repeat constructor.
Qed.

Lemma visit_list_items_add cur items :
  ∀ s : APIDataVisitor * removed,
    ∃ new,
      data (foldl (visit_list_item cur) s items).1
      = alter (add_parameters new) cur (data s.1)
      ∧ length new ≤ length items
      ∧ Forall (λ q, param_name q ≠ []) new.
Proof.
  tidy. induction items as [|item items IH]; intros s.
  - exists []. rewrite add_parameters_nil. split_and!; [done | simpl; lia | done].
  - simpl.
    destruct (IH (visit_list_item cur s item)) as (new & -> & Hlen & Hnamed).
    destruct (visit_list_item_adds cur s item) as (first & -> & Hone & Hfirst).
    destruct first as [|q [|]]; simpl in Hone; [| |lia].
    + rewrite add_parameters_nil. exists new. split_and!; [done | lia | done].
    + rewrite add_parameters_cons. exists (q :: new).
      split_and!; [done | simpl; lia |].
      apply Forall_cons. split; [by apply Forall_cons in Hfirst as [? _] | done].
Qed.

(** X22.  What an accepted field does to the records: the open class
    gains parameters at the end of those it has, at most one for each
    list item of the body of the field and each with a name; no other
    record changes, and nothing else of the open class. *)
Theorem visit_field_adds_parameters (D : removed) (p : path) (field : node)
    (self : APIDataVisitor) (cur : nat) (body : path * node) :
  current_class self = Some cur →
  accepted_field D p field body →
  ∃ new,
    data (visit_field D p field self).1
    = alter (add_parameters new) cur (data self)
    ∧ length new ≤ length (traverse_class k_list_item D body.1 body.2)
    ∧ Forall (λ q, param_name q ≠ []) new.
Proof.
  intros Hcur (label & Hchildren & Hlabel%str_contains_spec).
  unfold visit_field. rewrite Hcur, Hchildren, Hlabel.
  apply (visit_list_items_add cur _ (self, D)).
Qed.

(** ** Short names that start with a repetition *)

(** X23.  A short name that starts with [?], [*] or [+] gives a pattern
    that does not compile, the repetition having nothing to repeat;
    [finish] then does not return as soon as one code block was
    collected. *)
Theorem repetition_first_raises (b : JSONDataBuilder) (c : char)
    (rest : text) (k : nat) :
  c = chr_question ∨ c = chr_star ∨ c = chr_plus →
  re_compile (word_pattern (c :: rest)) = Raise re_error
  ∧ ((c :: rest, k) ∈ class_map (all_api_classes b) →
     collected_code b ≠ [] →
     ∃ e, finish b = Raise e).
Proof.
  intros Hc.
  assert (re_compile (word_pattern (c :: rest)) = Raise re_error) as Hcompile.
  { by destruct Hc as [-> | [-> | ->]]. }
  split; [done|]. intros Hentry Hcodes.
  destruct (finish b) as [[b' out]|e] eqn:Hfinish; [|by exists e].
  exfalso. apply finish_Done in Hfinish as [Hlink _].
  apply link_Done in Hlink as [_ Hverdicts].
  destruct (collected_code b) as [|code codes] eqn:Hcollected; [done|].
  rewrite Forall_forall in Hverdicts.
  destruct (Hverdicts (code, (c :: rest, k))) as [found Hfound].
  { apply elem_of_steps_of. rewrite Hcollected. split; [by left | done]. }
  apply (verdict_Raise (code, (c :: rest, k))) in Hcompile. congruence.
Qed.

End Builder.

(** * Examples

    The documents of a small build: a reference page for the class
    [pkg.Widget] and a notebook that uses it. *)

(** [str.isalnum] above ASCII, on Latin-1; the examples hold no
    character beyond it. *)
Definition latin1_isalnum (c : char) : bool :=
  bool_decide (c ∈ [170; 178; 179; 181; 185; 186; 188; 189; 190]%N)
  || in_range 192%N 214%N c || in_range 216%N 246%N c || in_range 248%N 255%N c.

(** Notebooks under [user-guide/], one Markdown page among the reference
    pages, reStructuredText everywhere else. *)
Definition example_doc2path (docname : text) : text :=
  lit "/docs/src/" ++ docname ++
  (if is_prefix (lit "user-guide/") docname then lit ".ipynb"
   else if bool_decide (docname = lit "reference/python/notes") then lit ".md"
   else lit ".rst").

Definition attrs_of (sep : text) : attributes :=
  {| objtype := None; ids := []; child_text_separator := sep;
     text_opening := []; text_closing := [] |}.

(** An element whose children are blocks (their texts are set apart by
    an empty line) and one whose children are inline. *)
Definition block (c : node_class) (cs : list node) : node :=
  Element c (attrs_of [chr_newline; chr_newline]) cs.

Definition inline (c : node_class) (cs : list node) : node :=
  Element c (attrs_of []) cs.

Definition parameter_item (name type descr : string) : node :=
  block (exactly k_list_item)
    [ inline (exactly k_paragraph)
        [ inline (other (Some k_strong)) [Text (lit name)];
          Text (lit " (");
          inline (other (Some k_emphasis)) [Text (lit type)];
          Text (lit ")");
          Text [chr_space; chr_en_dash; chr_space];
          Text (lit descr) ] ].

Definition widget_field : node :=
  block (exactly k_field)
    [ inline (other None) [Text (lit "Parameters")];
      block (other None)
        [ block (other None)
            [ parameter_item "size" "int" "the size";
              parameter_item "" "str" "a parameter without a name" ] ] ].

Definition widget_signature : node :=
  Element (exactly k_desc_signature)
    {| objtype := None; ids := [lit "pkg.Widget"]; child_text_separator := [];
       text_opening := []; text_closing := [] |}
    [ Text (lit "class  "); Text (lit "pkg."); Text (lit "Widget");
      Element (other None)
        {| objtype := None; ids := []; child_text_separator := lit ", ";
           text_opening := lit "("; text_closing := lit ")" |}
        [ Text (lit "size") ];
      Text [chr_pilcrow]; Text (lit "[source]") ].

Definition widget_desc : node :=
  Element (exactly k_desc)
    {| objtype := Some (lit "class"); ids := [];
       child_text_separator := [chr_newline; chr_newline];
       text_opening := []; text_closing := [] |}
    [ widget_signature;
      block (exactly k_desc_content)
        [ inline (exactly k_paragraph) [Text (lit "A widget.")];
          block (other None) [widget_field] ] ].

Definition widget_reference : node := block (other None) [widget_desc].

Definition widget_guide : node :=
  block (other None)
    [ inline (exactly k_paragraph) [Text (lit "Make a widget:")];
      inline (exactly k_literal_block) [Text (lit "w = Widget(size=3)")];
      inline (exactly k_literal_block) [Text (lit "w2 = MyWidget()")] ].

Definition widget_docs : list (text * node) :=
  [ (lit "reference/python/pkg", widget_reference);
    (lit "user-guide/widget", widget_guide) ].

Definition widget_record (ex : list text) : APIRecord :=
  {| class_name := lit "pkg.Widget";
     signature := lit "class pkg.Widget(size)";
     description := lit "A widget.";
     parameters := [ {| param_name := lit "size"; param_type := lit "int";
                        param_description := lit "the size" |} ];
     examples := ex |}.

Definition widget_collected : JSONDataBuilder :=
  {| all_api_classes := [widget_record []];
     all_code_blocks :=
       [ (lit "user-guide/widget",
          [lit "w = Widget(size=3)"; lit "w2 = MyWidget()"]) ] |}.

Definition widget_linked : JSONDataBuilder :=
  {| all_api_classes := [widget_record [lit "w = Widget(size=3)"]];
     all_code_blocks := all_code_blocks widget_collected |}.

Example widget_collect : collect example_doc2path widget_docs = widget_collected.
Proof. vm_compute. reflexivity. Qed.

Example widget_build :
  build latin1_isalnum example_doc2path widget_docs
  = Done (widget_linked, json_dump (all_api_classes widget_linked)).
Proof. vm_compute. reflexivity. Qed.

(** The name "Agent" does not match inside "AssistantAgent". *)
Example agent_in_assistant_agent :
  re_search latin1_isalnum (word_pattern (lit "Agent"))
    (lit "a = AssistantAgent()") = Done false
  ∧ re_search latin1_isalnum (word_pattern (lit "Agent"))
      (lit "a = Agent(); b = AssistantAgent()") = Done true.
Proof. split; vm_compute; reflexivity. Qed.

(** ** A build of several documents *)

(** The description of a class known by [id], a reference page for one
    class, and a notebook with the given code blocks. *)
Definition class_desc (id : string) : node :=
  Element (exactly k_desc)
    {| objtype := Some (lit "class"); ids := [];
       child_text_separator := [chr_newline; chr_newline];
       text_opening := []; text_closing := [] |}
    [ Element (exactly k_desc_signature)
        {| objtype := None; ids := [lit id]; child_text_separator := [];
           text_opening := []; text_closing := [] |}
        [ Text (lit "class "); Text (lit id) ] ].

Definition class_page (id : string) : node :=
  block (other None)
    [ Element (exactly k_desc)
        {| objtype := Some (lit "class"); ids := [];
           child_text_separator := [chr_newline; chr_newline];
           text_opening := []; text_closing := [] |}
        [ Element (exactly k_desc_signature)
            {| objtype := None; ids := [lit id]; child_text_separator := [];
               text_opening := []; text_closing := [] |}
            [ Text (lit "class "); Text (lit id) ] ] ].

Definition notebook (blocks : list string) : node :=
  block (other None)
    ((λ code, inline (exactly k_literal_block) [Text (lit code)]) <$> blocks).

Definition page_record (id : string) : APIRecord :=
  {| class_name := lit id; signature := lit "class " ++ lit id;
     description := []; parameters := []; examples := [] |}.

(** Two reference pages, the first with the classes [shapes.Zeta] and
    [shapes.Alpha] in this order, the second the page of [pkg.Widget],
    and two notebooks.  The first code block names [Zeta] twice, stands
    twice in the first notebook and once more in the second; no block
    names [Alpha], the last one holding it inside [Alphabet] only. *)
Definition shapes_reference : node :=
  block (other None) [class_desc "shapes.Zeta"; class_desc "shapes.Alpha"].

Definition gallery_docs : list (text * node) :=
  [ (lit "reference/python/shapes", shapes_reference);
    (lit "user-guide/first",
     notebook [ "z = Zeta(); y = Zeta()"; "z = Zeta(); y = Zeta()";
                "w = Widget(Zeta())" ]%string);
    (lit "reference/python/pkg", widget_reference);
    (lit "user-guide/second",
     notebook [ "z = Zeta(); y = Zeta()"; "w = Widget(size=3)";
                "s = '(a+b)) [' # Alphabet" ]%string) ].

Definition gallery_code_blocks : list (text * list text) :=
  [ (lit "user-guide/first",
     [ lit "z = Zeta(); y = Zeta()"; lit "z = Zeta(); y = Zeta()";
       lit "w = Widget(Zeta())" ]);
    (lit "user-guide/second",
     [ lit "z = Zeta(); y = Zeta()"; lit "w = Widget(size=3)";
       lit "s = '(a+b)) [' # Alphabet" ]) ].

Definition gallery_collected : JSONDataBuilder :=
  {| all_api_classes :=
       [ page_record "shapes.Zeta"; page_record "shapes.Alpha"; widget_record [] ];
     all_code_blocks := gallery_code_blocks |}.

Definition gallery_linked : JSONDataBuilder :=
  {| all_api_classes :=
       [ with_examples (page_record "shapes.Zeta")
           [lit "z = Zeta(); y = Zeta()"; lit "w = Widget(Zeta())"];
         page_record "shapes.Alpha";
         widget_record [lit "w = Widget(Zeta())"; lit "w = Widget(size=3)"] ];
     all_code_blocks := gallery_code_blocks |}.

Example gallery_collect :
  collect example_doc2path gallery_docs = gallery_collected.
Proof. vm_compute. reflexivity. Qed.

Lemma gallery_finish :
  finish latin1_isalnum gallery_collected
  = Done (gallery_linked, json_dump (all_api_classes gallery_linked)).
Proof. vm_compute. reflexivity. Qed.

Lemma gallery_build :
  build latin1_isalnum example_doc2path gallery_docs
  = Done (gallery_linked, json_dump (all_api_classes gallery_linked)).
Proof. vm_compute. reflexivity. Qed.

(** ** The claims on the two builds *)

Lemma widget_plain_names : plain_names widget_collected.
Proof. repeat constructor. Qed.

Ltac word_names_by_evaluation :=
  repeat (apply Forall_cons_2; [split; [by vm_compute | by vm_compute]|]);
  apply Forall_nil_2.

Lemma widget_word_names : word_names latin1_isalnum widget_collected.
Proof. word_names_by_evaluation. Qed.

(** Goes through the places of a text at which a name can start; [tac]
    closes the goal at the places where it does start. *)
Ltac at_each_place tac :=
  let i := fresh "i" in
  let Hi := fresh "Hi" in
  let Hat := fresh "Hat" in
  intros i Hi;
  do 40 (destruct i as [|i];
         [vm_compute; intros Hat; first [discriminate Hat | tac]|]);
  vm_compute in Hi; lia.

(** The name [Widget] occurs in the second code block inside the longer
    identifier [MyWidget] only. *)
Lemma widget_inside_my_widget (pre post : text) :
  lit "w2 = MyWidget()" = pre ++ lit "Widget" ++ post →
  is_word_opt latin1_isalnum (last pre) = true
  ∨ is_word_opt latin1_isalnum (head post) = true.
Proof.
  apply (occurrences_at (lit "Widget") (lit "w2 = MyWidget()")
           (λ pre post, is_word_opt latin1_isalnum (last pre) = true
                        ∨ is_word_opt latin1_isalnum (head post) = true)).
  at_each_place ltac:(first [left; reflexivity | right; reflexivity]).
Qed.




Lemma widget_finish :
  finish latin1_isalnum widget_collected
  = Done (widget_linked, json_dump (all_api_classes widget_linked)).
Proof. vm_compute. reflexivity. Qed.

Lemma link_whole_word_occurrences_witness :
  word_names latin1_isalnum widget_collected
  ∧ ∃ linked,
      link latin1_isalnum widget_collected = Done linked
      ∧ lit "w = Widget(size=3)" ∈ examples_at linked 0
      ∧ lit "w2 = MyWidget()" ∉ examples_at linked 0.
Proof.
  split; [exact widget_word_names|].
  destruct (link_whole_word_occurrences latin1_isalnum widget_collected
              widget_word_names) as (linked & Hlink & Hlinked).
  assert ((lit "Widget", 0) ∈ class_map (all_api_classes widget_collected))
    as Hentry by (by left).
  exists linked. split; [exact Hlink|]. split.
  - destruct (Hlinked _ _ (lit "w = Widget(size=3)") Hentry) as (Hiff & _ & _).
    apply Hiff. right. split; [by left|].
    exists (lit "w = "), (lit "(size=3)").
    split_and!; [reflexivity | by vm_compute | by vm_compute].
  - destruct (Hlinked _ _ (lit "w2 = MyWidget()") Hentry) as (_ & _ & Hinside).
    apply Hinside; [exact widget_inside_my_widget|].
    by intros ?%elem_of_nil.
Defined.

Lemma build_examples_NoDup_witness :
  build latin1_isalnum example_doc2path gallery_docs
  = Done (gallery_linked, json_dump (all_api_classes gallery_linked))
  ∧ collected_code gallery_linked
    = [ lit "z = Zeta(); y = Zeta()"; lit "z = Zeta(); y = Zeta()";
        lit "w = Widget(Zeta())"; lit "z = Zeta(); y = Zeta()";
        lit "w = Widget(size=3)"; lit "s = '(a+b)) [' # Alphabet" ]
  ∧ examples <$> all_api_classes gallery_linked
    = [ [lit "z = Zeta(); y = Zeta()"; lit "w = Widget(Zeta())"];
        [];
        [lit "w = Widget(Zeta())"; lit "w = Widget(size=3)"] ]
  ∧ Forall (λ info, NoDup (examples info)) (all_api_classes gallery_linked).
Proof.
  split; [exact gallery_build|]. split; [reflexivity|]. split; [reflexivity|].
  exact (build_examples_NoDup latin1_isalnum example_doc2path gallery_docs
           gallery_linked _ gallery_build).
Defined.

Lemma finish_idempotent_witness :
  finish latin1_isalnum widget_collected
  = Done (widget_linked, json_dump (all_api_classes widget_linked))
  ∧ finish latin1_isalnum widget_linked
    = Done (widget_linked, json_dump (all_api_classes widget_linked)).
Proof.
  split; [exact widget_finish|].
  exact (finish_idempotent latin1_isalnum widget_collected widget_linked _
           widget_finish).
Defined.


Lemma finish_frame_witness :
  finish latin1_isalnum widget_collected
  = Done (widget_linked, json_dump (all_api_classes widget_linked))
  ∧ frame <$> all_api_classes widget_linked
    = frame <$> all_api_classes widget_collected
  ∧ length (all_api_classes widget_linked)
    = length (all_api_classes widget_collected)
  ∧ all_code_blocks widget_linked = all_code_blocks widget_collected.
Proof.
  split; [exact widget_finish|].
  exact (finish_frame latin1_isalnum widget_collected widget_linked _
           widget_finish).
Defined.

Lemma build_encounter_order_witness :
  build latin1_isalnum example_doc2path gallery_docs
  = Done (gallery_linked, json_dump (all_api_classes gallery_linked))
  ∧ json_dump (all_api_classes gallery_linked)
    = JArray
        [ JObject
            [ (lit "class_name", JString (lit "shapes.Zeta"));
              (lit "signature", JString (lit "class shapes.Zeta"));
              (lit "description", JString (lit ""));
              (lit "parameters", JArray []);
              (lit "examples",
               JArray [ JString (lit "z = Zeta(); y = Zeta()");
                        JString (lit "w = Widget(Zeta())") ]) ];
          JObject
            [ (lit "class_name", JString (lit "shapes.Alpha"));
              (lit "signature", JString (lit "class shapes.Alpha"));
              (lit "description", JString (lit ""));
              (lit "parameters", JArray []);
              (lit "examples", JArray []) ];
          JObject
            [ (lit "class_name", JString (lit "pkg.Widget"));
              (lit "signature", JString (lit "class pkg.Widget(size)"));
              (lit "description", JString (lit "A widget."));
              (lit "parameters",
               JArray
                 [ JObject [ (lit "name", JString (lit "size"));
                             (lit "type", JString (lit "int"));
                             (lit "description", JString (lit "the size")) ] ]);
              (lit "examples",
               JArray [ JString (lit "w = Widget(Zeta())");
                        JString (lit "w = Widget(size=3)") ]) ] ]
  ∧ class_name <$> (doc ← gallery_docs;
                     if is_reference_document doc.1 then api_records doc.2
                     else [])
    = class_name <$> all_api_classes gallery_linked
  ∧ class_name <$> all_api_classes gallery_linked
    = [lit "shapes.Zeta"; lit "shapes.Alpha"; lit "pkg.Widget"]
  ∧ fields_hold_no_desc shapes_reference = true
  ∧ outline <$> api_records shapes_reference
    = outline <$> static_records [] shapes_reference
  ∧ class_name <$> static_records [] shapes_reference
    = [lit "shapes.Zeta"; lit "shapes.Alpha"].
Proof.
  split; [exact gallery_build|].
  destruct (build_encounter_order latin1_isalnum example_doc2path gallery_docs
              gallery_linked _ gallery_build) as (Hout & Hframe & _ & Hstatic).
  split; [rewrite Hout; reflexivity|].
  split.
  { apply (f_equal (fmap (λ fr : text * text * text * list ParameterRecord,
                            fr.1.1.1))) in Hframe.
    rewrite <- !list_fmap_compose in Hframe. symmetry. exact Hframe. }
  split; [reflexivity|]. split; [reflexivity|].
  split; [exact (Hstatic shapes_reference eq_refl) | reflexivity].
Defined.

(** Two classes named [Bar]. *)
Definition bar_record (name : string) : APIRecord :=
  {| class_name := lit name; signature := lit "class Bar";
     description := []; parameters := []; examples := [] |}.

Definition bar_collected : JSONDataBuilder :=
  {| all_api_classes := [bar_record "foo.Bar"; bar_record "baz.Bar"];
     all_code_blocks := [(lit "user-guide/bar", [lit "b = Bar()"])] |}.

Example bar_finish :
  finish latin1_isalnum bar_collected
  = Done ({| all_api_classes :=
               [ bar_record "foo.Bar";
                 with_examples (bar_record "baz.Bar") [lit "b = Bar()"] ];
             all_code_blocks := all_code_blocks bar_collected |},
          json_dump [ bar_record "foo.Bar";
                      with_examples (bar_record "baz.Bar") [lit "b = Bar()"] ]).
Proof. vm_compute. reflexivity. Qed.

Lemma class_map_collision_witness :
  (0 < 1
   ∧ all_api_classes bar_collected !! 0 = Some (bar_record "foo.Bar")
   ∧ all_api_classes bar_collected !! 1 = Some (bar_record "baz.Bar")
   ∧ short_name_of (bar_record "foo.Bar") = short_name_of (bar_record "baz.Bar"))
  ∧ (∃ k, dict_get (short_name_of (bar_record "baz.Bar"))
            (class_map (all_api_classes bar_collected)) = Some k
          ∧ last_with_short_name (all_api_classes bar_collected)
              (short_name_of (bar_record "baz.Bar")) k
          ∧ 0 < k)
  ∧ (∀ short_name, (short_name, 0) ∉ class_map (all_api_classes bar_collected))
  ∧ (∀ b' out, finish latin1_isalnum bar_collected = Done (b', out) →
       all_api_classes b' !! 0 = Some (bar_record "foo.Bar"))
  ∧ (plain_names bar_collected →
     ∃ b' out, finish latin1_isalnum bar_collected = Done (b', out)).
Proof.
  split; [repeat split; lia|].
  exact (class_map_collision latin1_isalnum bar_collected 0 1
           (bar_record "foo.Bar") (bar_record "baz.Bar")
           (Nat.lt_0_succ 0) eq_refl eq_refl eq_refl).
Defined.

(** The visitor of the widget page when it reaches the field list. *)
Definition widget_visitor : APIDataVisitor :=
  {| data := [ with_parameters (widget_record []) [] ];
     current_class := Some 0 |}.

Definition widget_field_path : path := [0; 1; 1; 0].

(** The two list items of the field, at their places in the page. *)
Definition widget_size_item : path * node :=
  (widget_field_path ++ [1; 0; 0], parameter_item "size" "int" "the size").

Definition widget_unnamed_item : path * node :=
  (widget_field_path ++ [1; 0; 1],
   parameter_item "" "str" "a parameter without a name").

Definition widget_size_parameter : ParameterRecord :=
  {| param_name := lit "size"; param_type := lit "int";
     param_description := lit "the size" |}.

Lemma visit_field_parameters_witness :
  current_class widget_visitor = Some 0
  ∧ (∃ body,
       accepted_field ∅ widget_field_path widget_field body
       ∧ traverse_class k_list_item ∅ body.1 body.2
         = [widget_size_item; widget_unnamed_item]
       ∧ visit_field ∅ widget_field_path widget_field widget_visitor
         = foldl (visit_list_item 0) (widget_visitor, ∅)
             [widget_size_item; widget_unnamed_item])
  ∧ gains_parameter 0 widget_size_parameter (data widget_visitor)
      (data (visit_list_item 0 (widget_visitor, ∅) widget_size_item).1)
  ∧ data (visit_list_item 0
            (visit_list_item 0 (widget_visitor, ∅) widget_size_item)
            widget_unnamed_item).1
    = data (visit_list_item 0 (widget_visitor, ∅) widget_size_item).1
  ∧ ∃ info,
      data (visit_field ∅ widget_field_path widget_field widget_visitor).1 !! 0
      = Some info
      ∧ class_name info = lit "pkg.Widget"
      ∧ parameters info = [widget_size_parameter].
Proof.
  split; [reflexivity|].
  destruct (visit_field_parameters ∅ widget_field_path widget_field
              widget_visitor 0 eq_refl) as (_ & Haccepted & _ & Hitem).
  set (body := (widget_field_path ++ [1],
                block (other None)
                  [ block (other None)
                      [ parameter_item "size" "int" "the size";
                        parameter_item "" "str" "a parameter without a name" ] ])
               : path * node).
  assert (accepted_field ∅ widget_field_path widget_field body) as Hbody.
  { eexists. split; [reflexivity|]. by exists [], []. }
  assert (traverse_class k_list_item ∅ body.1 body.2
          = [widget_size_item; widget_unnamed_item]) as Hitems.
  { vm_compute. reflexivity. }
  pose proof (Haccepted body Hbody) as Hfield. rewrite Hitems in Hfield.
  (* the item of "size" *)
  assert (gains_parameter 0 widget_size_parameter (data widget_visitor)
            (data (visit_list_item 0 (widget_visitor, ∅) widget_size_item).1))
    as Hsize.
  { destruct (Hitem (widget_visitor, ∅) widget_size_item
                (widget_size_item.1 ++ [0])
                (inline (exactly k_paragraph)
                   [ inline (other (Some k_strong)) [Text (lit "size")];
                     Text (lit " (");
                     inline (other (Some k_emphasis)) [Text (lit "int")];
                     Text (lit ")");
                     Text [chr_space; chr_en_dash; chr_space];
                     Text (lit "the size") ]))
      as (name & type_str & desc & Hname & Htype & _ & Hvisit & _ & _ & Hgain).
    { vm_compute. reflexivity. }
    assert (parameters
              <$> data (visit_list_item 0 (widget_visitor, ∅) widget_size_item).1
            = [[widget_size_parameter]]) as Hdesc by (vm_compute; reflexivity).
    rewrite Hvisit in Hdesc. vm_compute in Hname, Htype. subst name type_str.
    vm_compute in Hdesc. injection Hdesc as ->.
    apply Hgain. discriminate. }
  (* the item without a name *)
  assert (data (visit_list_item 0
                  (visit_list_item 0 (widget_visitor, ∅) widget_size_item)
                  widget_unnamed_item).1
          = data (visit_list_item 0 (widget_visitor, ∅) widget_size_item).1)
    as Hunnamed.
  { destruct (Hitem (visit_list_item 0 (widget_visitor, ∅) widget_size_item)
                widget_unnamed_item
                (widget_unnamed_item.1 ++ [0])
                (inline (exactly k_paragraph)
                   [ inline (other (Some k_strong)) [Text (lit "")];
                     Text (lit " (");
                     inline (other (Some k_emphasis)) [Text (lit "str")];
                     Text (lit ")");
                     Text [chr_space; chr_en_dash; chr_space];
                     Text (lit "a parameter without a name") ]))
      as (name & type_str & desc & Hname & _ & _ & _ & _ & Hempty & _).
    { vm_compute. reflexivity. }
    apply Hempty. rewrite Hname. vm_compute. reflexivity. }
  split.
  { exists body. split; [exact Hbody|]. split; [exact Hitems | exact Hfield]. }
  split; [exact Hsize|]. split; [exact Hunnamed|].
  destruct Hsize as [_ Hsize].
  destruct (Hsize 0 (with_parameters (widget_record []) []) eq_refl)
    as (info & Hlookup & Hclass & _ & _ & _ & Hparameters).
  exists info. split; [|split; [exact Hclass | exact Hparameters]].
  rewrite Hfield. cbn [foldl]. rewrite Hunnamed. exact Hlookup.
Defined.

Example widget_visit_field :
  (visit_field ∅ widget_field_path widget_field widget_visitor).1
  = {| data := [widget_record []]; current_class := Some 0 |}.
Proof. vm_compute. reflexivity. Qed.

(** A class description without a signature, and one whose signature has
    no identifier. *)
Definition ghost_desc : node :=
  Element (exactly k_desc)
    {| objtype := Some (lit "class"); ids := [lit "pkg.Ghost"];
       child_text_separator := []; text_opening := []; text_closing := [] |}
    [ block (exactly k_desc_content)
        [inline (exactly k_paragraph) [Text (lit "No signature.")]] ].

Definition anonymous_signature : node :=
  inline (exactly k_desc_signature) [Text (lit "class Anonymous")].

Definition anonymous_desc : node :=
  Element (exactly k_desc)
    {| objtype := Some (lit "class"); ids := [];
       child_text_separator := []; text_opening := []; text_closing := [] |}
    [ anonymous_signature ].

Lemma visit_desc_signature_witness :
  (is_class_desc ghost_desc = true
   ∧ first_instance k_desc_signature ∅ [] ghost_desc = None
   ∧ visit_desc ∅ [] ghost_desc new_api_visitor = new_api_visitor
   ∧ visit_desc ∅ [] ghost_desc widget_visitor = widget_visitor)
  ∧ (is_class_desc anonymous_desc = true
     ∧ ∃ info,
         visit_desc ∅ [] anonymous_desc new_api_visitor
         = {| data := [info]; current_class := Some 0 |}
         ∧ class_name info = lit "UnknownClass"
         ∧ parameters info = [] ∧ examples info = [])
  ∧ (is_class_desc widget_desc = true
     ∧ ∃ info,
         visit_desc ∅ [0] widget_desc new_api_visitor
         = {| data := [info]; current_class := Some 0 |}
         ∧ class_name info = lit "pkg.Widget").
Proof.
  assert (∀ pn, pn ∈ traverse ∅ [] ghost_desc →
                isinstance pn.2 k_desc_signature = false) as Hghost.
  { apply first_instance_None. vm_compute. reflexivity. }
  split_and!.
  - reflexivity.
  - vm_compute. reflexivity.
  - destruct (visit_desc_signature ∅ [] ghost_desc new_api_visitor eq_refl)
      as [Hnone _].
    exact (Hnone Hghost).
  - destruct (visit_desc_signature ∅ [] ghost_desc widget_visitor eq_refl)
      as [Hnone _].
    exact (Hnone Hghost).
  - reflexivity.
  - destruct (visit_desc_signature ∅ [] anonymous_desc new_api_visitor eq_refl)
      as [_ Hsig].
    destruct (Hsig [0] anonymous_signature eq_refl)
      as (info & Hvisit & Hparameters & Hexamples & Hunknown & _).
    exists info. split; [exact Hvisit|].
    split; [exact (Hunknown eq_refl)|]. split; [exact Hparameters | exact Hexamples].
  - reflexivity.
  - destruct (visit_desc_signature ∅ [0] widget_desc new_api_visitor eq_refl)
      as [_ Hsig].
    destruct (Hsig [0; 0] widget_signature eq_refl)
      as (info & Hvisit & _ & _ & _ & Hid).
    exists info. split; [exact Hvisit|]. exact (Hid _ _ eq_refl).
Defined.

Example desc_without_signature :
  visit_desc ∅ [] ghost_desc new_api_visitor = new_api_visitor.
Proof. vm_compute. reflexivity. Qed.

Example desc_without_identifier :
  data (visit_desc ∅ [] anonymous_desc new_api_visitor)
  = [ {| class_name := lit "UnknownClass"; signature := lit "class Anonymous";
         description := []; parameters := []; examples := [] |} ].
Proof. vm_compute. reflexivity. Qed.

(** ** Names that are no identifiers

    The names of the classes of a documentation are identifiers.  Fed a
    name that is none, [finish] reads it as a pattern, since it puts the
    name into the pattern as it stands. *)

(** The name [A+B] is read as a pattern: one or more [A], then [B]. *)
Definition plus_docs : list (text * node) :=
  [ (lit "reference/python/pkg", class_page "pkg.A+B");
    (lit "user-guide/sum", notebook ["A+B"%string]) ].

Definition plus_collected : JSONDataBuilder :=
  {| all_api_classes := [page_record "pkg.A+B"];
     all_code_blocks := [(lit "user-guide/sum", [lit "A+B"])] |}.

Example plus_name_read_as_pattern :
  collect example_doc2path plus_docs = plus_collected
  ∧ (lit "A+B", 0) ∈ class_map (all_api_classes plus_collected)
  ∧ lit "A+B" ∈ collected_code plus_collected
  ∧ occurs_as_word latin1_isalnum (lit "A+B") (lit "A+B")
  ∧ link latin1_isalnum plus_collected = Done [page_record "pkg.A+B"]
  ∧ lit "A+B" ∉ examples_at [page_record "pkg.A+B"] 0.
Proof.
  split_and!.
  - vm_compute. reflexivity.
  - vm_compute. by left.
  - vm_compute. by left.
  - exists [], []. split_and!; [done | by vm_compute..].
  - vm_compute. reflexivity.
  - vm_compute. by intros ?%elem_of_nil.
Qed.

(** The same name does link a block it does not occur in. *)
Example plus_links_other_text :
  build latin1_isalnum example_doc2path
    [ (lit "reference/python/pkg", class_page "pkg.A+B");
      (lit "user-guide/sum", notebook ["AAB = 1"%string]) ]
  = Done ({| all_api_classes :=
               [with_examples (page_record "pkg.A+B") [lit "AAB = 1"]];
             all_code_blocks := [(lit "user-guide/sum", [lit "AAB = 1"])] |},
          json_dump [with_examples (page_record "pkg.A+B") [lit "AAB = 1"]]).
Proof. vm_compute. reflexivity. Qed.

(** A name with a closing parenthesis is no pattern at all. *)
Definition unbalanced_docs : list (text * node) :=
  [ (lit "reference/python/pkg", class_page "pkg.Widget)");
    (lit "user-guide/widget", notebook ["w = Widget(size=3)"%string]) ].

Example unbalanced_name_raises :
  collect example_doc2path unbalanced_docs
  = {| all_api_classes := [page_record "pkg.Widget)"];
       all_code_blocks :=
         [(lit "user-guide/widget", [lit "w = Widget(size=3)"])] |}
  ∧ finish latin1_isalnum (collect example_doc2path unbalanced_docs)
    = Raise re_error.
Proof. split; vm_compute; reflexivity. Qed.

(** ** The two tests of [write_doc] *)

(** A page with a class and a code block. *)
Definition notes_page : node :=
  block (other None)
    [ class_page "pkg.Widget";
      inline (exactly k_literal_block) [Text (lit "w = Widget()")] ].

(** The name of a document in which "reference/python" stands, though
    neither "reference" nor "python" is one of its segments: its classes
    are collected. *)
Lemma reference_substring_counterexample :
  is_reference_document (lit "api_reference/python_sdk") = true
  ∧ all_api_classes
      (write_doc example_doc2path (lit "api_reference/python_sdk")
         (class_page "pkg.Widget") init)
    = [page_record "pkg.Widget"]
  ∧ str_split chr_slash (lit "api_reference/python_sdk")
    = [lit "api_reference"; lit "python_sdk"]
  ∧ ¬ has_segment_sequence [lit "reference"; lit "python"]
        (lit "api_reference/python_sdk").
Proof.
  split_and!; [vm_compute; reflexivity.. |].
  intros (before & after & Hsplit). vm_compute in Hsplit.
  destruct before as [|? [|? [|? ?]]]; discriminate Hsplit.
Qed.

Lemma write_doc_visitors_witness :
  (has_segment_sequence [lit "reference"; lit "python"] (lit "reference/python/pkg")
   ∧ is_reference_document (lit "reference/python/pkg") = true
   ∧ path_name (example_doc2path (lit "reference/python/pkg")) = lit "pkg.rst"
   ∧ is_example_document example_doc2path (lit "reference/python/pkg") = false
   ∧ write_doc example_doc2path (lit "reference/python/pkg") notes_page init
     = {| all_api_classes := [page_record "pkg.Widget"];
          all_code_blocks := [] |})
  ∧ (is_reference_document (lit "user-guide/widget") = false
     ∧ path_name (example_doc2path (lit "user-guide/widget")) = lit "widget.ipynb"
     ∧ is_example_document example_doc2path (lit "user-guide/widget") = true
     ∧ write_doc example_doc2path (lit "user-guide/widget") notes_page init
       = {| all_api_classes := [];
            all_code_blocks :=
              [(lit "user-guide/widget", [lit "w = Widget()"])] |})
  ∧ (has_segment_sequence [lit "reference"; lit "python"]
       (lit "reference/python/notes")
     ∧ is_reference_document (lit "reference/python/notes") = true
     ∧ path_name (example_doc2path (lit "reference/python/notes")) = lit "notes.md"
     ∧ is_example_document example_doc2path (lit "reference/python/notes") = true
     ∧ write_doc example_doc2path (lit "reference/python/notes") notes_page init
       = {| all_api_classes := [page_record "pkg.Widget"];
            all_code_blocks :=
              [(lit "reference/python/notes", [lit "w = Widget()"])] |})
  ∧ (is_reference_document (lit "index") = false
     ∧ path_name (example_doc2path (lit "index")) = lit "index.rst"
     ∧ is_example_document example_doc2path (lit "index") = false
     ∧ write_doc example_doc2path (lit "index") notes_page init = init).
Proof.
  split_and!.
  (* a reference page in reStructuredText *)
  - by exists [], [lit "pkg"].
  - destruct (write_doc_visitors example_doc2path (lit "reference/python/pkg")
                notes_page init) as (_ & Hsegments & _).
    apply Hsegments. by exists [], [lit "pkg"].
  - destruct (write_doc_visitors example_doc2path (lit "reference/python/pkg")
                notes_page init) as (_ & _ & _ & _ & Hname & _).
    apply (Hname (lit "/docs/src/reference/python") (lit "pkg.rst"));
      [apply (bool_decide_unpack _); by vm_compute | done | done | reflexivity].
  - destruct (write_doc_visitors example_doc2path (lit "reference/python/pkg")
                notes_page init) as (_ & _ & _ & Hstem & Hname & _).
    apply not_true_is_false. intros Hexample.
    apply Hstem in Hexample as (stem & _ & Hfile).
    rewrite (Hname (lit "/docs/src/reference/python") (lit "pkg.rst")) in Hfile;
      [| apply (bool_decide_unpack _); by vm_compute | done | done | reflexivity].
    destruct Hfile as [Hfile | Hfile]; apply (f_equal last) in Hfile;
      rewrite last_app in Hfile; vm_compute in Hfile; discriminate Hfile.
  - destruct (write_doc_visitors example_doc2path (lit "reference/python/pkg")
                notes_page init) as (_ & _ & _ & _ & _ & Hclasses & Hblocks).
    destruct (write_doc example_doc2path (lit "reference/python/pkg")
                notes_page init) as [classes blocks].
    vm_compute in Hclasses, Hblocks. subst classes blocks.
    vm_compute. reflexivity.
  (* a notebook *)
  - destruct (write_doc_visitors example_doc2path (lit "user-guide/widget")
                notes_page init) as (Htoken & _).
    apply not_true_is_false. intros Hreference.
    apply Htoken in Hreference as (pre & post & Hname).
    revert Hname.
    apply (occurrences_at (lit "reference/python") (lit "user-guide/widget")
             (λ _ _, False)).
    at_each_place fail.
  - destruct (write_doc_visitors example_doc2path (lit "user-guide/widget")
                notes_page init) as (_ & _ & _ & _ & Hname & _).
    apply (Hname (lit "/docs/src/user-guide") (lit "widget.ipynb"));
      [apply (bool_decide_unpack _); by vm_compute | done | done | reflexivity].
  - destruct (write_doc_visitors example_doc2path (lit "user-guide/widget")
                notes_page init) as (_ & _ & _ & Hstem & Hname & _).
    apply Hstem. exists (lit "widget"). split; [done|]. left.
    apply (Hname (lit "/docs/src/user-guide") (lit "widget.ipynb"));
      [apply (bool_decide_unpack _); by vm_compute | done | done | reflexivity].
  - destruct (write_doc_visitors example_doc2path (lit "user-guide/widget")
                notes_page init) as (_ & _ & _ & _ & _ & Hclasses & Hblocks).
    destruct (write_doc example_doc2path (lit "user-guide/widget")
                notes_page init) as [classes blocks].
    vm_compute in Hclasses, Hblocks. subst classes blocks.
    vm_compute. reflexivity.
  (* a reference page in Markdown *)
  - by exists [], [lit "notes"].
  - destruct (write_doc_visitors example_doc2path (lit "reference/python/notes")
                notes_page init) as (_ & Hsegments & _).
    apply Hsegments. by exists [], [lit "notes"].
  - destruct (write_doc_visitors example_doc2path (lit "reference/python/notes")
                notes_page init) as (_ & _ & _ & _ & Hname & _).
    apply (Hname (lit "/docs/src/reference/python") (lit "notes.md"));
      [apply (bool_decide_unpack _); by vm_compute | done | done | reflexivity].
  - destruct (write_doc_visitors example_doc2path (lit "reference/python/notes")
                notes_page init) as (_ & _ & _ & Hstem & Hname & _).
    apply Hstem. exists (lit "notes"). split; [done|]. right.
    apply (Hname (lit "/docs/src/reference/python") (lit "notes.md"));
      [apply (bool_decide_unpack _); by vm_compute | done | done | reflexivity].
  - destruct (write_doc_visitors example_doc2path (lit "reference/python/notes")
                notes_page init) as (_ & _ & _ & _ & _ & Hclasses & Hblocks).
    destruct (write_doc example_doc2path (lit "reference/python/notes")
                notes_page init) as [classes blocks].
    vm_compute in Hclasses, Hblocks. subst classes blocks.
    vm_compute. reflexivity.
  (* a page that is neither *)
  - destruct (write_doc_visitors example_doc2path (lit "index")
                notes_page init) as (Htoken & _).
    apply not_true_is_false. intros Hreference.
    apply Htoken in Hreference as (pre & post & Hname).
    revert Hname.
    apply (occurrences_at (lit "reference/python") (lit "index") (λ _ _, False)).
    at_each_place fail.
  - destruct (write_doc_visitors example_doc2path (lit "index")
                notes_page init) as (_ & _ & _ & _ & Hname & _).
    apply (Hname (lit "/docs/src") (lit "index.rst"));
      [apply (bool_decide_unpack _); by vm_compute | done | done | reflexivity].
  - destruct (write_doc_visitors example_doc2path (lit "index")
                notes_page init) as (_ & _ & _ & Hstem & Hname & _).
    apply not_true_is_false. intros Hexample.
    apply Hstem in Hexample as (stem & _ & Hfile).
    rewrite (Hname (lit "/docs/src") (lit "index.rst")) in Hfile;
      [| apply (bool_decide_unpack _); by vm_compute | done | done | reflexivity].
    destruct Hfile as [Hfile | Hfile]; apply (f_equal last) in Hfile;
      rewrite last_app in Hfile; vm_compute in Hfile; discriminate Hfile.
  - destruct (write_doc_visitors example_doc2path (lit "index")
                notes_page init) as (_ & _ & _ & _ & _ & Hclasses & Hblocks).
    destruct (write_doc example_doc2path (lit "index") notes_page init)
      as [classes blocks].
    vm_compute in Hclasses, Hblocks. subst classes blocks.
    vm_compute. reflexivity.
Defined.

Example write_doc_reference_only :
  is_reference_document (lit "reference/python/pkg") = true
  ∧ is_example_document example_doc2path (lit "reference/python/pkg") = false.
Proof. split; vm_compute; reflexivity. Qed.

Example write_doc_example_only :
  is_reference_document (lit "user-guide/widget") = false
  ∧ is_example_document example_doc2path (lit "user-guide/widget") = true.
Proof. split; vm_compute; reflexivity. Qed.

Example write_doc_both :
  is_reference_document (lit "reference/python/notes") = true
  ∧ is_example_document example_doc2path (lit "reference/python/notes") = true.
Proof. split; vm_compute; reflexivity. Qed.

Example write_doc_neither :
  is_reference_document (lit "index") = false
  ∧ is_example_document example_doc2path (lit "index") = false.
Proof. split; vm_compute; reflexivity. Qed.

(** A page that is both: its class and its code block are collected. *)
Example write_doc_both_collections :
  write_doc example_doc2path (lit "reference/python/notes") notes_page init
  = {| all_api_classes := [page_record "pkg.Widget"];
       all_code_blocks := [(lit "reference/python/notes", [lit "w = Widget()"])] |}.
Proof. vm_compute. reflexivity. Qed.

(** The widget page holds no description below a field; its records as
    parsed are the one of [pkg.Widget]. *)
Example widget_static_records :
  fields_hold_no_desc widget_reference = true
  ∧ outline <$> static_records [] widget_reference = [outline (widget_record [])].
Proof. split; vm_compute; reflexivity. Qed.

(** ** The further properties on the widget build *)

Definition bar_baz_records : list APIRecord :=
  [bar_record "foo.Bar"; bar_record "foo.Baz"].

Lemma class_map_distinct_names_witness :
  NoDup (short_name_of <$> bar_baz_records)
  ∧ class_map bar_baz_records = [(lit "Bar", 0); (lit "Baz", 1)].
Proof.
  assert (NoDup (short_name_of <$> bar_baz_records)) as Hnodup.
  { apply (bool_decide_unpack _). vm_compute. exact I. }
  split; [exact Hnodup|].
  exact (class_map_distinct_names bar_baz_records Hnodup).
Defined.

(** A class whose identifier ends with a dot. *)
Lemma empty_short_name_links_every_word_witness :
  (class_name (page_record "pkg.") = []
   ∨ last (class_name (page_record "pkg.")) = Some chr_dot)
  ∧ short_name_of (page_record "pkg.") = []
  ∧ re_search latin1_isalnum (word_pattern (short_name_of (page_record "pkg.")))
      (lit "x = 1")
    = Done true.
Proof.
  split; [right; reflexivity|].
  exact (empty_short_name_links_every_word latin1_isalnum (page_record "pkg.")
           (lit "x = 1") (or_intror eq_refl)).
Defined.

Lemma finish_appends_in_collection_order_witness :
  finish latin1_isalnum widget_collected
  = Done (widget_linked, json_dump (all_api_classes widget_linked))
  ∧ ∃ new,
      examples_at (all_api_classes widget_linked) 0
      = examples_at (all_api_classes widget_collected) 0 ++ new
      ∧ new `sublist_of` collected_code widget_collected.
Proof.
  split; [exact widget_finish|].
  exact (finish_appends_in_collection_order latin1_isalnum widget_collected
           widget_linked _ widget_finish 0).
Defined.

(** Records whose name is no pattern, and no code block. *)
Definition unbalanced_alone : JSONDataBuilder :=
  {| all_api_classes := [page_record "pkg.Widget)"]; all_code_blocks := [] |}.

Lemma finish_nothing_to_link_witness :
  (collected_code unbalanced_alone = [] ∨ all_api_classes unbalanced_alone = [])
  ∧ finish latin1_isalnum unbalanced_alone
    = Done (unbalanced_alone, json_dump (all_api_classes unbalanced_alone)).
Proof.
  split; [left; reflexivity|].
  exact (finish_nothing_to_link latin1_isalnum unbalanced_alone
           (or_introl eq_refl)).
Defined.

Lemma write_doc_example_document_witness :
  is_reference_document (lit "user-guide/widget") = false
  ∧ is_example_document example_doc2path (lit "user-guide/widget") = true
  ∧ write_doc example_doc2path (lit "user-guide/widget") widget_guide init
    = {| all_api_classes := [];
         all_code_blocks :=
           [ (lit "user-guide/widget",
              [lit "w = Widget(size=3)"; lit "w2 = MyWidget()"]) ] |}.
Proof.
  split; [reflexivity|]. split; [reflexivity|].
  exact (proj1 (write_doc_example_document example_doc2path
                  (lit "user-guide/widget") widget_guide init
                  eq_refl eq_refl)).
Defined.

Lemma collect_code_blocks_distinct_names_witness :
  NoDup widget_docs.*1
  ∧ all_code_blocks (collect example_doc2path widget_docs)
    = [ (lit "user-guide/widget",
         [lit "w = Widget(size=3)"; lit "w2 = MyWidget()"]) ].
Proof.
  assert (NoDup widget_docs.*1) as Hnodup.
  { apply (bool_decide_unpack _). vm_compute. exact I. }
  split; [exact Hnodup|].
  exact (collect_code_blocks_distinct_names example_doc2path widget_docs Hnodup).
Defined.

Lemma build_parameters_named_witness :
  build latin1_isalnum example_doc2path widget_docs
  = Done (widget_linked, json_dump (all_api_classes widget_linked))
  ∧ ∀ info q,
      info ∈ all_api_classes widget_linked → q ∈ parameters info →
      param_name q ≠ [].
Proof.
  split; [exact widget_build|].
  exact (build_parameters_named latin1_isalnum example_doc2path widget_docs
           widget_linked _ widget_build).
Defined.

Lemma build_signatures_single_line_witness :
  build latin1_isalnum example_doc2path widget_docs
  = Done (widget_linked, json_dump (all_api_classes widget_linked))
  ∧ ∀ info, info ∈ all_api_classes widget_linked → single_line (signature info).
Proof.
  split; [exact widget_build|].
  exact (build_signatures_single_line latin1_isalnum example_doc2path
           widget_docs widget_linked _ widget_build).
Defined.

Lemma open_class_stays_last_witness :
  open_class_is_last widget_visitor
  ∧ open_class_is_last
      (walkabout widget_field_path widget_field (widget_visitor, ∅)).1.
Proof.
  assert (open_class_is_last widget_visitor) as Hlast.
  { intros cur [= <-]. reflexivity. }
  split; [exact Hlast|].
  exact (open_class_stays_last widget_field widget_field_path
           (widget_visitor, ∅) Hlast).
Defined.

(** The name of the parameter [size], which the walk takes out of its
    paragraph. *)
Definition widget_size_name : path := widget_field_path ++ [1; 0; 0; 0; 0].

Lemma api_walk_takes_tags_of_fields_witness :
  widget_size_name ∈ (walkabout [] widget_reference (new_api_visitor, ∅)).2
  ∧ tag_of_field [] widget_reference widget_size_name.
Proof.
  assert (widget_size_name
          ∈ (walkabout [] widget_reference (new_api_visitor, ∅)).2) as Hgone.
  { apply (bool_decide_unpack _). vm_compute. exact I. }
  split; [exact Hgone|].
  destruct (api_walk_takes_tags_of_fields widget_reference []
              (new_api_visitor, ∅) widget_size_name Hgone) as [Hbefore | Htag].
  - exfalso. exact (not_elem_of_empty (C:=removed) _ Hbefore).
  - exact Htag.
Defined.

Lemma build_examples_are_code_blocks_witness :
  build latin1_isalnum example_doc2path widget_docs
  = Done (widget_linked, json_dump (all_api_classes widget_linked))
  ∧ widget_record [lit "w = Widget(size=3)"] ∈ all_api_classes widget_linked
  ∧ lit "w = Widget(size=3)" ∈ examples (widget_record [lit "w = Widget(size=3)"])
  ∧ (∃ docname doctree,
        (docname, doctree) ∈ widget_docs
        ∧ is_example_document example_doc2path docname = true
        ∧ lit "w = Widget(size=3)" ∈ document_code_blocks docname doctree)
  ∧ re_search latin1_isalnum
      (word_pattern (short_name_of (widget_record [lit "w = Widget(size=3)"])))
      (lit "w = Widget(size=3)")
    = Done true.
Proof.
  assert (widget_record [lit "w = Widget(size=3)"]
          ∈ all_api_classes widget_linked) as Hinfo by (by left).
  assert (lit "w = Widget(size=3)"
          ∈ examples (widget_record [lit "w = Widget(size=3)"])) as Hcode
    by (by left).
  split; [exact widget_build|]. split; [exact Hinfo|]. split; [exact Hcode|].
  exact (build_examples_are_code_blocks latin1_isalnum example_doc2path
           widget_docs widget_linked _ widget_build _ _ Hinfo Hcode).
Defined.

Lemma identifier_name_search_witness :
  lit "Widget" ≠ []
  ∧ forallb (is_word latin1_isalnum) (lit "Widget") = true
  ∧ ∃ found,
      re_search latin1_isalnum (word_pattern (lit "Widget"))
        (lit "w = Widget(size=3)") = Done found
      ∧ (found = true
         ↔ ∃ pre post,
             lit "w = Widget(size=3)" = pre ++ lit "Widget" ++ post
             ∧ is_word_opt latin1_isalnum (last pre) = false
             ∧ is_word_opt latin1_isalnum (head post) = false).
Proof.
  assert (lit "Widget" ≠ []) as Hne by discriminate.
  split; [exact Hne|]. split; [reflexivity|].
  exact (identifier_name_search latin1_isalnum (lit "Widget")
           (lit "w = Widget(size=3)") Hne eq_refl).
Defined.

Lemma dotted_names_finish_returns_witness :
  (∀ info c,
     info ∈ all_api_classes widget_collected → c ∈ class_name info →
     is_word latin1_isalnum c = true ∨ c = chr_dot)
  ∧ ∃ b' out, finish latin1_isalnum widget_collected = Done (b', out).
Proof.
  assert (∀ info c,
            info ∈ all_api_classes widget_collected → c ∈ class_name info →
            is_word latin1_isalnum c = true ∨ c = chr_dot) as Hdotted.
  { intros info c ->%list_elem_of_singleton Hc.
    assert (Forall (λ c, is_word latin1_isalnum c = true ∨ c = chr_dot)
              (class_name (widget_record []))) as Hname.
    { vm_compute class_name.
      repeat (apply Forall_cons; split;
                [first [left; reflexivity | right; reflexivity]|]).
      constructor. }
    rewrite Forall_forall in Hname. by apply Hname. }
  split; [exact Hdotted|].
  exact (dotted_names_finish_returns latin1_isalnum widget_collected Hdotted).
Defined.

Lemma visit_field_adds_parameters_witness :
  current_class widget_visitor = Some 0
  ∧ ∃ body, accepted_field ∅ widget_field_path widget_field body
      ∧ ∃ new,
          data (visit_field ∅ widget_field_path widget_field widget_visitor).1
          = alter (add_parameters new) 0 (data widget_visitor)
          ∧ length new ≤ length (traverse_class k_list_item ∅ body.1 body.2)
          ∧ Forall (λ q, param_name q ≠ []) new.
Proof.
  split; [reflexivity|].
  eexists. split.
  - eexists. split; [reflexivity|]. by exists [], [].
  - apply (visit_field_adds_parameters ∅ widget_field_path widget_field
             widget_visitor 0 _ eq_refl).
    eexists. split; [reflexivity|]. by exists [], [].
Defined.

(** A class whose identifier ends with a starred name. *)
Definition starred_collected : JSONDataBuilder :=
  {| all_api_classes := [page_record "pkg.*args"];
     all_code_blocks := [(lit "user-guide/calls", [lit "f(*args)"])] |}.

Lemma repetition_first_raises_witness :
  (chr_star = chr_question ∨ chr_star = chr_star ∨ chr_star = chr_plus)
  ∧ re_compile (word_pattern (lit "*args")) = Raise re_error
  ∧ ∃ e, finish latin1_isalnum starred_collected = Raise e.
Proof.
  split; [right; left; reflexivity|].
  destruct (repetition_first_raises latin1_isalnum starred_collected
              chr_star (lit "args") 0 (or_intror (or_introl eq_refl)))
    as [Hcompile Hfinish].
  split; [exact Hcompile|].
  apply Hfinish; [by left | discriminate].
Defined.

Lemma finish_links_each_record_alone_witness :
  finish latin1_isalnum widget_collected
  = Done (widget_linked, json_dump (all_api_classes widget_linked))
  ∧ (lit "Widget", 0) ∈ class_map (all_api_classes widget_collected)
  ∧ examples_at (all_api_classes widget_linked) 0
    = foldl add_example (examples_at (all_api_classes widget_collected) 0)
        (filter (λ code, mentions latin1_isalnum (lit "Widget") code = true)
           (collected_code widget_collected)).
Proof.
  assert ((lit "Widget", 0) ∈ class_map (all_api_classes widget_collected))
    as Hentry by (by left).
  split; [exact widget_finish|]. split; [exact Hentry|].
  exact (finish_links_each_record_alone latin1_isalnum widget_collected
           widget_linked _ (lit "Widget") 0 widget_finish Hentry).
Defined.
